(** * omega.js: a shallow embedding and the properties of its helpers

    The library is one closure over a handful of cached platform objects
    ([_win], [_doc], [_html], [_head], [_body]), a readiness flag with a
    queue of callbacks, and some twenty helpers.  Each helper is embedded
    as a function over an explicit state:

    - [Js]: JavaScript values, truthiness, a store of objects with
      prototype links; [_isNullOrUndefined], [_isString], [_addDefaults],
      [_noConflict] and the load sequence of the global binding.
    - [Xhr]: the calls [_xhr] makes on the request object.
    - [Ready]: [_onDomReady], [_onDomReadyHandler] and the event loop tasks
      that drive them.
    - [Dom]: a heap of DOM nodes with [appendChild], [cloneNode],
      [innerHTML]; [_parent], [_frag], [_parseOne].
    - [Edit]: [insertBefore] and [removeChild] on that heap;
      [_prependChild], [_appendChild], [_prependSibling], [_appendSibling],
      [_clear], [_remove].

    Platform primitives (the DOM, timers, XMLHttpRequest, selector matching,
    the HTML parser, JSON.stringify) are not code of the library: they are
    modelled after their standards or taken as parameters. *)

From stdpp Require Import gmap strings list fin_maps.

(** ** Results of a call: a value or a thrown error *)

Inductive error :=
  | TypeError                (* raised by the platform *)
  | HierarchyRequestError    (* raised by the DOM *)
  | Error (msg : string).    (* [throw new Error(msg)] in the library *)

Inductive result (A : Type) :=
  | Ok (a : A)
  | Throw (e : error).
Arguments Ok {A} a.
Arguments Throw {A} e.

(** * JavaScript values and objects *)

Module Js.

Definition loc := nat.

(** Numbers are the integral ones; functions and DOM nodes are objects of
    the store like any other. *)
Inductive value :=
  | VUndefined
  | VNull
  | VBool (b : bool)
  | VNum (z : Z)
  | VStr (s : string)
  | VObj (l : loc).

#[global] Instance value_eq_dec : EqDecision value.
Proof. solve_decision. Defined.

(** ToBoolean: what [!v], [v || w] and [if (v)] test. *)
Definition truthy (v : value) : bool :=
  match v with
  | VUndefined | VNull => false
  | VBool b => b
  | VNum z => negb (Z.eqb z 0)
  | VStr s => negb (String.eqb s "")
  | VObj _ => true
  end.

(** [a === b] *)
Definition strict_eq (a b : value) : bool := bool_decide (a = b).

(** A data property: its value and whether [for-in] and [Object.keys] see
    it. *)
Record prop := Prop_ { pvalue : value; enumerable : bool }.

(** An ordinary, extensible object: its own data properties and its
    [[Prototype]].  Accessors, proxies and frozen objects are not
    modelled. *)
Record object := Object { own : gmap string prop; proto : option loc }.

Abbreviation store := (gmap loc object).

(** [[HasProperty]]: the own properties, then the prototype chain. *)
Fixpoint has_property_fuel (fuel : nat) (st : store) (l : loc) (k : string) : bool :=
  match fuel with
  | O => false
  | S fuel' =>
      match st !! l with
      | None => false
      | Some o =>
          match own o !! k with
          | Some _ => true
          | None =>
              match proto o with
              | None => false
              | Some p => has_property_fuel fuel' st p k
              end
          end
      end
  end.

(** A prototype chain never visits an object twice, so it is no longer
    than the store. *)
Definition has_property (st : store) (l : loc) (k : string) : bool :=
  has_property_fuel (S (size st)) st l k.

(** [[Get]] on data properties: [undefined] when no object of the chain
    has the key. *)
Fixpoint get_fuel (fuel : nat) (st : store) (l : loc) (k : string) : value :=
  match fuel with
  | O => VUndefined
  | S fuel' =>
      match st !! l with
      | None => VUndefined
      | Some o =>
          match own o !! k with
          | Some p => pvalue p
          | None =>
              match proto o with
              | None => VUndefined
              | Some p => get_fuel fuel' st p k
              end
          end
      end
  end.

Definition get (st : store) (l : loc) (k : string) : value :=
  get_fuel (S (size st)) st l k.

(** Whether [target] is on the prototype chain of [l] (what [instanceof]
    walks). *)
Fixpoint on_chain_fuel (fuel : nat) (st : store) (l : loc) (target : loc) : bool :=
  match fuel with
  | O => false
  | S fuel' =>
      match st !! l with
      | None => false
      | Some o =>
          match proto o with
          | None => false
          | Some p => bool_decide (p = target) || on_chain_fuel fuel' st p target
          end
      end
  end.

Definition on_chain (st : store) (l target : loc) : bool :=
  on_chain_fuel (S (size st)) st l target.

(** [obj[key] = v] where [key] is on no object of the chain: the
    assignment creates an own, enumerable data property on [obj]. *)
Definition add_own (k : string) (v : value) (o : object) : object :=
  {| own := <[k := {| pvalue := v; enumerable := true |}]> (own o);
     proto := proto o |}.

Definition create_property (st : store) (l : loc) (k : string) (v : value) : store :=
  alter (add_own k v) l st.

(** [obj[key] = v] where [obj] has the key as an own data property, or has
    it nowhere: the own property holds [v] afterwards. *)
Definition write_own (k : string) (v : value) (o : object) : object :=
  {| own := <[k := {| pvalue := v;
                      enumerable := match own o !! k with
                                    | Some p => enumerable p
                                    | None => true
                                    end |}]> (own o);
     proto := proto o |}.

Definition set_property (st : store) (l : loc) (k : string) (v : value) : store :=
  alter (write_own k v) l st.

(** [proto_chain st l path]: the objects visited from [l] along the
    prototype links, [l] first. *)
Inductive proto_chain (st : store) : loc → list loc → Prop :=
  | chain_dangling l : st !! l = None → proto_chain st l []
  | chain_end l o : st !! l = Some o → proto o = None → proto_chain st l [l]
  | chain_link l o p path :
      st !! l = Some o → proto o = Some p → proto_chain st p path →
      proto_chain st l (l :: path).

(** The built-in objects the library refers to. *)
Record realm := Realm {
  ObjectPrototype : loc;   (* the prototype of [{}] *)
  StringCtor : loc;        (* the function [String] *)
  StringPrototype : loc;   (* [String.prototype] *)
  window : loc             (* the global object *)
}.

(** [{}] *)
Definition new_object (R : realm) (st : store) : store * loc :=
  let l := fresh (dom st) in
  (<[l := {| own := ∅; proto := Some (ObjectPrototype R) |}]> st, l).

(** [Object.keys(o)]: the own enumerable keys. *)
Definition Object_keys (o : object) : list string :=
  (map_to_list (filter (λ kp : string * prop, enumerable kp.2 = true) (own o))).*1.

(** ** omega.js, lines 399-408 *)

Definition _isNullOrUndefined (obj : value) : bool :=
  strict_eq VNull obj || strict_eq VUndefined obj.

(** [obj.constructor === String]: a string primitive finds [constructor]
    on [String.prototype]; booleans and numbers find the one of their own
    wrappers; an object looks it up along its chain. *)
Definition constructor_is_String (R : realm) (st : store) (obj : value) : bool :=
  match obj with
  | VObj l => strict_eq (get st l "constructor") (VObj (StringCtor R))
  | VStr _ => true
  | _ => false
  end.

(** [obj instanceof String]: false for every primitive. *)
Definition instanceof_String (R : realm) (st : store) (obj : value) : bool :=
  match obj with
  | VObj l => on_chain st l (StringPrototype R)
  | _ => false
  end.

Definition _isString (R : realm) (st : store) (obj : value) : bool :=
  if _isNullOrUndefined obj then false
  else constructor_is_String R st obj || instanceof_String R st obj.

(** ** omega.js, lines 343-354: [_addDefaults] *)

(** The callback of [forEach]: [if(!(key in obj)) obj[key] = defaults[key]].
    [in] throws on a primitive right operand. *)
Definition addDefaults_step (defaults : loc) (obj : value)
    (st : store) (key : string) : result store :=
  match obj with
  | VObj l =>
      if negb (has_property st l key)
      then Ok (create_property st l key (get st defaults key))
      else Ok st
  | _ => Throw TypeError
  end.

Fixpoint addDefaults_loop (defaults : loc) (obj : value)
    (keys : list string) (st : store) : result store :=
  match keys with
  | [] => Ok st
  | key :: keys' =>
      match addDefaults_step defaults obj st key with
      | Ok st' => addDefaults_loop defaults obj keys' st'
      | Throw e => Throw e
      end
  end.

(** [defaults] is a reference to an object ([@param {Object} defaults]);
    [Object.keys] is taken once, before the loop. *)
Definition _addDefaults (R : realm) (st : store) (obj : value) (defaults : loc)
    : result (store * value) :=
  let '(st1, obj1) :=
    if truthy obj then (st, obj)
    else let '(st', l) := new_object R st in (st', VObj l) in
  match st1 !! defaults with
  | None => Throw TypeError
  | Some d =>
      match addDefaults_loop defaults obj1 (Object_keys d) st1 with
      | Ok st2 => Ok (st2, obj1)
      | Throw e => Throw e
      end
  end.

(** ** omega.js, lines 22 and 423-469: the global binding *)

(** The name of the global binding. *)
Definition Ω_name : string := "Ω".

(** What the closure keeps of the load. *)
Record closure := Closure { _oldΩ : value }.

(** [Object.defineProperty(window.Ω, key, {enumerable: true, value: v})] *)
Definition define_property (st : store) (l : loc) (k : string) (v : value) : store :=
  alter (add_own k v) l st.

(** The script's run, as far as the global binding goes: [_oldΩ] is read
    first (line 22); [window.Ω = {}] and the copy of the members follow
    (lines 461-469).  [members] is the private literal [Ω] of line 430, key
    by key.  The result holds the closure, the store and the instance. *)
Definition load (R : realm) (st : store) (members : list (string * value))
    : closure * store * loc :=
  let old := get st (window R) Ω_name in
  let '(st1, inst) := new_object R st in
  let st2 := set_property st1 (window R) Ω_name (VObj inst) in
  let st3 := foldl (λ s kv, define_property s inst kv.1 kv.2) st2 members in
  ({| _oldΩ := old |}, st3, inst).

Definition _noConflict (R : realm) (env : closure) (st : store) : store * value :=
  let omega := get st (window R) Ω_name in
  let st' := set_property st (window R) Ω_name (_oldΩ env) in
  (st', omega).

End Js.

(** * The request helper *)

Module Xhr.
Import Js.

(** The calls made on an [XMLHttpRequest] object. *)
Inductive call :=
  | Open (method url : value) (async : bool)
  | SetRequestHeader (name val : string)
  | Send (body : option value).   (* [None]: [send()] *)

(** A request object: its two handler slots and the calls made so far.  A
    handler slot holds the callback its closure passes the request to. *)
Record request := Request {
  onload_slot : option value;
  onerror_slot : option value;
  calls : list call
}.

Definition invoke (c : call) (r : request) : request :=
  {| onload_slot := onload_slot r; onerror_slot := onerror_slot r;
     calls := calls r ++ [c] |}.

Section xhr.

(** [JSON.stringify], of the platform. *)
Variable JSON_stringify : store → value → value.

(** The request objects live in a list, in creation order; the handle of a
    request is its index. *)
Definition _xhr (R : realm) (st : store) (reqs : list request)
    (method url reqBodyObject onload onerror : value) : list request * nat :=
  let req := {| onload_slot := None; onerror_slot := None; calls := [] |} in
  let req := {| onload_slot := Some onload; onerror_slot := onerror_slot req;
                calls := calls req |} in
  let req :=
    if truthy onerror
    then {| onload_slot := onload_slot req; onerror_slot := Some onerror;
            calls := calls req |}
    else req in
  let req := invoke (Open method url true) req in
  let req :=
    if truthy reqBodyObject then
      let req := invoke (SetRequestHeader "Content-Type" "application/json") req in
      if _isString R st reqBodyObject
      then invoke (Send (Some reqBodyObject)) req
      else invoke (Send (Some (JSON_stringify st reqBodyObject))) req
    else invoke (Send None) req in
  (reqs ++ [req], length reqs).

(** The request the call returns a handle to. *)
Definition returned_request (R : realm) (st : store) (reqs : list request)
    (method url body onload onerror : value) : option request :=
  let '(reqs', h) := _xhr R st reqs method url body onload onerror in
  reqs' !! h.

End xhr.

Definition json_header : call := SetRequestHeader "Content-Type" "application/json".

End Xhr.

(** * The readiness signal (omega.js, lines 31-62) *)

Module Ready.

(** A callback, as far as the library can tell it from another: it may call
    [Ω.onDomReady] again, and it may throw.  [name] tells two callbacks with
    the same body apart. *)
Inductive callback :=
  | Callback (name : nat) (body : list stmt)
with stmt :=
  | CallOnDomReady (cb : callback)
  | Raise.

Definition body_of (cb : callback) : list stmt :=
  match cb with Callback _ body => body end.

(** What an observer sees: a callback handed to [onDomReady], a callback
    called. *)
Inductive event :=
  | Registered (cb : callback)
  | Invoked (cb : callback).

Inductive outcome := Normal | Thrown.

Inductive readyState := loading | interactive | complete.

#[global] Instance readyState_eq_dec : EqDecision readyState.
Proof. solve_decision. Defined.

(** The closure's two variables, and the platform's share: whether
    [_onDomReadyHandler] listens to [DOMContentLoaded], the timers set by
    [setTimeout(callback, 0)] in the order they fire, and the trace. *)
Record state := State {
  _domIsReady : bool;
  _domReadyCallbacks : option (list callback);   (* [None]: [undefined] *)
  listening : bool;
  timers : list callback;
  trace : list event
}.

Definition log (e : event) (s : state) : state :=
  {| _domIsReady := _domIsReady s; _domReadyCallbacks := _domReadyCallbacks s;
     listening := listening s; timers := timers s; trace := trace s ++ [e] |}.

Definition setTimeout (cb : callback) (s : state) : state :=
  {| _domIsReady := _domIsReady s; _domReadyCallbacks := _domReadyCallbacks s;
     listening := listening s; timers := timers s ++ [cb]; trace := trace s |}.

(** Lines 31-33 and 43-45: the state the script leaves when it has run. *)
Definition init (rs : readyState) : state :=
  let ready := bool_decide (interactive = rs) || bool_decide (complete = rs) in
  {| _domIsReady := ready;
     _domReadyCallbacks := Some [];
     listening := negb ready;
     timers := [];
     trace := [] |}.

(** Lines 55-62.  [push] on [undefined] is a [TypeError]. *)
Definition _onDomReady (callback : callback) (s : state) : state * outcome :=
  let s := log (Registered callback) s in
  if negb (_domIsReady s) then
    match _domReadyCallbacks s with
    | Some q =>
        ({| _domIsReady := _domIsReady s;
            _domReadyCallbacks := Some (q ++ [callback]);
            listening := listening s; timers := timers s; trace := trace s |},
         Normal)
    | None => (s, Thrown)
    end
  else (setTimeout callback s, Normal).

(** Running the body of a callback: statement after statement, up to the
    first one that throws. *)
Fixpoint run_body (body : list stmt) (s : state) : state * outcome :=
  match body with
  | [] => (s, Normal)
  | CallOnDomReady cb :: rest =>
      match _onDomReady cb s with
      | (s', Normal) => run_body rest s'
      | (s', Thrown) => (s', Thrown)
      end
  | Raise :: _ => (s, Thrown)
  end.

(** [callback()] *)
Definition invoke (cb : callback) (s : state) : state * outcome :=
  run_body (body_of cb) (log (Invoked cb) s).

(** Lines 38-40: [for (var c = 0; c < _domReadyCallbacks.length; ++c)].
    The queue is read again at every turn. *)
Fixpoint for_loop (fuel : nat) (c : nat) (s : state) : option (state * outcome) :=
  match fuel with
  | O => None
  | S fuel' =>
      match _domReadyCallbacks s with
      | None => Some (s, Thrown)
      | Some q =>
          if c <? length q then
            match q !! c with
            | Some cb =>
                match invoke cb s with
                | (s', Normal) => for_loop fuel' (S c) s'
                | (s', Thrown) => Some (s', Thrown)
                end
            | None => Some (s, Thrown)
            end
          else Some (s, Normal)
      end
  end.

(** Lines 36-37: the flag is set and the listener removed. *)
Definition enter_ready (s : state) : state :=
  {| _domIsReady := true; _domReadyCallbacks := _domReadyCallbacks s;
     listening := false; timers := timers s; trace := trace s |}.

(** Line 41: [_domReadyCallbacks = undefined]. *)
Definition drop_queue (s : state) : state :=
  {| _domIsReady := _domIsReady s; _domReadyCallbacks := None;
     listening := listening s; timers := timers s; trace := trace s |}.

(** Lines 35-42.  The loop gets one turn per queued callback and one more
    to leave; an exception leaves the handler at once. *)
Definition _onDomReadyHandler (s : state) : option (state * outcome) :=
  let s := enter_ready s in
  match for_loop (S (length (default [] (_domReadyCallbacks s)))) 0 s with
  | Some (s', Normal) => Some (drop_queue s', Normal)
  | r => r
  end.

(** The tasks of the event loop that reach the library: a script calls
    [Ω.onDomReady(cb)]; the document dispatches [DOMContentLoaded]; the
    next timer fires.  An exception that leaves a task is reported by the
    platform, and the loop goes on. *)
Inductive task :=
  | Script (cb : callback)
  | DOMContentLoaded
  | Timer.

Definition step (t : task) (s : state) : option state :=
  match t with
  | Script cb => Some (_onDomReady cb s).1
  | DOMContentLoaded =>
      if listening s then fst <$> _onDomReadyHandler s else Some s
  | Timer =>
      match timers s with
      | [] => Some s
      | cb :: rest =>
          Some (invoke cb {| _domIsReady := _domIsReady s;
                             _domReadyCallbacks := _domReadyCallbacks s;
                             listening := listening s; timers := rest;
                             trace := trace s |}).1
      end
  end.

Fixpoint run (ts : list task) (s : state) : option state :=
  match ts with
  | [] => Some s
  | t :: ts' =>
      match step t s with
      | Some s' => run ts' s'
      | None => None
      end
  end.

(** The callbacks handed over and the callbacks called, in order. *)
Definition regs (s : state) : list callback :=
  omap (λ e, match e with Registered cb => Some cb | _ => None end) (trace s).

Definition calls (s : state) : list callback :=
  omap (λ e, match e with Invoked cb => Some cb | _ => None end) (trace s).

Definition returns_normally (cb : callback) : Prop := Raise ∉ body_of cb.

(** ** Notions for the statements *)

(** [s'] is [s] with the callbacks [new] handed over and set on timers,
    and nothing else. *)
Definition scheduled (s s' : state) (new : list callback) : Prop :=
  _domIsReady s' = _domIsReady s
  ∧ _domReadyCallbacks s' = _domReadyCallbacks s
  ∧ listening s' = listening s
  ∧ timers s' = timers s ++ new
  ∧ regs s' = regs s ++ new
  ∧ calls s' = calls s.


End Ready.

(** * The document *)

Module Dom.

Set Warnings "-register-all".

Inductive kind :=
  | KWindow
  | KDocument
  | KElement (tag : string)
  | KTemplate                 (* an [HTMLTemplateElement] *)
  | KText (data : string)
  | KComment (data : string)
  | KFragment.                (* a [DocumentFragment] *)

#[global] Instance kind_eq_dec : EqDecision kind.
Proof. solve_decision. Defined.

(** [k instanceof Element] *)
Definition is_element (k : kind) : bool :=
  match k with KElement _ | KTemplate => true | _ => false end.

(** [k instanceof DocumentFragment] *)
Definition is_fragment (k : kind) : bool :=
  match k with KFragment => true | _ => false end.

(** A node: its kind, its links, and for a template the fragment behind
    [.content].  A reference to a node is its index in the heap; nodes are
    never freed. *)
Record node := Node {
  nkind : kind;
  parentNode : option nat;
  childNodes : list nat;
  content : option nat
}.

Abbreviation heap := (list node).

Definition kind_of (h : heap) (n : nat) : option kind := nkind <$> h !! n.
Definition parent_of (h : heap) (n : nat) : option nat := h !! n ≫= parentNode.
Definition children_of (h : heap) (n : nat) : list nat :=
  default [] (childNodes <$> h !! n).
Definition content_of (h : heap) (n : nat) : option nat := h !! n ≫= content.
Definition firstChild (h : heap) (n : nat) : option nat := head (children_of h n).

Definition set_parent (p : option nat) (r : node) : node :=
  {| nkind := nkind r; parentNode := p; childNodes := childNodes r;
     content := content r |}.

Definition set_children (cs : list nat) (r : node) : node :=
  {| nkind := nkind r; parentNode := parentNode r; childNodes := cs;
     content := content r |}.

(** ** Subtrees as values *)

(** A subtree with the references taken out: the kind of the root, what
    the root holds behind [.content] if it holds anything, and the
    subtrees of the children. *)
Inductive tree := Tree (k : kind) (cont : option tree) (kids : list tree).

Definition root (t : tree) : kind := match t with Tree k _ _ => k end.

Fixpoint size (t : tree) : nat :=
  match t with
  | Tree _ cont kids =>
      S (match cont with Some c => size c | None => 0 end
         + foldr (λ t' acc, size t' + acc) 0 kids)
  end.

Definition content_size (cont : option tree) : nat :=
  match cont with Some c => size c | None => 0 end.

Definition forest_size (ts : list tree) : nat :=
  foldr (λ t' acc, size t' + acc) 0 ts.

Fixpoint depth (t : tree) : nat :=
  match t with
  | Tree _ cont kids =>
      S (match cont with Some c => depth c | None => 0 end
         `max` foldr (λ t' acc, depth t' `max` acc) 0 kids)
  end.

Definition content_depth (cont : option tree) : nat :=
  match cont with Some c => depth c | None => 0 end.

Definition forest_depth (ts : list tree) : nat :=
  foldr (λ t' acc, depth t' `max` acc) 0 ts.

(** The references of the roots of [ts] when the forest is laid out from
    [m] on, tree after tree. *)
Fixpoint child_ids (m : nat) (ts : list tree) : list nat :=
  match ts with
  | [] => []
  | t :: ts' => m :: child_ids (m + size t) ts'
  end.

(** The nodes of [t] laid out from [n] on: the root, with [par] as its
    parent; what it holds behind [.content], which has no parent; then its
    children, one subtree after the other. *)
Fixpoint flat (n : nat) (par : option nat) (t : tree) {struct t} : list node :=
  match t with
  | Tree k cont kids =>
      let m := S n + match cont with Some c => size c | None => 0 end in
      let fix forest (m : nat) (ts : list tree) {struct ts} :=
        match ts with
        | [] => []
        | t' :: ts' => flat m (Some n) t' ++ forest (m + size t') ts'
        end in
      {| nkind := k; parentNode := par;
         childNodes := child_ids m kids;
         content := match cont with Some _ => Some (S n) | None => None end |}
      :: match cont with Some c => flat (S n) None c | None => [] end
      ++ forest m kids
  end.

(** The nodes of the forest [ts] laid out from [m] on, as children of
    [par]. *)
Fixpoint flat_forest (m : nat) (par : option nat) (ts : list tree) : list node :=
  match ts with
  | [] => []
  | t :: ts' => flat m par t ++ flat_forest (m + size t) par ts'
  end.

(** Reading a subtree off the heap.  [None]: a dangling reference, or a
    subtree deeper than [fuel]. *)
Fixpoint shape (fuel : nat) (h : heap) (n : nat) : option tree :=
  match fuel with
  | O => None
  | S fuel' =>
      r ← h !! n;
      kids ← mapM (shape fuel' h) (childNodes r);
      match content r with
      | None => Some (Tree (nkind r) None kids)
      | Some c => ct ← shape fuel' h c; Some (Tree (nkind r) (Some ct) kids)
      end
  end.

(** ** The platform's operations *)

(** [document.createDocumentFragment()] *)
Definition createDocumentFragment (h : heap) : heap * nat :=
  (h ++ flat (length h) None (Tree KFragment None []), length h).

(** ASCII lowercase, as an HTML document applies it to the names of the
    elements it makes. *)
Definition lower (c : Ascii.ascii) : Ascii.ascii :=
  let n := Ascii.nat_of_ascii c in
  if (65 <=? n) && (n <=? 90) then Ascii.ascii_of_nat (n + 32) else c.

Fixpoint lowercase (s : string) : string :=
  match s with
  | EmptyString => EmptyString
  | String c s' => String (lower c) (lowercase s')
  end.

(** [document.createElement(tagName)], in an HTML document: the name is
    taken in lowercase. *)
Definition createElement (tagName : string) (h : heap) : heap * nat :=
  let name := lowercase tagName in
  let t := if String.eqb name "template"
           then Tree KTemplate (Some (Tree KFragment None [])) []
           else Tree (KElement name) None [] in
  (h ++ flat (length h) None t, length h).

(** [node.cloneNode(true)]: a copy of the subtree, with no parent. *)
Definition cloneNode (fuel : nat) (h : heap) (n : nat) : option (heap * nat) :=
  t ← shape fuel h n;
  Some (h ++ flat (length h) None t, length h).

(** Taking [c] out of the children of its parent, if it has one. *)
Definition detach (h : heap) (c : nat) : heap :=
  match parent_of h c with
  | Some q =>
      alter (λ r, set_children (filter (λ x, x ≠ c) (childNodes r)) r) q
            (alter (set_parent None) c h)
  | None => h
  end.

(** Making [c] the last child of [p]. *)
Definition insert_last (h : heap) (p c : nat) : heap :=
  alter (λ r, set_children (childNodes r ++ [c]) r) p
        (alter (set_parent (Some p)) c h).

Definition move (p : nat) (h : heap) (c : nat) : heap :=
  insert_last (detach h c) p c.

(** What may be a parent and what may be inserted. *)
Definition may_have_children (k : kind) : bool :=
  match k with
  | KDocument | KElement _ | KTemplate | KFragment => true
  | _ => false
  end.

Definition may_be_child (k : kind) : bool :=
  match k with
  | KElement _ | KTemplate | KText _ | KComment _ | KFragment => true
  | _ => false
  end.

(** [p.appendChild(c)]: a fragment hands over its children, in order, and
    stays empty; any other node is taken from where it is and becomes the
    last child of [p].  The checks of the pre-insertion steps that depend
    on the ancestors of [p] are left out: the library appends to fragments
    it has just made. *)
Definition appendChild (h : heap) (p c : nat) : result heap :=
  match kind_of h p, kind_of h c with
  | Some kp, Some kc =>
      if may_have_children kp && may_be_child kc then
        if is_fragment kc
        then Ok (foldl (move p) h (children_of h c))
        else Ok (move p h c)
      else Throw HierarchyRequestError
  | _, _ => Throw HierarchyRequestError
  end.

(** What the HTML parser yields for a string set as [innerHTML]. *)
Inductive markup :=
  | MElement (tag : string) (kids : list markup)
  | MTemplate (kids : list markup)
  | MText (data : string)
  | MComment (data : string).

Fixpoint tree_of (m : markup) : tree :=
  match m with
  | MElement tag kids => Tree (KElement tag) None (map tree_of kids)
  | MTemplate kids =>
      Tree KTemplate (Some (Tree KFragment None (map tree_of kids))) []
  | MText data => Tree (KText data) None []
  | MComment data => Tree (KComment data) None []
  end.

(** [el.innerHTML = ...] with the parsed nodes [ms]: the children [el] had
    lose their parent, the new nodes take their place. *)
Definition set_innerHTML (h : heap) (el : nat) (ms : list markup) : heap :=
  let ts := tree_of <$> ms in
  let h1 := foldl (λ h' c, alter (set_parent None) c h') h (children_of h el) in
  let h2 := alter (set_children (child_ids (length h) ts)) el h1 in
  h2 ++ flat_forest (length h) (Some el) ts.

(** ** omega.js: the cached nodes (lines 24-28) *)

Record env := Env {
  _win : nat;
  _doc : nat;
  _html : nat;
  _head : option nat;
  _body : option nat   (* [null] when the script runs before [<body>] is parsed *)
}.

(** An argument given, or left [undefined] or [null]. *)
Inductive arg (A : Type) :=
  | Undefined
  | Null
  | Val (a : A).
Arguments Undefined {A}.
Arguments Null {A}.
Arguments Val {A} a.

(** [!!node] for a node argument and [!!s] for a string argument. *)
Definition node_truthy (a : arg nat) : bool :=
  match a with Val _ => true | _ => false end.

Definition string_truthy (a : arg string) : bool :=
  match a with Val s => negb (String.eqb s "") | _ => false end.

Section with_platform.

(** [el.matches(selector)] for a valid selector, and the parser behind
    [innerHTML]. *)
Variable matches : heap → nat → string → bool.
Variable parseHTML : string → list markup.

(** ** omega.js, lines 115-130: [_parent] *)

(** Lines 123-129, with [p] as it stands at the head of the loop.  Calling
    [matches] on what is no element is a [TypeError]. *)
Fixpoint climb (fuel : nat) (E : env) (h : heap) (selector : string)
    (p : option nat) : option (result (option nat)) :=
  match fuel with
  | O => None
  | S fuel' =>
      match p with
      | None => Some (Ok None)
      | Some n =>
          if bool_decide (Some n = _body E) then Some (Ok None)
          else if default false (is_element <$> kind_of h n) then
            if matches h n selector then Some (Ok (Some n))
            else climb fuel' E h selector (parent_of h n)
          else Some (Throw TypeError)
      end
  end.

(** The four nodes line 119 refuses. *)
Definition disallowed (E : env) (n : nat) : bool :=
  bool_decide (n = _win E) || bool_decide (n = _doc E)
  || bool_decide (n = _html E) || bool_decide (Some n = _body E).

Definition _parent (fuel : nat) (E : env) (h : heap)
    (node : arg nat) (selector : arg string) (includeSelf : bool)
    : option (result (option nat)) :=
  if negb (node_truthy node) || negb (string_truthy selector)
  then Some (Throw (Error "node and selector must be given"))
  else
    match node, selector with
    | Val n, Val sel =>
        if disallowed E n
        then Some (Throw (Error "invalid choice of node"))
        else climb fuel E h sel (if includeSelf then Some n else parent_of h n)
    | _, _ => Some (Throw TypeError)   (* not reached: both are given *)
    end.

(** ** omega.js, lines 197-243: [_frag] and [_parseOne] *)

Inductive content_arg :=
  | CUndefined
  | CNull
  | CStr (s : string)
  | CNode (n : nat).

Definition content_truthy (c : content_arg) : bool :=
  match c with
  | CUndefined | CNull => false
  | CStr s => negb (String.eqb s "")
  | CNode _ => true
  end.

(** Lines 206-208: [while((el = tmp.firstChild)) frag.appendChild(el)]. *)
Fixpoint move_children (fuel : nat) (h : heap) (tmp frag : nat)
    : option (result heap) :=
  match fuel with
  | O => None
  | S fuel' =>
      match firstChild h tmp with
      | None => Some (Ok h)
      | Some el =>
          match appendChild h frag el with
          | Ok h' => move_children fuel' h' tmp frag
          | Throw e => Some (Throw e)
          end
      end
  end.

Definition _makeEl (tagName : string) (h : heap) : heap * nat :=
  createElement tagName h.

(** The heap after the call, and the fragment.  [None]: out of fuel.
    [_isString(content)] holds of the strings and of nothing else that the
    function is given; the two [instanceof] tests look at the kind of the
    node. *)
Definition _frag (fuel : nat) (h : heap) (content_ : content_arg) (cloneEls : bool)
    : option (result (heap * nat)) :=
  let '(h, frag) := createDocumentFragment h in
  if negb (content_truthy content_) then Some (Ok (h, frag))
  else
    match content_ with
    | CStr s =>
        let '(h, tmp) := _makeEl "div" h in
        let h := set_innerHTML h tmp (parseHTML s) in
        match move_children fuel h tmp frag with
        | Some (Ok h') => Some (Ok (h', frag))
        | Some (Throw e) => Some (Throw e)
        | None => None
        end
    | CNode n =>
        if bool_decide (kind_of h n = Some KTemplate) then
          match content_of h n with
          | Some c =>
              match cloneNode fuel h c with
              | Some (h', copy) =>
                  match appendChild h' frag copy with
                  | Ok h'' => Some (Ok (h'', frag))
                  | Throw e => Some (Throw e)
                  end
              | None => None
              end
          | None => Some (Throw TypeError)
          end
        else if default false (is_element <$> kind_of h n) then
          if cloneEls then
            match cloneNode fuel h n with
            | Some (h', copy) =>
                match appendChild h' frag copy with
                | Ok h'' => Some (Ok (h'', frag))
                | Throw e => Some (Throw e)
                end
            | None => None
            end
          else
            match appendChild h frag n with
            | Ok h' => Some (Ok (h', frag))
            | Throw e => Some (Throw e)
            end
        else Some (Ok (h, frag))
    | _ => Some (Ok (h, frag))
    end.

Definition _parseOne (fuel : nat) (h : heap) (content_ : content_arg)
    (cloneEls : bool) : option (result (heap * nat)) :=
  match _frag fuel h content_ cloneEls with
  | Some (Ok (h', frag)) =>
      if length (children_of h' frag) =? 1
      then match firstChild h' frag with
           | Some el => Some (Ok (h', el))
           | None => Some (Ok (h', frag))   (* not reached: there is a child *)
           end
      else Some (Ok (h', frag))
  | r => r
  end.

End with_platform.

(** ** Notions for the statements *)

(** The fragment [createDocumentFragment] makes. *)
Definition empty_fragment : node :=
  {| nkind := KFragment; parentNode := None; childNodes := []; content := None |}.

(** The [div] that [_frag] parses into. *)
Definition div_element : node :=
  {| nkind := KElement "div"; parentNode := None; childNodes := []; content := None |}.

(** What [_parseOne] makes of the fragment: its only child, or the
    fragment itself. *)
Definition only_child_or_self (h : heap) (frag : nat) : nat :=
  match children_of h frag with
  | [el] => el
  | _ => frag
  end.

(** Where an upward walk ends. *)
Inductive boundary := AtBody | NoParent.

(** [upward E h p path bd]: from [p], through parent links, the walk visits
    [path] (the nearest node first) and then ends, at the cached body or
    for want of a parent. *)
Inductive upward (E : env) (h : heap) : option nat → list nat → boundary → Prop :=
  | upward_top : upward E h None [] NoParent
  | upward_body b : _body E = Some b → upward E h (Some b) [] AtBody
  | upward_step n path bd :
      Some n ≠ _body E →
      upward E h (parent_of h n) path bd →
      upward E h (Some n) (n :: path) bd.

(** The nearest node of [path] that satisfies [f]. *)
Fixpoint nearest (f : nat → bool) (path : list nat) : option nat :=
  match path with
  | [] => None
  | n :: path' => if f n then Some n else nearest f path'
  end.

Definition all_elements (h : heap) (path : list nat) : Prop :=
  Forall (λ n, is_element <$> kind_of h n = Some true) path.

(** What [shape] reads of a node. *)
Definition skel (r : node) : kind * list nat * option nat :=
  (nkind r, childNodes r, content r).

(** The nodes that follow the root in the layout of [Tree k cont kids]. *)
Definition layout (n : nat) (cont : option tree) (kids : list tree) : list node :=
  match cont with Some c => flat (S n) None c | None => [] end
  ++ flat_forest (S n + content_size cont) (Some n) kids.

(** [laid h n t]: the nodes of [t] stand in the heap from [n] on, up to
    their parent links. *)
Definition laid (h : heap) (n : nat) (t : tree) : Prop :=
  ∀ j r, flat n None t !! j = Some r → skel <$> h !! (n + j) = Some (skel r).

Definition laid_forest (h : heap) (m : nat) (ts : list tree) : Prop :=
  ∀ j r, flat_forest m None ts !! j = Some r → skel <$> h !! (m + j) = Some (skel r).

(** What [move p h c] does to the cell [i], in the order the steps are
    taken: [c] leaves its parent [q], then becomes the last child of [p]. *)
Definition moved (p c : nat) (q : option nat) (i : nat) (r : node) : node :=
  let r1 := match q with
            | Some q' =>
                let r0 := if decide (c = i) then set_parent None r else r in
                if decide (q' = i)
                then set_children (filter (λ x, x ≠ c) (childNodes r0)) r0
                else r0
            | None => r
            end in
  let r2 := if decide (c = i) then set_parent (Some p) r1 else r1 in
  if decide (p = i) then set_children (childNodes r2 ++ [c]) r2 else r2.

(** The state of a run of moves from [q] to [p]: the children still under
    [q], in order, each one pointing to [q]. *)
Record moving (p q : nat) (h : heap) (xs : list nat) : Prop := Moving {
  moving_target : is_Some (h !! p);
  moving_source : children_of h q = xs;
  moving_parent : ∀ x, x ∈ xs → parent_of h x = Some q;
  moving_nodup : NoDup xs;
  moving_apart : p ≠ q;
  moving_not_target : p ∉ xs;
  moving_not_source : q ∉ xs
}.

End Dom.

(** * Editing the tree (omega.js, lines 265-327) *)

Module Edit.
Import Dom.

(** ** The platform's share *)

(** What a call can throw: an error of the language, or the [DOMException]
    for a child that is not where it is said to be. *)
Inductive exn :=
  | Raised (e : error)
  | NotFoundError.

Inductive reply (A : Type) :=
  | Done (a : A)
  | Fail (e : exn).
Arguments Done {A} a.
Arguments Fail {A} e.

(** The window is no [Node]: it has none of the methods of one. *)
Definition is_node (k : kind) : bool :=
  match k with KWindow => false | _ => true end.

Definition is_text (k : kind) : bool :=
  match k with KText _ => true | _ => false end.

Definition lastChild (h : heap) (n : nat) : option nat := last (children_of h n).

(** The entry that follows [n] in a list of children. *)
Fixpoint next_in (n : nat) (cs : list nat) : option nat :=
  match cs with
  | [] => None
  | c :: cs' => if decide (c = n) then head cs' else next_in n cs'
  end.

Definition nextSibling (h : heap) (n : nat) : option nat :=
  p ← parent_of h n; next_in n (children_of h p).

(** The host of the content of a template: the template. *)
Definition host_of (h : heap) (f : nat) : option nat :=
  fst <$> list_find (λ r, content r = Some f) h.

(** Whether [a] is [n] or above [n], through parents and, from the content
    of a template, through its host.  [None]: out of fuel. *)
Fixpoint is_ancestor (fuel : nat) (h : heap) (a n : nat) : option bool :=
  match fuel with
  | O => None
  | S fuel' =>
      if decide (a = n) then Some true
      else match parent_of h n with
           | Some p => is_ancestor fuel' h a p
           | None =>
               match host_of h n with
               | Some t => is_ancestor fuel' h a t
               | None => Some false
               end
           end
  end.

Definition element_children (h : heap) (n : nat) : list nat :=
  filter (λ c, default false (is_element <$> kind_of h c) = true) (children_of h n).

Definition text_children (h : heap) (n : nat) : list nat :=
  filter (λ c, default false (is_text <$> kind_of h c) = true) (children_of h n).

(** What a document takes as a child: no text, and one element at most.
    (The model has no doctype nodes.) *)
Definition document_takes (h : heap) (parent node : nat) (kn : kind) : bool :=
  match kn with
  | KText _ => false
  | KElement _ | KTemplate => bool_decide (element_children h parent = [])
  | KFragment =>
      bool_decide (text_children h node = [])
      && match element_children h node with
         | [] => true
         | [_] => bool_decide (element_children h parent = [])
         | _ => false
         end
  | _ => true
  end.

(** [c] put into the list [cs] before [ref]. *)
Fixpoint insert_before_in (c ref : nat) (cs : list nat) : list nat :=
  match cs with
  | [] => [c]
  | x :: cs' =>
      if decide (x = ref) then c :: x :: cs' else x :: insert_before_in c ref cs'
  end.

Definition place (c : nat) (ref : option nat) (cs : list nat) : list nat :=
  match ref with
  | None => cs ++ [c]
  | Some r => insert_before_in c r cs
  end.

(** [c] taken from where it is and made a child of [p], before [ref] or as
    the last one. *)
Definition put (p : nat) (ref : option nat) (h : heap) (c : nat) : heap :=
  alter (λ r, set_children (place c ref (childNodes r)) r) p
        (alter (set_parent (Some p)) c (detach h c)).

(** [parent.insertBefore(node, child)], with [child] possibly [null]: the
    checks in the order of the standard, then the insertion; a fragment
    hands over its children, in order.  The call returns [node]. *)
Definition insertBefore (fuel : nat) (h : heap) (parent node : nat)
    (child : option nat) : option (reply (heap * nat)) :=
  match kind_of h parent, kind_of h node with
  | Some kp, Some kn =>
      if negb (is_node kp) || negb (is_node kn)
      then Some (Fail (Raised TypeError))
      else if negb (may_have_children kp)
      then Some (Fail (Raised HierarchyRequestError))
      else
        match is_ancestor fuel h node parent with
        | None => None
        | Some true => Some (Fail (Raised HierarchyRequestError))
        | Some false =>
            if match child with
               | Some c => negb (bool_decide (parent_of h c = Some parent))
               | None => false
               end
            then Some (Fail NotFoundError)
            else if negb (may_be_child kn)
            then Some (Fail (Raised HierarchyRequestError))
            else if bool_decide (kp = KDocument) && negb (document_takes h parent node kn)
            then Some (Fail (Raised HierarchyRequestError))
            else
              let ref := if decide (child = Some node)
                         then nextSibling h node else child in
              Some (Done (if is_fragment kn
                          then foldl (put parent ref) h (children_of h node)
                          else put parent ref h node,
                          node))
        end
  | _, _ => Some (Fail (Raised TypeError))
  end.

(** [parent.appendChild(node)]: the insertion before [null]. *)
Definition appendChild (fuel : nat) (h : heap) (parent node : nat)
    : option (reply (heap * nat)) :=
  insertBefore fuel h parent node None.

(** [parent.removeChild(child)]; the call returns [child]. *)
Definition removeChild (h : heap) (parent child : nat) : reply (heap * nat) :=
  match kind_of h parent, kind_of h child with
  | Some kp, Some kc =>
      if negb (is_node kp) || negb (is_node kc) then Fail (Raised TypeError)
      else if bool_decide (parent_of h child = Some parent)
      then Done (detach h child, child)
      else Fail NotFoundError
  | _, _ => Fail (Raised TypeError)
  end.

(** ** omega.js, lines 265-327: the six helpers *)

(** The arguments are references to nodes ([@param {Element}],
    [@param {Node}]).  A property read on [null] is a [TypeError]. *)

(** Lines 265-267: [parent.insertBefore(newChild, parent.firstChild)]. *)
Definition _prependChild (fuel : nat) (h : heap) (parent newChild : nat)
    : option (reply (heap * nat)) :=
  insertBefore fuel h parent newChild (firstChild h parent).

(** Lines 277-279: [parent.appendChild(newChild)]. *)
Definition _appendChild (fuel : nat) (h : heap) (parent newChild : nat)
    : option (reply (heap * nat)) :=
  appendChild fuel h parent newChild.

(** Lines 289-291: [anchor.parentNode.insertBefore(newSibling, anchor)]. *)
Definition _prependSibling (fuel : nat) (h : heap) (anchor newSibling : nat)
    : option (reply (heap * nat)) :=
  match parent_of h anchor with
  | Some p => insertBefore fuel h p newSibling (Some anchor)
  | None => Some (Fail (Raised TypeError))
  end.

(** Lines 301-303:
    [anchor.parentNode.insertBefore(newSibling, anchor.nextSibling)]. *)
Definition _appendSibling (fuel : nat) (h : heap) (anchor newSibling : nat)
    : option (reply (heap * nat)) :=
  match parent_of h anchor with
  | Some p => insertBefore fuel h p newSibling (nextSibling h anchor)
  | None => Some (Fail (Raised TypeError))
  end.

(** Lines 311-316: [while((i = toClear.lastChild)) toClear.removeChild(i)].
    [None]: out of fuel. *)
Fixpoint _clear (fuel : nat) (h : heap) (toClear : nat) : option (reply heap) :=
  match fuel with
  | O => None
  | S fuel' =>
      match lastChild h toClear with
      | None => Some (Done h)
      | Some i =>
          match removeChild h toClear i with
          | Done (h', _) => _clear fuel' h' toClear
          | Fail e => Some (Fail e)
          end
      end
  end.

(** Lines 325-327: [toRemove.parentNode.removeChild(toRemove)]. *)
Definition _remove (h : heap) (toRemove : nat) : reply (heap * nat) :=
  match parent_of h toRemove with
  | Some p => removeChild h p toRemove
  | None => Fail (Raised TypeError)
  end.

(** ** Notions for the statements *)

(** The links of the node [p] are in order: its children are distinct,
    each names [p] as its parent, and [p] is among the children of the
    parent it names; what has children may have them, and what has a parent
    may have one. *)
Definition linked (h : heap) (p : nat) : Prop :=
  NoDup (children_of h p)
  ∧ Forall (λ c, parent_of h c = Some p ∧ c ≠ p) (children_of h p)
  ∧ (children_of h p = [] ∨ may_have_children <$> kind_of h p = Some true)
  ∧ match parent_of h p with
    | Some q =>
        p ∈ children_of h q
        ∧ may_be_child <$> kind_of h p = Some true
        ∧ kind_of h p ≠ Some KFragment
    | None => True
    end.

#[global] Instance linked_dec h p : Decision (linked h p).
Proof. unfold linked. destruct (parent_of h p); apply _. Defined.

Definition consistent (h : heap) : Prop :=
  Forall (linked h) (seq 0 (length h)).

(** [lineage h n path]: the nodes from [n] up to the top, through parents
    and hosts, [n] first. *)
Inductive lineage (h : heap) : nat → list nat → Prop :=
  | lineage_top n :
      parent_of h n = None → host_of h n = None → lineage h n [n]
  | lineage_parent n p path :
      parent_of h n = Some p → lineage h p path → lineage h n (n :: path)
  | lineage_host n t path :
      parent_of h n = None → host_of h n = Some t → lineage h t path →
      lineage h n (n :: path).

(** [put_into h h' p c cs]: the tree [h'] is [h] with [c] taken from where
    it was and made a child of [p], whose children are then [cs]; no kind
    and no content changes, and no other link. *)
Definition put_into (h h' : heap) (p c : nat) (cs : list nat) : Prop :=
  length h' = length h
  ∧ (∀ i, kind_of h' i = kind_of h i ∧ content_of h' i = content_of h i)
  ∧ (∀ i, parent_of h' i = if decide (i = c) then Some p else parent_of h i)
  ∧ (∀ i, children_of h' i
          = if decide (i = p) then cs
            else filter (λ x, x ≠ c) (children_of h i)).

(** [insertable h p c path]: [p] is an element or a fragment, [c] is a
    node that may be a child and is no fragment, and [c] is neither [p] nor
    above it: [path] is the lineage of [p]. *)
Definition insertable (h : heap) (p c : nat) (path : list nat) : Prop :=
  (∃ kp, kind_of h p = Some kp ∧ is_element kp || is_fragment kp = true)
  ∧ (∃ kc, kind_of h c = Some kc ∧ may_be_child kc = true ∧ is_fragment kc = false)
  ∧ lineage h p path
  ∧ c ∉ path.

End Edit.

(** * Walks that leave the elements *)

Module Walk.
Import Dom.

(** [leaves E h p path d]: from [p], through parent links, the walk visits
    [path] (the nearest node first), none of them the cached body, and
    then comes to [d], which is no element and not the cached body: the
    document above [<html>], a fragment above the nodes it holds. *)
Inductive leaves (E : env) (h : heap) : option nat → list nat → nat → Prop :=
  | leaves_here d :
      Some d ≠ _body E →
      default false (is_element <$> kind_of h d) = false →
      leaves E h (Some d) [] d
  | leaves_step n path d :
      Some n ≠ _body E →
      leaves E h (parent_of h n) path d →
      leaves E h (Some n) (n :: path) d.

End Walk.

(** * Concrete states the statements are tried on *)

Module JsSample.
Import Js.

Definition sample_realm : realm :=
  {| ObjectPrototype := 0; StringPrototype := 1; StringCtor := 2; window := 5 |}.

Definition hidden (v : value) : prop := {| pvalue := v; enumerable := false |}.
Definition shown (v : value) : prop := {| pvalue := v; enumerable := true |}.

(** [{a: 1}] *)
Definition options : object :=
  {| own := {[ "a" := shown (VNum 1) ]}; proto := Some 0 |}.

(** [{a: 5, b: 2, toString: 9}] with a non-enumerable [secret]. *)
Definition defaults : object :=
  {| own := {[ "a" := shown (VNum 5); "b" := shown (VNum 2);
               "toString" := shown (VNum 9); "secret" := hidden (VNum 3) ]};
     proto := Some 0 |}.

Definition sample_store : store :=
  {[ 0 := {| own := {[ "constructor" := hidden (VObj 3);
                       "toString" := hidden (VObj 4) ]};
             proto := None |};
     1 := {| own := {[ "constructor" := hidden (VObj 2) ]}; proto := Some 0 |};
     2 := {| own := {[ "prototype" := hidden (VObj 1) ]}; proto := Some 0 |};
     3 := {| own := {[ "prototype" := hidden (VObj 0) ]}; proto := Some 0 |};
     4 := {| own := ∅; proto := Some 0 |};
     5 := {| own := {[ Ω_name := shown (VStr "another library") ]};
             proto := Some 0 |};
     6 := options;
     7 := defaults ]}.

(** Two of the members of the private literal. *)
Definition members : list (string * value) :=
  [("isString", VObj 4); ("noConflict", VObj 4)].

End JsSample.

Module XhrSample.
Import Js.

(** A stand-in for [JSON.stringify], right on the sample object. *)
Definition stringify (st : store) (v : value) : value :=
  match v with
  | VObj 6 => VStr "{a:1}"
  | _ => VStr "{}"
  end.

End XhrSample.

Module ReadySample.
Import Ready.

(** A callback that returns, one that throws, and one that hands the first
    to [onDomReady] again. *)
Definition greet : callback := Callback 1 [].
Definition again : callback := Callback 3 [CallOnDomReady greet].

End ReadySample.

Module DomSample.
Import Dom.

Definition el (tag : string) (p : option nat) (cs : list nat) : node :=
  {| nkind := KElement tag; parentNode := p; childNodes := cs; content := None |}.

(** [<html><head><title></title></head>
     <body><div><span>hi</span></div><template><p></p>over</template></body></html>] *)
Definition page : heap :=
  [ {| nkind := KWindow; parentNode := None; childNodes := []; content := None |};
    {| nkind := KDocument; parentNode := None; childNodes := [2]; content := None |};
    el "html" (Some 1) [3; 5];
    el "head" (Some 2) [4];
    el "title" (Some 3) [];
    el "body" (Some 2) [6; 9];
    el "div" (Some 5) [7];
    el "span" (Some 6) [8];
    {| nkind := KText "hi"; parentNode := Some 7; childNodes := []; content := None |};
    {| nkind := KTemplate; parentNode := Some 5; childNodes := []; content := Some 10 |};
    {| nkind := KFragment; parentNode := None; childNodes := [11; 12]; content := None |};
    el "p" (Some 10) [];
    {| nkind := KText "over"; parentNode := Some 10; childNodes := []; content := None |} ].

Definition page_env : env :=
  {| _win := 0; _doc := 1; _html := 2; _head := Some 3; _body := Some 5 |}.

(** Type selectors: [div] matches the [div] elements. *)
Definition matches_tag (h : heap) (n : nat) (selector : string) : bool :=
  bool_decide (kind_of h n = Some (KElement selector)).

(** A parser that knows two strings. *)
Definition parse_sample (s : string) : list markup :=
  if String.eqb s "<b>x</b>" then [MElement "b" [MText "x"]]
  else if String.eqb s "<i></i>tail<!--note-->"
       then [MElement "i" []; MText "tail"; MComment "note"]
       else [MText s].

End DomSample.

Module JsSample2.
Import Js JsSample.

(** The sample store with a global object that has no binding for the
    name. *)
Definition bare_store : store :=
  <[5 := {| own := ∅; proto := Some 0 |}]> sample_store.

(** [{constructor: String}] *)
Definition impostor : object :=
  {| own := {[ "constructor" := shown (VObj 2) ]}; proto := Some 0 |}.

Definition store_with_impostor : store := <[8 := impostor]> sample_store.

(** [{b: 7, c: 8}], a second set of defaults, at a reference of its own. *)
Definition fallback : object :=
  {| own := {[ "b" := shown (VNum 7); "c" := shown (VNum 8) ]}; proto := Some 0 |}.

Definition store_with_fallback : store := <[8 := fallback]> sample_store.

End JsSample2.

Module DomSample2.
Import Dom DomSample.

(** The page and, beside it, an [<em>] that is in no tree yet. *)
Definition page_with_spare : heap := page ++ [el "em" None []].

(** The cached nodes when the script runs in [<head>], before [<body>] is
    parsed: [document.body] is [null] then. *)
Definition early_env : env :=
  {| _win := 0; _doc := 1; _html := 2; _head := Some 3; _body := None |}.

End DomSample2.

(** * Properties of the object helpers *)

Section chain_props.
Import Js.

(** The walks along a prototype chain do not depend on the fuel once it
    covers the chain. *)
Lemma has_property_fuel_covers (st : store) l path k :
  proto_chain st l path →
  ∀ n m, length path ≤ n → length path ≤ m →
    has_property_fuel (S n) st l k = has_property_fuel (S m) st l k.
Proof.
  induction 1 as [l Hl|l o Hl Hp|l o p path Hl Hp _ IH]; intros n m Hn Hm; simpl.
  - by rewrite Hl.
  - by rewrite Hl, Hp.
  - rewrite Hl, Hp. destruct (own o !! k); [done|]. simpl in Hn, Hm.
    destruct n as [|n]; [lia|]. destruct m as [|m]; [lia|].
    apply IH; lia.
Qed.

Lemma get_fuel_covers (st : store) l path k :
  proto_chain st l path →
  ∀ n m, length path ≤ n → length path ≤ m →
    get_fuel (S n) st l k = get_fuel (S m) st l k.
Proof.
  induction 1 as [l Hl|l o Hl Hp|l o p path Hl Hp _ IH]; intros n m Hn Hm; simpl.
  - by rewrite Hl.
  - by rewrite Hl, Hp.
  - rewrite Hl, Hp. destruct (own o !! k); [done|]. simpl in Hn, Hm.
    destruct n as [|n]; [lia|]. destruct m as [|m]; [lia|].
    apply IH; lia.
Qed.

Lemma proto_chain_allocated (st : store) l path :
  proto_chain st l path → ∀ x, x ∈ path → x ∈ elements (dom st).
Proof.
  induction 1 as [l Hl|l o Hl Hp|l o p path Hl Hp _ IH]; intros x Hx.
  - by apply elem_of_nil in Hx.
  - apply list_elem_of_singleton in Hx as ->.
    apply elem_of_elements, elem_of_dom. eauto.
  - apply elem_of_cons in Hx as [->|Hx]; [|by apply IH].
    apply elem_of_elements, elem_of_dom. eauto.
Qed.

(** A chain that visits no object twice is no longer than the store: the
    fuel of [has_property] and of [get] covers it, and more fuel changes
    nothing. *)
Lemma acyclic_chain_covered (st : store) l path :
  proto_chain st l path → NoDup path → length path ≤ size st.
Proof.
  intros Hc Hnd. rewrite <- size_dom. unfold size, set_size. simpl.
  apply submseteq_length, NoDup_submseteq; [done|].
  by apply (proto_chain_allocated st l).
Qed.

(** On a store whose prototype chains are acyclic the fuel [has_property]
    and [get] walk with is enough: more fuel reads the same. *)
Lemma has_property_enough_fuel (st : store) l path k n :
  proto_chain st l path → NoDup path → size st ≤ n →
  has_property_fuel (S n) st l k = has_property st l k.
Proof.
  intros Hc Hnd Hn. pose proof (acyclic_chain_covered st l path Hc Hnd).
  apply (has_property_fuel_covers st l path k Hc); lia.
Qed.

Lemma get_enough_fuel (st : store) l path k n :
  proto_chain st l path → NoDup path → size st ≤ n →
  get_fuel (S n) st l k = get st l k.
Proof.
  intros Hc Hnd Hn. pose proof (acyclic_chain_covered st l path Hc Hnd).
  apply (get_fuel_covers st l path k Hc); lia.
Qed.

End chain_props.

Section addDefaults_props.
Import Js.

Lemma elem_of_Object_keys (o : object) (k : string) :
  k ∈ Object_keys o ↔ ∃ p, own o !! k = Some p ∧ enumerable p = true.
Proof.
  unfold Object_keys. rewrite list_elem_of_fmap. split.
  - intros [[k' p] [-> Hin]]. apply elem_of_map_to_list in Hin.
    apply map_lookup_filter_Some in Hin as [Hl He]. simpl in *. eauto.
  - intros (p & Hl & He). exists (k, p). split; [done|].
    apply elem_of_map_to_list, map_lookup_filter_Some. done.
Qed.

Lemma size_create_property (st : store) l k v :
  size (create_property st l k v) = size st.
Proof.
  unfold create_property. rewrite <- !size_dom. by rewrite dom_alter_L.
Qed.

Lemma lookup_create_property (st : store) l k v l0 :
  create_property st l k v !! l0 =
  if decide (l = l0) then add_own k v <$> st !! l else st !! l0.
Proof. unfold create_property. apply lookup_alter. Qed.

(** Creating the property [k] changes no lookup of another key, wherever
    the chain starts and however it runs. *)
Lemma has_property_fuel_create_ne n (st : store) l k v l0 k0 :
  k0 ≠ k →
  has_property_fuel n (create_property st l k v) l0 k0 = has_property_fuel n st l0 k0.
Proof.
  intros Hne. revert l0. induction n as [|n IH]; intros l0; simpl; [done|].
  rewrite lookup_create_property. destruct (decide (l = l0)) as [->|Hl].
  - destruct (st !! l0) as [o|]; simpl; [|done].
    rewrite lookup_insert_ne by done.
    destruct (own o !! k0); [done|]. destruct (proto o); [apply IH|done].
  - destruct (st !! l0) as [o|]; [|done].
    destruct (own o !! k0); [done|]. destruct (proto o); [apply IH|done].
Qed.

Lemma get_fuel_create_ne n (st : store) l k v l0 k0 :
  k0 ≠ k →
  get_fuel n (create_property st l k v) l0 k0 = get_fuel n st l0 k0.
Proof.
  intros Hne. revert l0. induction n as [|n IH]; intros l0; simpl; [done|].
  rewrite lookup_create_property. destruct (decide (l = l0)) as [->|Hl].
  - destruct (st !! l0) as [o|]; simpl; [|done].
    rewrite lookup_insert_ne by done.
    destruct (own o !! k0); [done|]. destruct (proto o); [apply IH|done].
  - destruct (st !! l0) as [o|]; [|done].
    destruct (own o !! k0); [done|]. destruct (proto o); [apply IH|done].
Qed.

Lemma has_property_create_ne (st : store) l k v l0 k0 :
  k0 ≠ k → has_property (create_property st l k v) l0 k0 = has_property st l0 k0.
Proof.
  intros. unfold has_property. rewrite size_create_property.
  by apply has_property_fuel_create_ne.
Qed.

Lemma get_create_ne (st : store) l k v l0 k0 :
  k0 ≠ k → get (create_property st l k v) l0 k0 = get st l0 k0.
Proof.
  intros. unfold get. rewrite size_create_property. by apply get_fuel_create_ne.
Qed.

Lemma has_property_create_eq (st : store) l k v :
  is_Some (st !! l) → has_property (create_property st l k v) l k = true.
Proof.
  intros [o Ho]. unfold has_property. simpl.
  rewrite lookup_create_property, decide_True, Ho by done. simpl.
  by rewrite lookup_insert_eq.
Qed.

Lemma has_property_false_own (st : store) l o k :
  st !! l = Some o → has_property st l k = false → own o !! k = None.
Proof.
  intros Ho. unfold has_property. simpl. rewrite Ho.
  by destruct (own o !! k).
Qed.

Lemma get_own (st : store) l o k p :
  st !! l = Some o → own o !! k = Some p → get st l k = pvalue p.
Proof. intros Ho Hp. unfold get. simpl. by rewrite Ho, Hp. Qed.

Lemma bool_decide_cons_ne (k k0 : string) (keys : list string) :
  k ≠ k0 → bool_decide (k ∈ k0 :: keys) = bool_decide (k ∈ keys).
Proof.
  intros Hne. apply bool_decide_ext. rewrite elem_of_cons.
  split; [by intros [?|?]|by right].
Qed.

(** Two stores whose objects agree on the key [k] and on their prototype
    links answer [get] alike. *)
Lemma get_fuel_agree n (st st' : store) (k : string) :
  (∀ l0, (λ o, (own o !! k, proto o)) <$> st' !! l0
         = (λ o, (own o !! k, proto o)) <$> st !! l0) →
  ∀ l0, get_fuel n st' l0 k = get_fuel n st l0 k.
Proof.
  intros Hag. induction n as [|n IH]; intros l0; simpl; [done|].
  specialize (Hag l0).
  destruct (st' !! l0) as [o'|], (st !! l0) as [o|]; simpl in Hag; try done.
  injection Hag as -> ->.
  destruct (own o !! k); [done|]. destruct (proto o); [apply IH|done].
Qed.

(** What the [forEach] loop leaves behind, key by key. *)
Lemma addDefaults_loop_spec (d l : loc) (keys : list string) :
  ∀ (st : store) (o : object),
    st !! l = Some o →
    ∃ st' o',
      addDefaults_loop d (VObj l) keys st = Ok st'
      ∧ st' !! l = Some o'
      ∧ proto o' = proto o
      ∧ size st' = size st
      ∧ (∀ l', l' ≠ l → st' !! l' = st !! l')
      ∧ (∀ k, own o' !! k =
              if bool_decide (k ∈ keys) && negb (has_property st l k)
              then Some {| pvalue := get st d k; enumerable := true |}
              else own o !! k).
Proof.
  induction keys as [|k0 keys IH]; intros st o Ho.
  - exists st, o. simpl. do 5 (split; [done|]).
    done.
  - simpl. destruct (has_property st l k0) eqn:Hk0; simpl.
    + destruct (IH st o Ho) as (st' & o' & Hrun & Ho' & Hp & Hsz & Hfr & Hown).
      exists st', o'. do 5 (split; [done|]).
      intros k. rewrite Hown. destruct (decide (k = k0)) as [->|Hne].
      * rewrite Hk0. simpl. by rewrite !andb_false_r.
      * destruct (has_property st l k); simpl; rewrite ?andb_false_r; [done|].
        rewrite !andb_true_r.
        by rewrite (bool_decide_cons_ne k k0 keys).
    + set (st1 := create_property st l k0 (get st d k0)).
      assert (Ho1 : st1 !! l = Some (add_own k0 (get st d k0) o)).
      { unfold st1. by rewrite lookup_create_property, decide_True, Ho. }
      destruct (IH st1 _ Ho1) as (st' & o' & Hrun & Ho' & Hp & Hsz & Hfr & Hown).
      exists st', o'. split; [done|]. split; [done|]. split; [done|].
      split; [by rewrite Hsz; apply size_create_property|].
      split.
      { intros l' Hl'. rewrite Hfr by done. unfold st1.
        by rewrite lookup_create_property, decide_False. }
      intros k. rewrite Hown. destruct (decide (k = k0)) as [->|Hne].
      * unfold st1 at 1. rewrite has_property_create_eq by eauto.
        rewrite andb_false_r. simpl. rewrite lookup_insert_eq.
        rewrite Hk0. simpl. rewrite bool_decide_eq_true_2; [done|]. left.
      * unfold st1. rewrite has_property_create_ne, get_create_ne by done.
        simpl. rewrite lookup_insert_ne by done.
        by rewrite (bool_decide_cons_ne k k0 keys).
Qed.

(** [Object.keys] lists the own enumerable keys in property order; the
    loop's result does not depend on that order. *)
Lemma addDefaults_loop_order (d l : loc) (keys keys' : list string)
    (st : store) (o : object) :
  st !! l = Some o → keys ≡ₚ keys' →
  addDefaults_loop d (VObj l) keys st = addDefaults_loop d (VObj l) keys' st.
Proof.
  intros Ho Hperm.
  destruct (addDefaults_loop_spec d l keys st o Ho)
    as (s1 & o1 & -> & Ho1 & Hp1 & _ & Hfr1 & Hown1).
  destruct (addDefaults_loop_spec d l keys' st o Ho)
    as (s2 & o2 & -> & Ho2 & Hp2 & _ & Hfr2 & Hown2).
  f_equal. apply map_eq. intros l0. destruct (decide (l0 = l)) as [->|Hne].
  - rewrite Ho1, Ho2. f_equal. destruct o1 as [own1 p1], o2 as [own2 p2].
    simpl in *. f_equal; [|congruence].
    apply map_eq. intros k. rewrite Hown1, Hown2.
    replace (bool_decide (k ∈ keys')) with (bool_decide (k ∈ keys)); [done|].
    apply bool_decide_ext. by rewrite Hperm.
  - by rewrite Hfr1, Hfr2.
Qed.

(** C2. [addDefaults(obj, d)] on an object [obj]: the call returns [obj]
    itself; a key that [obj] has, as its own or through its prototype
    chain, keeps its own slot and the value it reads as; a key that [obj]
    does not have is added exactly when it is an own enumerable key of [d],
    with the value [d] holds for it; no other object changes. *)
Theorem addDefaults_adds_exactly_the_missing_keys
    (R : realm) (st : store) (l d : loc) (o dobj : object) :
  st !! l = Some o →
  st !! d = Some dobj →
  ∃ st' o',
    _addDefaults R st (VObj l) d = Ok (st', VObj l)
    ∧ st' !! l = Some o'
    ∧ proto o' = proto o
    ∧ (∀ l', l' ≠ l → st' !! l' = st !! l')
    ∧ (∀ k, has_property st l k = true →
            own o' !! k = own o !! k ∧ get st' l k = get st l k)
    ∧ (∀ k, has_property st l k = false →
            own o' !! k =
            match own dobj !! k with
            | Some p => if enumerable p
                        then Some {| pvalue := pvalue p; enumerable := true |}
                        else None
            | None => None
            end).
Proof.
  intros Ho Hd. unfold _addDefaults. simpl. rewrite Hd.
  destruct (addDefaults_loop_spec d l (Object_keys dobj) st o Ho)
    as (st' & o' & -> & Ho' & Hp & Hsz & Hfr & Hown).
  exists st', o'. do 4 (split; [done|]). split.
  - intros k Hk. assert (Hk' : own o' !! k = own o !! k).
    { rewrite Hown, Hk. simpl. by rewrite andb_false_r. }
    split; [done|]. unfold get. rewrite Hsz. apply get_fuel_agree.
    intros l0. destruct (decide (l0 = l)) as [->|Hne].
    + rewrite Ho, Ho'. simpl. by rewrite Hk', Hp.
    + by rewrite Hfr.
  - intros k Hk. rewrite Hown, Hk, andb_true_r. simpl.
    rewrite (has_property_false_own st l o k Ho Hk).
    case_bool_decide as Hin.
    + apply elem_of_Object_keys in Hin as (p & Hp' & He).
      rewrite Hp', He. by rewrite (get_own st d dobj k p).
    + destruct (own dobj !! k) as [p|] eqn:Hp'; [|done].
      destruct (enumerable p) eqn:He; [|done].
      exfalso. apply Hin, elem_of_Object_keys. eauto.
Qed.

End addDefaults_props.

Example addDefaults_sample :
  ∃ st', Js._addDefaults JsSample.sample_realm JsSample.sample_store (Js.VObj 6) 7
         = Ok (st', Js.VObj 6)
       ∧ Js.own <$> st' !! 6 =
         Some {[ "a" := JsSample.shown (Js.VNum 1); "b" := JsSample.shown (Js.VNum 2) ]}.
Proof. eexists. split; [vm_compute; reflexivity|]. vm_compute. reflexivity. Qed.

Lemma addDefaults_adds_exactly_the_missing_keys_witness :
  (JsSample.sample_store !! 6 = Some JsSample.options
   ∧ JsSample.sample_store !! 7 = Some JsSample.defaults)
  ∧ ∃ st' o',
      Js._addDefaults JsSample.sample_realm JsSample.sample_store (Js.VObj 6) 7
      = Ok (st', Js.VObj 6)
      ∧ st' !! 6 = Some o'
      ∧ Js.proto o' = Js.proto JsSample.options
      ∧ (∀ l', l' ≠ 6 → st' !! l' = JsSample.sample_store !! l')
      ∧ (∀ k, Js.has_property JsSample.sample_store 6 k = true →
              Js.own o' !! k = Js.own JsSample.options !! k
              ∧ Js.get st' 6 k = Js.get JsSample.sample_store 6 k)
      ∧ (∀ k, Js.has_property JsSample.sample_store 6 k = false →
              Js.own o' !! k =
              match Js.own JsSample.defaults !! k with
              | Some p => if Js.enumerable p
                          then Some {| Js.pvalue := Js.pvalue p; Js.enumerable := true |}
                          else None
              | None => None
              end).
Proof.
  split; [split; reflexivity|].
  apply (addDefaults_adds_exactly_the_missing_keys
           JsSample.sample_realm JsSample.sample_store 6 7
           JsSample.options JsSample.defaults); reflexivity.
Defined.

Section noConflict_props.
Import Js.

(** Reading a property back after an assignment to an allocated object. *)
Lemma get_set_property_eq (st : store) l k v :
  is_Some (st !! l) → get (set_property st l k v) l k = v.
Proof.
  intros [o Ho]. unfold get, set_property. simpl.
  rewrite lookup_alter_eq, Ho. simpl. by rewrite lookup_insert_eq.
Qed.

(** [defineProperty] on one object leaves the own properties of every
    other object alone. *)
Lemma define_members_other (inst : loc) (members : list (string * value)) :
  ∀ (st : store) l, l ≠ inst →
    foldl (λ s kv, define_property s inst kv.1 kv.2) st members !! l = st !! l.
Proof.
  induction members as [|[k v] ms IH]; intros st l Hne; simpl; [done|].
  rewrite IH by done. unfold define_property. by rewrite lookup_alter_ne.
Qed.

Lemma fresh_not_allocated (st : store) l :
  is_Some (st !! l) → l ≠ fresh (dom st).
Proof.
  intros Hl ->. apply elem_of_dom in Hl. by apply is_fresh in Hl.
Qed.

(** After the load the global binding holds the instance. *)
Lemma load_binds_instance (R : realm) (st : store) members env st1 inst :
  is_Some (st !! window R) →
  load R st members = (env, st1, inst) →
  _oldΩ env = get st (window R) Ω_name
  ∧ is_Some (st1 !! window R)
  ∧ get st1 (window R) Ω_name = VObj inst.
Proof.
  intros Hw. unfold load, new_object. intros [= <- <- <-]. simpl.
  pose proof (fresh_not_allocated st _ Hw) as Hne.
  split; [done|]. destruct Hw as [w Hw].
  set (st2 := set_property _ _ _ _).
  assert (Hw2 : st2 !! window R
                = Some (write_own Ω_name (VObj (fresh (dom st))) w)).
  { unfold st2, set_property. rewrite lookup_alter_eq, lookup_insert_ne by done.
    by rewrite Hw. }
  split.
  - rewrite define_members_other by done. by rewrite Hw2.
  - unfold get. simpl. rewrite define_members_other by done.
    rewrite Hw2. simpl. by rewrite lookup_insert_eq.
Qed.

(** C8. [noConflict] returns what the global name was bound to when it was
    called and binds the name to the value read before the load, touching
    no other property; called right after the load, it returns the
    library's instance and the global name reads as it did before the
    script ran. *)
Theorem noConflict_restores_previous_binding
    (R : realm) (st : store) (members : list (string * value)) :
  is_Some (st !! window R) →
  let '(env, st1, inst) := load R st members in
  (∀ st2, is_Some (st2 !! window R) →
     (_noConflict R env st2).2 = get st2 (window R) Ω_name
     ∧ get (_noConflict R env st2).1 (window R) Ω_name = get st (window R) Ω_name
     ∧ (∀ l k, (l, k) ≠ (window R, Ω_name) →
          (own <$> (_noConflict R env st2).1 !! l) ≫= (.!! k)
          = (own <$> st2 !! l) ≫= (.!! k)))
  ∧ (_noConflict R env st1).2 = VObj inst
  ∧ get (_noConflict R env st1).1 (window R) Ω_name = get st (window R) Ω_name.
Proof.
  intros Hw. destruct (load R st members) as [[env st1] inst] eqn:Hload.
  destruct (load_binds_instance R st members env st1 inst Hw Hload)
    as (Hold & Hw1 & Hinst).
  assert (Hgen : ∀ st2, is_Some (st2 !! window R) →
     (_noConflict R env st2).2 = get st2 (window R) Ω_name
     ∧ get (_noConflict R env st2).1 (window R) Ω_name = get st (window R) Ω_name
     ∧ (∀ l k, (l, k) ≠ (window R, Ω_name) →
          (own <$> (_noConflict R env st2).1 !! l) ≫= (.!! k)
          = (own <$> st2 !! l) ≫= (.!! k))).
  { intros st2 Hw2. unfold _noConflict. simpl. split; [done|]. split.
    - rewrite get_set_property_eq by done. done.
    - intros l k Hlk. unfold set_property. rewrite lookup_alter.
      destruct (decide (window R = l)) as [<-|]; [|done].
      destruct (st2 !! window R) as [o|]; simpl; [|done].
      rewrite lookup_insert_ne; [done|]. intros <-. by apply Hlk. }
  split; [exact Hgen|].
  destruct (Hgen st1 Hw1) as (Hr & Hg & _). by rewrite Hr, Hinst.
Qed.

Lemma noConflict_restores_previous_binding_witness :
  is_Some (JsSample.sample_store !! window JsSample.sample_realm)
  ∧ let '(env, st1, inst) :=
        load JsSample.sample_realm JsSample.sample_store JsSample.members in
    (∀ st2, is_Some (st2 !! window JsSample.sample_realm) →
       (_noConflict JsSample.sample_realm env st2).2
       = get st2 (window JsSample.sample_realm) Ω_name
       ∧ get (_noConflict JsSample.sample_realm env st2).1
             (window JsSample.sample_realm) Ω_name
         = get JsSample.sample_store (window JsSample.sample_realm) Ω_name
       ∧ (∀ l k, (l, k) ≠ (window JsSample.sample_realm, Ω_name) →
            (own <$> (_noConflict JsSample.sample_realm env st2).1 !! l) ≫= (.!! k)
            = (own <$> st2 !! l) ≫= (.!! k)))
    ∧ (_noConflict JsSample.sample_realm env st1).2 = VObj inst
    ∧ get (_noConflict JsSample.sample_realm env st1).1
          (window JsSample.sample_realm) Ω_name
      = get JsSample.sample_store (window JsSample.sample_realm) Ω_name.
Proof.
  split; [eexists; reflexivity|].
  apply (noConflict_restores_previous_binding
           JsSample.sample_realm JsSample.sample_store JsSample.members).
  eexists; reflexivity.
Defined.

Example noConflict_sample :
  let '(env, st1, inst) :=
      load JsSample.sample_realm JsSample.sample_store JsSample.members in
  get st1 (window JsSample.sample_realm) Ω_name = VObj 8
  ∧ _oldΩ env = VStr "another library"
  ∧ (_noConflict JsSample.sample_realm env st1).2 = VObj 8
  ∧ get (_noConflict JsSample.sample_realm env st1).1
        (window JsSample.sample_realm) Ω_name = VStr "another library".
Proof. vm_compute. done. Qed.

End noConflict_props.

(** * Properties of the request helper *)

Section xhr_props.
Import Js Xhr.

Variable JSON_stringify : store → value → value.

Lemma returned_request_calls R st reqs method url body onload onerror :
  calls <$> returned_request JSON_stringify R st reqs method url body onload onerror =
  Some (Open method url true ::
        if truthy body
        then [json_header;
              Send (Some (if _isString R st body then body
                          else JSON_stringify st body))]
        else [Send None]).
Proof.
  unfold returned_request, _xhr.
  rewrite lookup_app_r, Nat.sub_diag by done. simpl.
  destruct (truthy onerror), (truthy body); simpl; try done;
    by destruct (_isString R st body).
Qed.

(** An object literal, with no [constructor] of its own and
    [Object.prototype] behind it, is no string for [_isString]. *)
Lemma isString_plain_object (R : realm) (st : store) l o op :
  st !! l = Some o → own o !! "constructor" = None →
  proto o = Some (ObjectPrototype R) →
  st !! ObjectPrototype R = Some op → proto op = None →
  pvalue <$> own op !! "constructor" ≠ Some (VObj (StringCtor R)) →
  ObjectPrototype R ≠ StringPrototype R →
  _isString R st (VObj l) = false.
Proof.
  intros Hl Hc Hp Hop Hpp Hctor Hne.
  unfold _isString, constructor_is_String, instanceof_String, get, on_chain.
  simpl. rewrite Hl, Hc, Hp.
  destruct (size st) as [|n] eqn:Hsz.
  { apply map_size_empty_inv in Hsz. by rewrite Hsz in Hl. }
  simpl. rewrite Hop, Hpp.
  rewrite (bool_decide_eq_false_2 (ObjectPrototype R = StringPrototype R)) by done.
  simpl. rewrite orb_false_r. apply bool_decide_eq_false_2.
  destruct (own op !! "constructor") as [p|]; [|done]. simpl in Hctor. congruence.
Qed.

(** C9. The request helper tests the truthiness of the body: the empty
    string is handled as an absent body is, with [send()] and no
    content-type header; a non-empty string gets the JSON content-type
    header and is sent as it is. *)
Theorem xhr_dispatches_on_truthiness
    (R : realm) (st : store) (reqs : list request)
    (method url onload onerror : value) (s : string) :
  _xhr JSON_stringify R st reqs method url (VStr "") onload onerror
  = _xhr JSON_stringify R st reqs method url VUndefined onload onerror
  ∧ calls <$> returned_request JSON_stringify R st reqs method url (VStr "") onload onerror
    = Some [Open method url true; Send None]
  ∧ calls <$> returned_request JSON_stringify R st reqs method url (VStr s) onload onerror
    = Some (if String.eqb s ""
            then [Open method url true; Send None]
            else [Open method url true; json_header; Send (Some (VStr s))]).
Proof.
  split; [done|]. split; [by rewrite returned_request_calls|].
  rewrite returned_request_calls. simpl. by destruct (String.eqb s "").
Qed.

(** C5, amended.  The handle returned is that of a new request object, on
    which [open] and [send] have been called, and no earlier request
    changes.  An object body that [_isString] does not take for a string is
    sent as [JSON.stringify] renders it, with the JSON content-type header;
    a non-empty string is sent as it is, with the same header; [undefined],
    [null] and the empty string give [send()] with no header. *)
Theorem xhr_sends_the_body
    (R : realm) (st : store) (reqs : list request)
    (method url body onload onerror : value) :
  (∃ req,
     _xhr JSON_stringify R st reqs method url body onload onerror
     = (reqs ++ [req], length reqs)
     ∧ returned_request JSON_stringify R st reqs method url body onload onerror = Some req
     ∧ onload_slot req = Some onload
     ∧ head (calls req) = Some (Open method url true))
  ∧ (∀ l, body = VObj l → _isString R st body = false →
       calls <$> returned_request JSON_stringify R st reqs method url body onload onerror
       = Some [Open method url true; json_header;
               Send (Some (JSON_stringify st body))])
  ∧ (∀ s, body = VStr s → s ≠ "" →
       calls <$> returned_request JSON_stringify R st reqs method url body onload onerror
       = Some [Open method url true; json_header; Send (Some (VStr s))])
  ∧ (body = VUndefined ∨ body = VNull ∨ body = VStr "" →
       calls <$> returned_request JSON_stringify R st reqs method url body onload onerror
       = Some [Open method url true; Send None]).
Proof.
  split.
  { unfold returned_request, _xhr. eexists. split; [reflexivity|].
    rewrite lookup_app_r, Nat.sub_diag by done. simpl. split; [done|].
    by destruct (truthy onerror), (truthy body), (_isString R st body). }
  split; [|split].
  - intros l -> Hs. by rewrite returned_request_calls, Hs.
  - intros s -> Hne. rewrite returned_request_calls. simpl.
    destruct (String.eqb_spec s ""); done.
  - intros [->|[->| ->]]; by rewrite returned_request_calls.
Qed.

End xhr_props.

(** C5 as stated fails on the empty string: it is a string body, and it is
    not sent; the request goes out with [send()]. *)
Lemma xhr_empty_string_body_is_not_sent :
  Xhr.calls <$> Xhr.returned_request XhrSample.stringify JsSample.sample_realm
      JsSample.sample_store [] (Js.VStr "POST") (Js.VStr "/items")
      (Js.VStr "") (Js.VObj 4) Js.VUndefined
  = Some [Xhr.Open (Js.VStr "POST") (Js.VStr "/items") true; Xhr.Send None]
  ∧ Xhr.Send (Some (Js.VStr "")) ∉
      default [] (Xhr.calls <$> Xhr.returned_request XhrSample.stringify
        JsSample.sample_realm JsSample.sample_store []
        (Js.VStr "POST") (Js.VStr "/items") (Js.VStr "") (Js.VObj 4) Js.VUndefined).
Proof.
  split; [reflexivity|]. simpl.
  intros Hin. repeat (apply elem_of_cons in Hin as [Hin|Hin]; [discriminate Hin|]).
  by apply elem_of_nil in Hin.
Qed.

Example xhr_object_body_sample :
  Xhr.calls <$> Xhr.returned_request XhrSample.stringify JsSample.sample_realm
      JsSample.sample_store [] (Js.VStr "POST") (Js.VStr "/items")
      (Js.VObj 6) (Js.VObj 4) Js.VUndefined
  = Some [Xhr.Open (Js.VStr "POST") (Js.VStr "/items") true; Xhr.json_header;
          Xhr.Send (Some (Js.VStr "{a:1}"))].
Proof. vm_compute. reflexivity. Qed.

(** * Properties of the readiness signal *)

Section ready_props.
Import Ready.

Lemma regs_log_registered s cb : regs (log (Registered cb) s) = regs s ++ [cb].
Proof. unfold regs. simpl. by rewrite omap_app. Qed.

Lemma regs_log_invoked s cb : regs (log (Invoked cb) s) = regs s.
Proof. unfold regs. simpl. by rewrite omap_app, app_nil_r. Qed.

Lemma calls_log_registered s cb : calls (log (Registered cb) s) = calls s.
Proof. unfold calls. simpl. by rewrite omap_app, app_nil_r. Qed.

Lemma calls_log_invoked s cb : calls (log (Invoked cb) s) = calls s ++ [cb].
Proof. unfold calls. simpl. by rewrite omap_app. Qed.

(** The registration itself calls nothing, whatever the state. *)
Lemma onDomReady_calls_nothing cb s : calls (_onDomReady cb s).1 = calls s.
Proof.
  unfold _onDomReady. simpl.
  destruct (_domIsReady s); simpl; [apply calls_log_registered|].
  destruct (_domReadyCallbacks s); simpl; apply calls_log_registered.
Qed.

Lemma onDomReady_when_ready cb s :
  _domIsReady s = true →
  scheduled s (_onDomReady cb s).1 [cb] ∧ (_onDomReady cb s).2 = Normal.
Proof.
  intros Hr. unfold _onDomReady. simpl. rewrite Hr. simpl.
  split; [|done]. unfold scheduled. simpl. rewrite Hr.
  do 4 (split; [done|]). split; [apply regs_log_registered|].
  apply calls_log_registered.
Qed.


(** Once the flag is set, a body can only set timers: each registration it
    makes is scheduled, none is called, and the queue is out of reach. *)
Lemma run_body_when_ready (body : list stmt) :
  ∀ s, _domIsReady s = true →
    ∃ new, scheduled s (run_body body s).1 new
           ∧ (Raise ∉ body → (run_body body s).2 = Normal).
Proof.
  induction body as [|[cb|] body IH]; intros s Hr; simpl.
  - exists []. split; [|done]. unfold scheduled. by rewrite !app_nil_r.
  - destruct (onDomReady_when_ready cb s Hr) as [Hs Ho].
    destruct (_onDomReady cb s) as [s1 o1]. simpl in *. subst o1.
    destruct Hs as (H1 & H2 & H3 & H4 & H5 & H6).
    destruct (IH s1) as (new & (G1 & G2 & G3 & G4 & G5 & G6) & Hn); [congruence|].
    exists (cb :: new). split.
    + unfold scheduled.
      rewrite G1, G2, G3, G4, G5, G6, H1, H2, H3, H4, H5, H6.
      by rewrite <- !app_assoc.
    + intros Hnot. apply Hn. intros Hin. apply Hnot. by right.
  - exists []. split.
    + unfold scheduled. by rewrite !app_nil_r.
    + intros Hnot. exfalso. apply Hnot. left.
Qed.

Lemma invoke_when_ready cb s :
  _domIsReady s = true →
  ∃ new,
    let s' := (invoke cb s).1 in
    _domIsReady s' = true
    ∧ _domReadyCallbacks s' = _domReadyCallbacks s
    ∧ listening s' = listening s
    ∧ timers s' = timers s ++ new
    ∧ regs s' = regs s ++ new
    ∧ calls s' = calls s ++ [cb]
    ∧ (returns_normally cb → (invoke cb s).2 = Normal).
Proof.
  intros Hr. unfold invoke.
  destruct (run_body_when_ready (body_of cb) (log (Invoked cb) s) Hr)
    as (new & (G1 & G2 & G3 & G4 & G5 & G6) & Hn).
  exists new. simpl. rewrite G1, G2, G3, G4, G5, G6. simpl.
  rewrite regs_log_invoked, calls_log_invoked. by repeat split.
Qed.


(** The loop ends, throwing callbacks or not. *)
Lemma for_loop_ends (fuel : nat) :
  ∀ c s q,
    _domIsReady s = true → _domReadyCallbacks s = Some q →
    length q - c < fuel → is_Some (for_loop fuel c s).
Proof.
  induction fuel as [|fuel IH]; intros c s q Hr Hq Hfuel; [lia|].
  simpl. rewrite Hq. destruct (c <? length q) eqn:Hc; [|done].
  apply Nat.ltb_lt in Hc.
  destruct (lookup_lt_is_Some_2 q c Hc) as [cb ->].
  destruct (invoke_when_ready cb s Hr) as (new & G1 & G2 & _).
  destruct (invoke cb s) as [s1 [|]]; [|done]. simpl in *.
  apply (IH (S c) s1 q); [done|congruence|lia].
Qed.

(** The handler ends: the fuel of its loop is enough for any queue. *)
Lemma onDomReadyHandler_ends s : is_Some (_onDomReadyHandler s).
Proof.
  unfold _onDomReadyHandler.
  destruct (_domReadyCallbacks s) as [q|] eqn:Hq.
  - assert (Hq' : _domReadyCallbacks (enter_ready s) = Some q) by done.
    rewrite Hq'. change (default [] (Some q)) with q.
    destruct (for_loop_ends (S (length q)) 0 (enter_ready s) q) as [[s' o] Hrun];
      [done|done|lia|].
    rewrite Hrun. by destruct o.
  - assert (Hq' : _domReadyCallbacks (enter_ready s) = None) by done.
    rewrite Hq'. simpl. by rewrite Hq.
Qed.









End ready_props.

Section ready_samples.
Import Ready ReadySample.


(** The run of the witness, in full: the callback registered during the
    transition waits on a timer and is called when the timer fires. *)
Example onDomReady_reentrant_sample :
  ∃ s, run [Script again; Script greet; DOMContentLoaded; Timer; Script greet]
           (init loading) = Some s
       ∧ calls s = [again; greet; greet]
       ∧ timers s = [greet]
       ∧ regs s = [again; greet; greet; greet].
Proof. eexists. split; [reflexivity|]. done. Qed.


End ready_samples.

(** * Properties of the ancestor search *)

Section parent_props.
Import Dom.

Variable matches : heap → nat → string → bool.

(** On a walk through elements the loop returns the nearest match, or
    [undefined] when the walk ends without one. *)
Lemma climb_returns_nearest (E : env) (h : heap) (sel : string) p path bd :
  upward E h p path bd →
  all_elements h path →
  ∀ fuel, length path < fuel →
    climb matches fuel E h sel p
    = Some (Ok (nearest (λ n, matches h n sel) path)).
Proof.
  induction 1 as [|b Hb|n path bd Hn Hup IH]; intros Hel fuel Hfuel.
  - destruct fuel; [simpl in Hfuel; lia|done].
  - destruct fuel; [simpl in Hfuel; lia|]. simpl.
    by rewrite bool_decide_eq_true_2.
  - destruct fuel; [simpl in Hfuel; lia|]. simpl.
    rewrite bool_decide_eq_false_2 by done.
    apply Forall_cons in Hel as [Hk Hel]. rewrite Hk. simpl.
    destruct (matches h n sel); [done|].
    apply IH; [done|]. simpl in Hfuel. lia.
Qed.

(** The loop never hands out the cached body. *)
Lemma climb_not_body (E : env) (h : heap) (sel : string) b fuel :
  _body E = Some b →
  ∀ p, climb matches fuel E h sel p ≠ Some (Ok (Some b)).
Proof.
  intros Hb. induction fuel as [|fuel IH]; intros p; simpl; [done|].
  destruct p as [n|]; [|done].
  case_bool_decide as Hn; [done|].
  destruct (default false (is_element <$> kind_of h n)); [|done].
  destruct (matches h n sel); [|apply IH].
  intros [= ->]. by rewrite Hb in Hn.
Qed.

Lemma parent_past_guards fuel E h n sel includeSelf :
  sel ≠ "" → disallowed E n = false →
  _parent matches fuel E h (Val n) (Val sel) includeSelf
  = climb matches fuel E h sel (if includeSelf then Some n else parent_of h n).
Proof.
  intros Hsel Hd. unfold _parent. simpl.
  destruct (String.eqb_spec sel ""); [done|]. simpl. by rewrite Hd.
Qed.

(** The search on a walk through elements: past the guards, [parent]
    returns the nearest node of the walk that matches the selector, the
    start included when it may be returned, and [undefined] when the walk
    ends, at the cached body or for want of a parent, without a match. *)
Theorem parent_returns_the_nearest_match
    (fuel : nat) (E : env) (h : heap) (n : nat) (sel : string)
    (includeSelf : bool) (path : list nat) (bd : boundary) :
  sel ≠ "" → disallowed E n = false →
  upward E h (if includeSelf then Some n else parent_of h n) path bd →
  all_elements h path →
  length path < fuel →
  _parent matches fuel E h (Val n) (Val sel) includeSelf
  = Some (Ok (nearest (λ m, matches h m sel) path)).
Proof.
  intros Hsel Hd Hup Hel Hfuel. rewrite parent_past_guards by done.
  by apply (climb_returns_nearest E h sel _ path bd).
Qed.

(** C4, amended.  [parent] throws one of its two errors of its own exactly
    when the node or the selector is falsy ([undefined], [null], or for the
    selector the empty string) or the node is one of the four cached nodes;
    in every other case the search starts, at the node or at its parent. *)
Theorem parent_throws_its_errors_iff
    (fuel : nat) (E : env) (h : heap)
    (node : arg nat) (selector : arg string) (includeSelf : bool) :
  ((∃ msg, _parent matches fuel E h node selector includeSelf
           = Some (Throw (Error msg)))
   ↔ (node_truthy node = false ∨ string_truthy selector = false
      ∨ ∃ n, node = Val n ∧ disallowed E n = true))
  ∧ (∀ n sel, node = Val n → selector = Val sel → sel ≠ "" →
       disallowed E n = false →
       _parent matches fuel E h node selector includeSelf
       = climb matches fuel E h sel (if includeSelf then Some n else parent_of h n)).
Proof.
  split.
  - unfold _parent. split.
    + intros [msg Hmsg].
      destruct (node_truthy node) eqn:Hn; [|by left].
      destruct (string_truthy selector) eqn:Hs; [|by right; left].
      right; right. simpl in Hmsg.
      destruct node as [| |n]; try done. destruct selector as [| |sel]; try done.
      exists n. split; [done|].
      destruct (disallowed E n) eqn:Hd; [done|]. exfalso.
      revert Hmsg. generalize (if includeSelf then Some n else parent_of h n).
      clear. induction fuel as [|fuel IH]; intros p; simpl; [done|].
      destruct p as [m|]; [|done].
      case_bool_decide; [done|].
      destruct (default false (is_element <$> kind_of h m)); [|done].
      destruct (matches h m sel); [done|apply IH].
    + intros [Hn|[Hs|(n & -> & Hd)]].
      * rewrite Hn. simpl. eauto.
      * rewrite Hs, orb_true_r. eauto.
      * simpl. destruct (string_truthy selector) eqn:Hs; simpl; [|eauto].
        destruct selector as [| |sel]; try done. rewrite Hd. eauto.
  - intros n sel -> -> Hsel Hd. by apply parent_past_guards.
Qed.

(** C10, amended.  When a body was cached at load, [parent] never returns
    it; and when the walk from the start reaches it without a match on the
    way, the result is [undefined], whether the body matches the selector
    or not. *)
Theorem parent_never_returns_body
    (fuel : nat) (E : env) (h : heap)
    (node : arg nat) (selector : arg string) (includeSelf : bool) (b : nat) :
  _body E = Some b →
  _parent matches fuel E h node selector includeSelf ≠ Some (Ok (Some b))
  ∧ (∀ n sel path,
       node = Val n → selector = Val sel → sel ≠ "" → disallowed E n = false →
       upward E h (if includeSelf then Some n else parent_of h n) path AtBody →
       all_elements h path →
       Forall (λ m, matches h m sel = false) path →
       length path < fuel →
       _parent matches fuel E h node selector includeSelf = Some (Ok None)).
Proof.
  intros Hb. split.
  - unfold _parent.
    destruct (negb (node_truthy node) || negb (string_truthy selector)); [done|].
    destruct node as [| |n]; try done. destruct selector as [| |sel]; try done.
    destruct (disallowed E n); [done|]. by apply climb_not_body.
  - intros n sel path -> -> Hsel Hd Hup Hel Hno Hfuel.
    rewrite parent_past_guards by done.
    rewrite (climb_returns_nearest E h sel _ path AtBody Hup Hel fuel Hfuel).
    do 2 f_equal. clear -Hno.
    induction Hno as [|m path Hm _ IH]; simpl; [done|]. by rewrite Hm.
Qed.

End parent_props.

(** * Subtrees on the heap *)

Section tree_props.
Import Dom.

Lemma tree_ind_forall (P : tree → Prop) :
  (∀ k cont kids,
     match cont with Some c => P c | None => True end →
     Forall P kids → P (Tree k cont kids)) →
  ∀ t, P t.
Proof.
  intros HP. fix IH 1. intros [k cont kids]. apply HP.
  - destruct cont as [c|]; [apply IH|exact I].
  - induction kids as [|t kids IHkids]; constructor; [apply IH|exact IHkids].
Qed.

Lemma flat_unfold n par k cont kids :
  flat n par (Tree k cont kids)
  = {| nkind := k; parentNode := par;
       childNodes := child_ids (S n + content_size cont) kids;
       content := match cont with Some _ => Some (S n) | None => None end |}
    :: layout n cont kids.
Proof.
  assert (Hrest : ∀ ts m,
    (fix forest (m : nat) (ts : list tree) {struct ts} : list node :=
       match ts with
       | [] => []
       | t' :: ts' => flat m (Some n) t' ++ forest (m + size t') ts'
       end) m ts = flat_forest m (Some n) ts).
  { induction ts as [|t ts IH]; intros m; [done|]. cbn. by rewrite IH. }
  simpl. f_equal. unfold layout. f_equal. apply Hrest.
Qed.

Lemma size_unfold k cont kids :
  size (Tree k cont kids) = S (content_size cont + forest_size kids).
Proof. done. Qed.

Lemma depth_unfold k cont kids :
  depth (Tree k cont kids) = S (content_depth cont `max` forest_depth kids).
Proof. done. Qed.

Lemma length_flat t : ∀ n par, length (flat n par t) = size t.
Proof.
  induction t as [k cont kids IHc IH] using tree_ind_forall. intros n par.
  rewrite flat_unfold, size_unfold. simpl. f_equal. unfold layout.
  rewrite length_app. f_equal.
  - destruct cont as [c|]; [apply IHc|done].
  - generalize (S n + content_size cont).
    induction IH as [|t ts Ht _ IHts]; intros m; [done|].
    simpl. by rewrite length_app, Ht, IHts.
Qed.

Lemma skel_flat_parent t n par par' :
  skel <$> flat n par t = skel <$> flat n par' t.
Proof. destruct t as [k cont kids]. by rewrite !flat_unfold. Qed.

Lemma skel_flat_forest_parent ts : ∀ m par par',
  skel <$> flat_forest m par ts = skel <$> flat_forest m par' ts.
Proof.
  induction ts as [|t ts IH]; intros m par par'; [done|].
  simpl. rewrite !fmap_app. f_equal; [apply skel_flat_parent|apply IH].
Qed.

Lemma lookup_skel_inv (l l' : list node) j r :
  skel <$> l = skel <$> l' → l !! j = Some r →
  ∃ r', l' !! j = Some r' ∧ skel r' = skel r.
Proof.
  intros Hl Hj.
  assert (Hsk : (skel <$> l') !! j = Some (skel r))
    by (by rewrite <- Hl, list_lookup_fmap, Hj).
  rewrite list_lookup_fmap in Hsk. destruct (l' !! j) as [r'|]; [|done].
  apply (inj Some) in Hsk. eauto.
Qed.

Lemma laid_root h n k cont kids :
  laid h n (Tree k cont kids) →
  skel <$> h !! n
  = Some (k, child_ids (S n + content_size cont) kids,
          match cont with Some _ => Some (S n) | None => None end)
  ∧ match cont with Some c => laid h (S n) c | None => True end
  ∧ laid_forest h (S n + content_size cont) kids.
Proof.
  unfold laid, laid_forest. rewrite flat_unfold. unfold layout. intros H.
  split; [|split].
  - specialize (H 0 _ eq_refl). by rewrite Nat.add_0_r in H.
  - destruct cont as [c|]; [|done]. intros j r Hj.
    replace (S n + j) with (n + S j) by lia. apply H. simpl.
    by apply lookup_app_l_Some.
  - intros j r Hj.
    destruct (lookup_skel_inv _ (flat_forest (S n + content_size cont) (Some n) kids)
                j r (skel_flat_forest_parent kids _ _ _) Hj) as (r' & Hr' & <-).
    replace (S n + content_size cont + j) with (n + S (content_size cont + j)) by lia.
    assert (Hlen : length (match cont with
                           | Some c => flat (S n) None c
                           | None => []
                           end) = content_size cont).
    { destruct cont as [c|]; [apply length_flat|done]. }
    apply H. simpl. rewrite lookup_app_r; rewrite Hlen; [|lia].
    by replace (content_size cont + j - content_size cont) with j by lia.
Qed.

Lemma laid_forest_cons h m t ts :
  laid_forest h m (t :: ts) → laid h m t ∧ laid_forest h (m + size t) ts.
Proof.
  unfold laid, laid_forest. simpl. intros H. split.
  - intros j r Hj. apply H. by apply lookup_app_l_Some.
  - intros j r Hj. rewrite <- Nat.add_assoc. apply H.
    rewrite lookup_app_r; rewrite length_flat; [|lia].
    by replace (size t + j - size t) with j by lia.
Qed.

(** Reading back what is laid out gives the subtree. *)
Lemma shape_laid t :
  ∀ fuel h n, depth t ≤ fuel → laid h n t → shape fuel h n = Some t.
Proof.
  induction t as [k cont kids IHc IH] using tree_ind_forall.
  intros fuel h n Hfuel Hlaid. rewrite depth_unfold in Hfuel.
  destruct fuel as [|fuel]; [lia|]. apply Nat.succ_le_mono in Hfuel.
  apply laid_root in Hlaid as (Hroot & Hcont & Hkids).
  assert (Hall : ∀ ts m,
    Forall (λ t, ∀ fuel h n, depth t ≤ fuel → laid h n t → shape fuel h n = Some t) ts →
    forest_depth ts ≤ fuel → laid_forest h m ts →
    mapM (shape fuel h) (child_ids m ts) = Some ts).
  { clear. intros ts m Hts. revert m.
    induction Hts as [|t ts Ht _ IHts]; intros m Hd Hl; [done|].
    apply laid_forest_cons in Hl as [Hl1 Hl2]. simpl in Hd.
    apply mapM_Some. simpl. constructor.
    - apply Ht; [lia|done].
    - apply mapM_Some, IHts; [lia|done]. }
  simpl. destruct (h !! n) as [r|]; [|done]. simpl in *.
  injection Hroot as Hk Hc Hct. rewrite Hk, Hc, Hct.
  rewrite (Hall kids); [|done|lia|done]. simpl.
  destruct cont as [c|]; [|done].
  rewrite IHc; [done|simpl in Hfuel; lia|done].
Qed.

(** A subtree that can be read is no deeper than the fuel, and can be read
    with more. *)
Lemma shape_depth fuel :
  ∀ h n t, shape fuel h n = Some t → depth t ≤ fuel.
Proof.
  induction fuel as [|fuel IH]; intros h n t; simpl; [done|].
  destruct (h !! n) as [r|]; [|done]. simpl.
  destruct (mapM (shape fuel h) (childNodes r)) as [kids|] eqn:Hkids; [|done].
  simpl. apply mapM_Some in Hkids.
  assert (Hd : forest_depth kids ≤ fuel).
  { clear -IH Hkids. induction Hkids as [|x t xs ts Hx _ IHs]; simpl; [lia|].
    apply IH in Hx. lia. }
  destruct (content r) as [c|].
  - destruct (shape fuel h c) as [ct|] eqn:Hct; [|done]. simpl.
    intros [= <-]. apply IH in Hct. rewrite depth_unfold. simpl. lia.
  - intros [= <-]. rewrite depth_unfold. simpl. lia.
Qed.

Lemma shape_ext fuel :
  ∀ h h' n t,
    (∀ i r, h !! i = Some r → skel <$> h' !! i = Some (skel r)) →
    shape fuel h n = Some t → shape fuel h' n = Some t.
Proof.
  induction fuel as [|fuel IH]; intros h h' n t Hext; simpl; [done|].
  destruct (h !! n) as [r|] eqn:Hr; [|done]. simpl.
  apply Hext in Hr. destruct (h' !! n) as [r'|]; [|done]. simpl in *.
  injection Hr as Hk Hc Hct. rewrite Hk, Hc, Hct.
  destruct (mapM (shape fuel h) (childNodes r)) as [kids|] eqn:Hkids; [|done].
  simpl. apply mapM_Some in Hkids.
  assert (Hkids' : mapM (shape fuel h') (childNodes r) = Some kids).
  { apply mapM_Some. eapply Forall2_impl; [exact Hkids|].
    intros x y Hxy. by apply (IH h h'). }
  rewrite Hkids'. simpl. destruct (content r) as [c|]; [|done].
  destruct (shape fuel h c) as [ct|] eqn:Hct'; [|done]. simpl.
  by rewrite (IH h h' c ct Hext Hct').
Qed.

(** Laying a subtree out behind the heap. *)
Lemma laid_alloc h par t : laid (h ++ flat (length h) par t) (length h) t.
Proof.
  intros j r Hj.
  destruct (lookup_skel_inv _ (flat (length h) par t) j r
              (skel_flat_parent t _ _ _) Hj) as (r' & Hr' & <-).
  rewrite lookup_app_r by lia.
  replace (length h + j - length h) with j by lia. by rewrite Hr'.
Qed.

Lemma laid_skel h h' n t :
  (∀ j, j < size t → skel <$> h' !! (n + j) = skel <$> h !! (n + j)) →
  laid h n t → laid h' n t.
Proof.
  intros Heq Hl j r Hj. rewrite Heq; [by apply Hl|].
  apply lookup_lt_Some in Hj. by rewrite length_flat in Hj.
Qed.

End tree_props.

(** * Moving nodes *)

Section move_props.
Import Dom.

Lemma lookup_alter_at {A} (f : A → A) (l : list A) (k i : nat) :
  alter f k l !! i = (if decide (k = i) then f else id) <$> l !! i.
Proof.
  rewrite list_lookup_alter. destruct (decide (k = i)) as [->|]; [done|].
  by destruct (l !! i).
Qed.

Lemma move_lookup (p c : nat) (h : heap) (i : nat) :
  move p h c !! i = moved p c (parent_of h c) i <$> h !! i.
Proof.
  unfold move, insert_last, detach, moved.
  destruct (parent_of h c) as [q|]; rewrite !lookup_alter_at;
    destruct (h !! i) as [r|]; simpl; [|done| |done];
    repeat case_decide; done.
Qed.

Lemma move_length p h c : length (move p h c) = length h.
Proof.
  unfold move, insert_last, detach.
  destruct (parent_of h c); by rewrite !length_alter.
Qed.

Lemma move_kind p h c i : kind_of (move p h c) i = kind_of h i.
Proof.
  unfold kind_of. rewrite move_lookup. destruct (h !! i) as [r|]; [|done].
  simpl. unfold moved. destruct (parent_of h c); repeat case_decide; done.
Qed.

Lemma move_other p h c q i :
  parent_of h c = q → i ≠ p → i ≠ c → Some i ≠ q →
  move p h c !! i = h !! i.
Proof.
  intros <- Hp Hc Hq. rewrite move_lookup. destruct (h !! i) as [r|]; [|done].
  simpl. unfold moved. destruct (parent_of h c) as [q|];
    repeat case_decide; try done; congruence.
Qed.

Lemma move_skel p h c q i :
  parent_of h c = q → i ≠ p → Some i ≠ q →
  skel <$> move p h c !! i = skel <$> h !! i.
Proof.
  intros <- Hp Hq. rewrite move_lookup. destruct (h !! i) as [r|]; [|done].
  simpl. unfold moved. destruct (parent_of h c) as [q|];
    repeat case_decide; try done; congruence.
Qed.

Lemma move_parent_other p h c i :
  i ≠ c → parent_of (move p h c) i = parent_of h i.
Proof.
  intros Hc. unfold parent_of. rewrite move_lookup.
  destruct (h !! i) as [r|]; [|done]. simpl. unfold moved.
  destruct (parent_of h c) as [q|]; repeat case_decide; done.
Qed.

Lemma move_parent p h c :
  is_Some (h !! c) → parent_of (move p h c) c = Some p.
Proof.
  intros [r Hr]. unfold parent_of at 1. rewrite move_lookup, Hr. simpl.
  unfold moved. destruct (parent_of h c) as [q|]; repeat case_decide; done.
Qed.

Lemma move_children_target p h c q :
  parent_of h c = q → p ≠ c → Some p ≠ q → is_Some (h !! p) →
  children_of (move p h c) p = children_of h p ++ [c].
Proof.
  intros <- Hc Hq [r Hr]. unfold children_of. rewrite move_lookup, Hr.
  simpl. unfold moved.
  destruct (parent_of h c) as [q|]; repeat case_decide; try done; congruence.
Qed.

Lemma move_children_source p h c q :
  parent_of h c = Some q → p ≠ q → q ≠ c →
  children_of (move p h c) q = filter (λ x, x ≠ c) (children_of h q).
Proof.
  intros Hq Hp Hc. unfold children_of. rewrite move_lookup, Hq.
  destruct (h !! q) as [r|]; [|done]. simpl. unfold moved.
  repeat case_decide; try done; congruence.
Qed.

Lemma filter_ne_head (c : nat) (xs : list nat) :
  c ∉ xs → filter (λ x, x ≠ c) (c :: xs) = xs.
Proof.
  intros Hc. rewrite filter_cons_False by (by intros ?).
  induction xs as [|x xs IH]; [done|].
  apply not_elem_of_cons in Hc as [Hx Hc].
  rewrite filter_cons_True by done. by rewrite IH.
Qed.

Lemma moving_step p q h c xs :
  moving p q h (c :: xs) → moving p q (move p h c) xs.
Proof.
  intros [Ht Hs Hp Hnd Hpq Hnt Hns].
  apply NoDup_cons in Hnd as [Hc Hnd].
  apply not_elem_of_cons in Hnt as [Hpc Hnt].
  apply not_elem_of_cons in Hns as [Hqc Hns].
  assert (Hcq : parent_of h c = Some q) by (apply Hp; left).
  split; try done.
  - destruct Ht as [r Hr]. rewrite move_lookup, Hr. by eexists.
  - rewrite (move_children_source p h c q) by done.
    rewrite Hs. by apply filter_ne_head.
  - intros x Hx. rewrite move_parent_other by (intros ->; done).
    apply Hp. by right.
Qed.

(** Where a run of moves ends. *)
Lemma moves_done p q (xs : list nat) :
  ∀ h ys,
    moving p q h xs → children_of h p = ys →
    let h' := foldl (move p) h xs in
    length h' = length h
    ∧ children_of h' p = ys ++ xs
    ∧ children_of h' q = []
    ∧ (∀ x, x ∈ xs → parent_of h' x = Some p)
    ∧ (∀ i, i ≠ p → i ≠ q → i ∉ xs → h' !! i = h !! i)
    ∧ (∀ i, i ≠ p → i ≠ q → skel <$> h' !! i = skel <$> h !! i)
    ∧ (∀ i, kind_of h' i = kind_of h i)
    ∧ (∀ i, i ∉ xs → parent_of h' i = parent_of h i).
Proof.
  induction xs as [|c xs IH]; intros h ys Hm Hys; simpl.
  - rewrite app_nil_r. destruct Hm as [_ Hs _ _ _ _ _].
    do 3 (split; [done|]). split; [|done].
    intros x Hx. by apply elem_of_nil in Hx.
  - pose proof (moving_step p q h c xs Hm) as Hm1.
    destruct Hm as [Ht Hs Hp Hnd Hpq Hnt Hns].
    apply NoDup_cons in Hnd as [Hc Hnd].
    apply not_elem_of_cons in Hnt as [Hpc Hnt].
    apply not_elem_of_cons in Hns as [Hqc Hns].
    assert (Hcq : parent_of h c = Some q) by (apply Hp; left).
    assert (Hys1 : children_of (move p h c) p = ys ++ [c]).
    { rewrite (move_children_target p h c (Some q)) by (done || congruence).
      by rewrite Hys. }
    destruct (IH (move p h c) (ys ++ [c]) Hm1 Hys1)
      as (Hlen & Hcp & Hcs & Hpar & Hoth & Hsk & Hk & Hpo).
    split; [by rewrite Hlen, move_length|].
    split; [by rewrite Hcp, <- app_assoc|].
    split; [done|].
    split.
    { intros x [->|Hx]%elem_of_cons; [|by apply Hpar].
      unfold parent_of. rewrite Hoth by done. fold (parent_of (move p h c) c).
      apply move_parent. unfold parent_of in Hcq.
      destruct (h !! c); [eauto|done]. }
    split.
    { intros i Hip Hiq Hi. apply not_elem_of_cons in Hi as [Hic Hi].
      rewrite Hoth by done. apply (move_other p h c (Some q)); congruence. }
    split.
    { intros i Hip Hiq. rewrite Hsk by done.
      apply (move_skel p h c (Some q)); congruence. }
    split; [intros i; by rewrite Hk, move_kind|].
    intros i Hi. apply not_elem_of_cons in Hi as [Hic Hi].
    rewrite Hpo by done. by apply move_parent_other.
Qed.

End move_props.

(** * Fragments: the steps of [_frag] *)

Section frag_lemmas.
Import Dom.

Lemma flat_root n par t :
  ∃ cs ct,
    flat n par t !! 0
    = Some {| nkind := root t; parentNode := par; childNodes := cs; content := ct |}.
Proof. destruct t as [k cont kids]. rewrite flat_unfold. by eexists _, _. Qed.

Lemma shape_root fuel h n t :
  shape fuel h n = Some t → kind_of h n = Some (root t).
Proof.
  destruct fuel as [|fuel]; simpl; [done|]. unfold kind_of.
  destruct (h !! n) as [r|]; [|done]. simpl.
  destruct (mapM (shape fuel h) (childNodes r)) as [kids|]; [|done]. simpl.
  destruct (content r) as [c|]; [|by intros [= <-]].
  destruct (shape fuel h c); [|done]. by intros [= <-].
Qed.

Lemma child_ids_ge ts : ∀ m x, x ∈ child_ids m ts → m ≤ x.
Proof.
  induction ts as [|t ts IH]; intros m x; simpl.
  - by intros ?%elem_of_nil.
  - intros [->|Hx]%elem_of_cons; [done|]. apply IH in Hx. lia.
Qed.

Lemma size_pos t : 0 < size t.
Proof. destruct t. simpl. lia. Qed.

Lemma child_ids_NoDup ts : ∀ m, NoDup (child_ids m ts).
Proof.
  induction ts as [|t ts IH]; intros m; simpl; [constructor|].
  constructor; [|apply IH].
  intros Hm%child_ids_ge. pose proof (size_pos t). lia.
Qed.

Lemma length_child_ids ts : ∀ m, length (child_ids m ts) = length ts.
Proof. induction ts as [|t ts IH]; intros m; simpl; [done|]. by rewrite IH. Qed.

(** A forest whose nodes stand in the heap from [m] on, as children of
    [par]: each root is where [child_ids] says, with its kind, its parent
    and its subtree. *)
Lemma forest_in_heap (h : heap) par ts :
  ∀ m,
    (∀ j r, flat_forest m par ts !! j = Some r → h !! (m + j) = Some r) →
    Forall2 (λ x t, kind_of h x = Some (root t) ∧ parent_of h x = par ∧ laid h x t)
            (child_ids m ts) ts.
Proof.
  induction ts as [|t ts IH]; intros m Hin; simpl; [constructor|].
  constructor.
  - destruct (flat_root m par t) as (cs & ct & Hr).
    assert (H0 : h !! m = Some (Node (root t) par cs ct)).
    { rewrite <- (Nat.add_0_r m) at 1. apply Hin. simpl.
      by apply lookup_app_l_Some. }
    unfold kind_of, parent_of. rewrite H0. simpl.
    split; [done|]. split; [done|].
    intros j r Hj.
    destruct (lookup_skel_inv _ (flat m par t) j r (skel_flat_parent t _ _ _) Hj)
      as (r' & Hr' & <-).
    rewrite (Hin j r'); [done|]. simpl. by apply lookup_app_l_Some.
  - apply IH. intros j r Hj. rewrite <- Nat.add_assoc. apply Hin. simpl.
    rewrite lookup_app_r; rewrite length_flat; [|lia].
    by replace (size t + j - size t) with j by lia.
Qed.

Lemma forest_moving (h : heap) (p q m : nat) (ts : list tree) :
  p < m → q < m → p ≠ q →
  is_Some (h !! p) →
  children_of h q = child_ids m ts →
  (∀ j r, flat_forest m (Some q) ts !! j = Some r → h !! (m + j) = Some r) →
  moving p q h (child_ids m ts).
Proof.
  intros Hpm Hqm Hpq Hp Hcq Hin.
  pose proof (forest_in_heap h (Some q) ts m Hin) as Hforest.
  split; try done.
  - intros x Hx. apply list_elem_of_lookup in Hx as [i Hi].
    destruct (Forall2_lookup_l _ _ _ _ _ Hforest Hi) as (t & _ & _ & Hpar & _).
    done.
  - apply child_ids_NoDup.
  - intros Hx%child_ids_ge. lia.
  - intros Hx%child_ids_ge. lia.
Qed.

(** The children of [q], just laid out from [m] on, are moved under [p]:
    [p] gets them in order, [q] is left empty, the subtrees stand as they
    stood, and the cells below [m] other than [p] and [q] are as before. *)
Lemma forest_moved (h : heap) (p q m : nat) (ts : list tree) :
  p < m → q < m → p ≠ q →
  is_Some (h !! p) → children_of h p = [] →
  children_of h q = child_ids m ts →
  (∀ j r, flat_forest m (Some q) ts !! j = Some r → h !! (m + j) = Some r) →
  let h' := foldl (move p) h (child_ids m ts) in
  length h' = length h
  ∧ children_of h' p = child_ids m ts
  ∧ children_of h' q = []
  ∧ (∀ i, i < m → i ≠ p → i ≠ q → h' !! i = h !! i)
  ∧ (∀ i, kind_of h' i = kind_of h i)
  ∧ (∀ i, i < m → parent_of h' i = parent_of h i)
  ∧ Forall2 (λ x t, m ≤ x ∧ kind_of h' x = Some (root t)
                    ∧ parent_of h' x = Some p ∧ laid h' x t)
            (child_ids m ts) ts.
Proof.
  intros Hpm Hqm Hpq Hp Hcp Hcq Hin.
  pose proof (forest_in_heap h (Some q) ts m Hin) as Hforest.
  pose proof (forest_moving h p q m ts Hpm Hqm Hpq Hp Hcq Hin) as Hm.
  destruct (moves_done p q (child_ids m ts) h [] Hm Hcp)
    as (Hlen & Hcp' & Hcq' & Hpar & Hoth & Hsk & Hk & Hpo).
  split; [done|]. split; [done|]. split; [done|].
  split.
  { intros i Hi Hip Hiq. apply Hoth; [done..|].
    intros Hx%child_ids_ge. lia. }
  split; [done|].
  split.
  { intros i Hi. apply Hpo. intros Hx%child_ids_ge. lia. }
  apply Forall2_same_length_lookup. split.
  { by rewrite length_child_ids. }
  intros i x t Hx Ht.
  destruct (Forall2_lookup_lr _ _ _ _ _ _ Hforest Hx Ht) as (Hkx & _ & Hl).
  assert (Hxin : x ∈ child_ids m ts) by (apply list_elem_of_lookup; eauto).
  pose proof (child_ids_ge ts m x Hxin).
  split; [done|]. split; [by rewrite Hk|]. split; [by apply Hpar|].
  apply (laid_skel h); [|done]. intros j _. apply Hsk; lia.
Qed.

(** The loop of [_frag] on a string is a run of moves. *)
Lemma move_children_moves (xs : list nat) :
  ∀ fuel h tmp frag,
    moving frag tmp h xs →
    (∃ k, kind_of h frag = Some k ∧ may_have_children k = true) →
    (∀ x, x ∈ xs →
       ∃ k, kind_of h x = Some k ∧ may_be_child k = true ∧ is_fragment k = false) →
    length xs < fuel →
    move_children fuel h tmp frag = Some (Ok (foldl (move frag) h xs)).
Proof.
  induction xs as [|x xs IH]; intros fuel h tmp frag Hm Hf Hxs Hfuel;
    (destruct fuel as [|fuel]; [simpl in Hfuel; lia|]); simpl.
  - unfold firstChild. by rewrite (moving_source _ _ _ _ Hm).
  - unfold firstChild. rewrite (moving_source _ _ _ _ Hm). simpl.
    destruct Hf as (kf & Hkf & Hmay).
    destruct (Hxs x) as (kx & Hkx & Hchild & Hnf); [left|].
    unfold appendChild. rewrite Hkf, Hkx, Hmay, Hchild, Hnf. simpl.
    apply IH.
    + by apply moving_step.
    + exists kf. by rewrite move_kind.
    + intros y Hy. rewrite move_kind. apply Hxs. by right.
    + simpl in Hfuel. lia.
Qed.

End frag_lemmas.

(** * Properties of [_frag] and [_parseOne] *)

Section frag_props.
Import Dom.

Variable parseHTML : string → list markup.

Lemma root_tree_of (m : markup) :
  may_be_child (root (tree_of m)) = true ∧ is_fragment (root (tree_of m)) = false.
Proof. by destruct m. Qed.

Lemma createDocumentFragment_eq h :
  createDocumentFragment h = (h ++ [empty_fragment], length h).
Proof. done. Qed.

Lemma makeEl_div_eq h : _makeEl "div" h = (h ++ [div_element], length h).
Proof. done. Qed.

Lemma frag_of_nothing fuel h content_ cloneEls :
  content_truthy content_ = false →
  _frag parseHTML fuel h content_ cloneEls
  = Some (Ok (h ++ [empty_fragment], length h)).
Proof. intros Hc. unfold _frag. rewrite createDocumentFragment_eq. by rewrite Hc. Qed.

Lemma frag_of_string fuel h s cloneEls :
  s ≠ "" → length (parseHTML s) < fuel →
  ∃ h',
    _frag parseHTML fuel h (CStr s) cloneEls = Some (Ok (h', length h))
    ∧ (∀ i, i < length h → h' !! i = h !! i)
    ∧ kind_of h' (length h) = Some KFragment
    ∧ parent_of h' (length h) = None
    ∧ Forall2 (λ x t, length h < x
                      ∧ parent_of h' x = Some (length h)
                      ∧ laid h' x t
                      ∧ shape (depth t) h' x = Some t)
              (children_of h' (length h)) (tree_of <$> parseHTML s).
Proof.
  intros Hs Hfuel. unfold _frag.
  rewrite createDocumentFragment_eq, makeEl_div_eq.
  assert (Htr : content_truthy (CStr s) = true).
  { simpl. by destruct (String.eqb_spec s ""). }
  rewrite Htr. cbn [negb].
  set (f := length h). set (ts := tree_of <$> parseHTML s).
  set (h2 := (h ++ [empty_fragment]) ++ [div_element]).
  assert (Htmp : length (h ++ [empty_fragment]) = S f).
  { rewrite length_app. simpl. unfold f. lia. }
  assert (Hlen2 : length h2 = S (S f)).
  { unfold h2. rewrite length_app, Htmp. simpl. lia. }
  rewrite Htmp.
  assert (Hno : children_of h2 (S f) = []).
  { unfold children_of, h2. rewrite lookup_app_r by lia.
    rewrite Htmp, Nat.sub_diag. done. }
  unfold set_innerHTML. fold h2. rewrite Hno. cbn [foldl]. rewrite Hlen2. fold ts.
  set (h3 := alter _ (S f) h2 ++ _).
  assert (Hold : ∀ i, i < S (S f) → i ≠ S f → h3 !! i = h2 !! i).
  { intros i Hi Hne. unfold h3.
    rewrite lookup_app_l by (rewrite length_alter; lia).
    by rewrite list_lookup_alter_ne. }
  assert (Hf : h3 !! f = Some empty_fragment).
  { rewrite Hold by lia. unfold h2.
    rewrite lookup_app_l by lia. rewrite lookup_app_r by (unfold f; lia).
    unfold f. by rewrite Nat.sub_diag. }
  assert (Hdiv : children_of h3 (S f) = child_ids (S (S f)) ts).
  { unfold children_of, h3. rewrite lookup_app_l by (rewrite length_alter; lia).
    rewrite list_lookup_alter_eq. unfold h2.
    rewrite lookup_app_r by lia. by rewrite Htmp, Nat.sub_diag. }
  assert (Hin : ∀ j r, flat_forest (S (S f)) (Some (S f)) ts !! j = Some r →
                       h3 !! (S (S f) + j) = Some r).
  { intros j r Hj. unfold h3. rewrite lookup_app_r; rewrite length_alter, Hlen2; [|lia].
    by replace (S (S f) + j - S (S f)) with j by lia. }
  assert (Hfp : is_Some (h3 !! f)) by eauto.
  pose proof (forest_in_heap h3 (Some (S f)) ts (S (S f)) Hin) as Hforest.
  pose proof (forest_moving h3 f (S f) (S (S f)) ts
                ltac:(lia) ltac:(lia) ltac:(lia) Hfp Hdiv Hin) as Hm.
  rewrite (move_children_moves (child_ids (S (S f)) ts) fuel h3 (S f) f Hm).
  - destruct (forest_moved h3 f (S f) (S (S f)) ts) as
      (Hlen & Hcp & Hcq & Hoth & Hk & Hpo & Hkids);
      [lia|lia|lia|done|by unfold children_of; rewrite Hf|done|done|].
    eexists. split; [done|].
    split.
    { intros i Hi. rewrite Hoth by lia. rewrite Hold by lia.
      unfold h2. by rewrite !lookup_app_l by (rewrite ?length_app; simpl; lia). }
    split; [by rewrite Hk; unfold kind_of; rewrite Hf|].
    split.
    { rewrite Hpo by lia. unfold parent_of. by rewrite Hf. }
    rewrite Hcp. eapply Forall2_impl; [exact Hkids|].
    intros x t (Hx & _ & Hpar & Hl). split; [lia|]. split; [done|]. split; [done|].
    by apply shape_laid.
  - exists KFragment. unfold kind_of. by rewrite Hf.
  - intros x Hx. apply list_elem_of_lookup in Hx as [i Hi].
    destruct (Forall2_lookup_l _ _ _ _ _ Hforest Hi) as (t & Ht & Hkx & _ & _).
    exists (root t). split; [done|].
    unfold ts in Ht. rewrite list_lookup_fmap in Ht.
    destruct (parseHTML s !! i) as [mk|]; [|done]. injection Ht as <-.
    apply root_tree_of.
  - rewrite length_child_ids. unfold ts. by rewrite length_fmap.
Qed.

Lemma lookup_with_fragment h i :
  i < length h → (h ++ [empty_fragment]) !! i = h !! i.
Proof. intros Hi. by apply lookup_app_l. Qed.

Lemma kind_of_Some_lt h n k : kind_of h n = Some k → n < length h.
Proof.
  unfold kind_of. destruct (h !! n) eqn:Hn; [|done]. intros _.
  by apply lookup_lt_Some in Hn.
Qed.

Lemma frag_of_template fuel h n c cont kids cloneEls :
  kind_of h n = Some KTemplate →
  content_of h n = Some c →
  shape fuel h c = Some (Tree KFragment cont kids) →
  ∃ h',
    _frag parseHTML fuel h (CNode n) cloneEls = Some (Ok (h', length h))
    ∧ (∀ i, i < length h → h' !! i = h !! i)
    ∧ kind_of h' (length h) = Some KFragment
    ∧ parent_of h' (length h) = None
    ∧ Forall2 (λ x t, length h < x
                      ∧ parent_of h' x = Some (length h)
                      ∧ laid h' x t
                      ∧ shape fuel h' x = Some t)
              (children_of h' (length h)) kids.
Proof.
  intros Hk Hc Hshape. unfold _frag. rewrite createDocumentFragment_eq.
  cbn [content_truthy negb].
  pose proof (kind_of_Some_lt h n _ Hk) as Hn.
  set (f := length h). set (h1 := h ++ [empty_fragment]).
  assert (Hlen1 : length h1 = S f).
  { unfold h1. rewrite length_app. simpl. unfold f. lia. }
  assert (Hk1 : kind_of h1 n = Some KTemplate).
  { unfold kind_of, h1. by rewrite lookup_with_fragment. }
  assert (Hc1 : content_of h1 n = Some c).
  { unfold content_of, h1. by rewrite lookup_with_fragment. }
  rewrite bool_decide_eq_true_2 by done. rewrite Hc1.
  assert (Hshape1 : shape fuel h1 c = Some (Tree KFragment cont kids)).
  { apply (shape_ext fuel h); [|done]. intros i r Hi. unfold h1.
    rewrite lookup_with_fragment by (by apply lookup_lt_Some in Hi).
    by rewrite Hi. }
  unfold cloneNode. rewrite Hshape1. cbn [mbind option_bind]. rewrite Hlen1.
  set (t := Tree KFragment cont kids).
  set (h2 := h1 ++ flat (S f) None t).
  set (m := S (S f) + content_size cont).
  assert (Hold2 : ∀ i, i < S f → h2 !! i = h1 !! i).
  { intros i Hi. unfold h2. by rewrite lookup_app_l by lia. }
  assert (Hf : h2 !! f = Some empty_fragment).
  { rewrite Hold2 by lia. unfold h1. rewrite lookup_app_r by (unfold f; lia).
    unfold f. by rewrite Nat.sub_diag. }
  assert (Hcopy : h2 !! S f
                  = Some {| nkind := KFragment; parentNode := None;
                            childNodes := child_ids m kids;
                            content := match cont with
                                       | Some _ => Some (S (S f))
                                       | None => None
                                       end |}).
  { unfold h2. rewrite lookup_app_r by lia. rewrite Hlen1, Nat.sub_diag.
    unfold t. by rewrite flat_unfold. }
  assert (Hin : ∀ j r, flat_forest m (Some (S f)) kids !! j = Some r →
                       h2 !! (m + j) = Some r).
  { intros j r Hj. unfold h2. rewrite lookup_app_r by (unfold m; lia).
    rewrite Hlen1. unfold t. rewrite flat_unfold. unfold layout.
    replace (m + j - S f) with (S (content_size cont + j)) by (unfold m; lia).
    simpl. rewrite lookup_app_r.
    - replace (length _) with (content_size cont)
        by (destruct cont; [by rewrite length_flat|done]).
      by replace (content_size cont + j - content_size cont) with j by lia.
    - replace (length _) with (content_size cont)
        by (destruct cont; [by rewrite length_flat|done]).
      lia. }
  assert (Hkf : kind_of h2 f = Some KFragment) by (by unfold kind_of; rewrite Hf).
  assert (Hkc : kind_of h2 (S f) = Some KFragment)
    by (by unfold kind_of; rewrite Hcopy).
  unfold appendChild. rewrite Hkf, Hkc.
  cbn [may_have_children may_be_child is_fragment andb].
  assert (Hcq : children_of h2 (S f) = child_ids m kids).
  { unfold children_of. by rewrite Hcopy. }
  rewrite Hcq.
  destruct (forest_moved h2 f (S f) m kids) as
    (Hlen & Hcp & _ & Hoth & Hkk & Hpo & Hkids);
    [unfold m; lia|unfold m; lia|lia|eauto|by unfold children_of; rewrite Hf
    |done|done|].
  eexists. split; [done|].
  split.
  { intros i Hi. rewrite Hoth by (unfold m; lia). rewrite Hold2 by lia.
    by apply lookup_with_fragment. }
  split; [by rewrite Hkk|].
  split; [by rewrite Hpo by (unfold m; lia); unfold parent_of; rewrite Hf|].
  rewrite Hcp. apply shape_depth in Hshape. unfold t in Hshape.
  rewrite depth_unfold in Hshape.
  assert (Hdk : Forall (λ t, depth t ≤ fuel) kids).
  { clear -Hshape. assert (Hd : forest_depth kids ≤ fuel) by lia. clear Hshape.
    induction kids as [|k ks IH]; constructor; simpl in Hd; [lia|apply IH; lia]. }
  apply Forall2_same_length_lookup. split; [by rewrite length_child_ids|].
  intros i x tk Hx Htk.
  destruct (Forall2_lookup_lr _ _ _ _ _ _ Hkids Hx Htk) as (Hge & _ & Hpar & Hl).
  split; [unfold m in Hge; lia|]. split; [done|]. split; [done|].
  apply shape_laid; [|done]. eapply Forall_lookup_1 in Hdk; eauto.
Qed.

Lemma frag_of_clone fuel h n k t :
  kind_of h n = Some k → is_element k = true → k ≠ KTemplate →
  shape fuel h n = Some t →
  ∃ h',
    _frag parseHTML fuel h (CNode n) true = Some (Ok (h', length h))
    ∧ (∀ i, i < length h → h' !! i = h !! i)
    ∧ kind_of h' (length h) = Some KFragment
    ∧ parent_of h' (length h) = None
    ∧ children_of h' (length h) = [S (length h)]
    ∧ parent_of h' (S (length h)) = Some (length h)
    ∧ laid h' (S (length h)) t
    ∧ shape fuel h' (S (length h)) = Some t.
Proof.
  intros Hk Hel Hnt Hshape. unfold _frag. rewrite createDocumentFragment_eq.
  cbn [content_truthy negb].
  pose proof (kind_of_Some_lt h n _ Hk) as Hn.
  set (f := length h). set (h1 := h ++ [empty_fragment]).
  assert (Hlen1 : length h1 = S f).
  { unfold h1. rewrite length_app. simpl. unfold f. lia. }
  assert (Hk1 : kind_of h1 n = Some k).
  { unfold kind_of, h1. by rewrite lookup_with_fragment. }
  rewrite bool_decide_eq_false_2 by congruence. rewrite Hk1. simpl default.
  rewrite Hel.
  assert (Hshape1 : shape fuel h1 n = Some t).
  { apply (shape_ext fuel h); [|done]. intros i r Hi. unfold h1.
    rewrite lookup_with_fragment by (by apply lookup_lt_Some in Hi).
    by rewrite Hi. }
  unfold cloneNode. rewrite Hshape1. cbn [mbind option_bind]. rewrite Hlen1.
  set (h2 := h1 ++ flat (S f) None t).
  assert (Hold2 : ∀ i, i < S f → h2 !! i = h1 !! i).
  { intros i Hi. unfold h2. by rewrite lookup_app_l by lia. }
  assert (Hf : h2 !! f = Some empty_fragment).
  { rewrite Hold2 by lia. unfold h1. rewrite lookup_app_r by (unfold f; lia).
    unfold f. by rewrite Nat.sub_diag. }
  destruct (flat_root (S f) None t) as (cs & ct & Hroot).
  assert (Hcopy : h2 !! S f = Some (Node (root t) None cs ct)).
  { unfold h2. rewrite lookup_app_r by lia. by rewrite Hlen1, Nat.sub_diag. }
  assert (Hrt : root t = k).
  { apply shape_root in Hshape. congruence. }
  assert (Hkf : kind_of h2 f = Some KFragment) by (by unfold kind_of; rewrite Hf).
  assert (Hkc : kind_of h2 (S f) = Some k)
    by (by unfold kind_of; rewrite Hcopy, <- Hrt).
  assert (Hpc : parent_of h2 (S f) = None) by (by unfold parent_of; rewrite Hcopy).
  unfold appendChild. rewrite Hkf, Hkc.
  assert (Hchild : may_be_child k = true) by (by destruct k).
  assert (Hnf : is_fragment k = false) by (by destruct k).
  rewrite Hchild, Hnf. cbn [may_have_children andb].
  eexists. split; [done|].
  split.
  { intros i Hi. rewrite (move_other f h2 (S f) None) by (done || lia).
    rewrite Hold2 by lia. by apply lookup_with_fragment. }
  split; [by rewrite move_kind|].
  split; [by rewrite move_parent_other by lia; unfold parent_of; rewrite Hf|].
  split.
  { rewrite (move_children_target f h2 (S f) None) by (done || eauto || lia).
    unfold children_of. by rewrite Hf. }
  split; [apply move_parent; eauto|].
  assert (Hl : laid (move f h2 (S f)) (S f) t).
  { apply (laid_skel h2).
    - intros j _. apply (move_skel f h2 (S f) None); [done|lia|done].
    - unfold h2. rewrite <- Hlen1. apply laid_alloc. }
  split; [done|]. apply shape_laid; [|done]. by apply shape_depth in Hshape.
Qed.

Lemma frag_of_adopt fuel h n k :
  kind_of h n = Some k → is_element k = true → k ≠ KTemplate →
  (∀ q, parent_of h n = Some q → q < length h ∧ q ≠ n) →
  ∃ h',
    _frag parseHTML fuel h (CNode n) false = Some (Ok (h', length h))
    ∧ length h' = S (length h)
    ∧ kind_of h' (length h) = Some KFragment
    ∧ parent_of h' (length h) = None
    ∧ children_of h' (length h) = [n]
    ∧ parent_of h' n = Some (length h)
    ∧ skel <$> h' !! n = skel <$> h !! n
    ∧ (∀ q, parent_of h n = Some q →
         children_of h' q = filter (λ x, x ≠ n) (children_of h q)
         ∧ n ∉ children_of h' q)
    ∧ (∀ i, i < length h → i ≠ n → Some i ≠ parent_of h n → h' !! i = h !! i).
Proof.
  intros Hk Hel Hnt Hwf. unfold _frag. rewrite createDocumentFragment_eq.
  cbn [content_truthy negb].
  pose proof (kind_of_Some_lt h n _ Hk) as Hn.
  set (f := length h). set (h1 := h ++ [empty_fragment]).
  assert (Hlen1 : length h1 = S f).
  { unfold h1. rewrite length_app. simpl. unfold f. lia. }
  assert (Hold : ∀ i, i < f → h1 !! i = h !! i).
  { intros i Hi. by apply lookup_with_fragment. }
  assert (Hk1 : kind_of h1 n = Some k) by (by unfold kind_of; rewrite Hold).
  assert (Hp1 : parent_of h1 n = parent_of h n)
    by (by unfold parent_of; rewrite Hold).
  assert (Hf : h1 !! f = Some empty_fragment).
  { unfold h1. rewrite lookup_app_r by (unfold f; lia).
    unfold f. by rewrite Nat.sub_diag. }
  assert (Hkf : kind_of h1 f = Some KFragment) by (by unfold kind_of; rewrite Hf).
  assert (Hfq : Some f ≠ parent_of h n).
  { intros Heq. symmetry in Heq. apply Hwf in Heq as [Heq _]. unfold f in Heq. lia. }
  rewrite bool_decide_eq_false_2 by congruence. rewrite Hk1. simpl default.
  rewrite Hel. unfold appendChild. rewrite Hkf, Hk1.
  assert (Hchild : may_be_child k = true) by (by destruct k).
  assert (Hnf : is_fragment k = false) by (by destruct k).
  rewrite Hchild, Hnf. cbn [may_have_children andb].
  eexists. split; [done|].
  split; [by rewrite move_length|].
  split; [by rewrite move_kind|].
  split; [by rewrite move_parent_other by lia; unfold parent_of; rewrite Hf|].
  split.
  { rewrite (move_children_target f h1 n (parent_of h n)) by (done || eauto || lia).
    unfold children_of. by rewrite Hf. }
  split.
  { apply move_parent. unfold kind_of in Hk1. destruct (h1 !! n); [eauto|done]. }
  split.
  { rewrite <- (Hold n) by done. rewrite move_lookup, Hp1.
    destruct (h1 !! n) as [r|] eqn:Hr; [|done]. simpl. f_equal.
    unfold moved. destruct (parent_of h n) as [q|] eqn:Hq.
    - destruct (Hwf q eq_refl) as [Hqf Hqn].
      repeat case_decide; try done; unfold f in *; lia.
    - repeat case_decide; try done; unfold f in *; lia. }
  split.
  { intros q Hq. destruct (Hwf q Hq) as [Hqf Hqn].
    assert (Hc : children_of (move f h1 n) q
                 = filter (λ x, x ≠ n) (children_of h q)).
    { rewrite (move_children_source f h1 n q) by (congruence || lia).
      unfold children_of. by rewrite Hold. }
    split; [done|]. rewrite Hc. intros Hin%list_elem_of_filter. by destruct Hin. }
  intros i Hi Hin Hiq. rewrite (move_other f h1 n (parent_of h n)) by (done || lia).
  by apply Hold.
Qed.

Lemma parseOne_of_frag fuel h content_ cloneEls h' frag :
  _frag parseHTML fuel h content_ cloneEls = Some (Ok (h', frag)) →
  _parseOne parseHTML fuel h content_ cloneEls
  = Some (Ok (h', only_child_or_self h' frag)).
Proof.
  intros Hfrag. unfold _parseOne, only_child_or_self, firstChild. rewrite Hfrag.
  by destruct (children_of h' frag) as [|x [|y l]].
Qed.

(** C6.  (1) For [undefined], [null] or the empty string [frag] returns a
    new, empty fragment and changes nothing else.  (2) For a non-empty
    string it returns a new fragment whose children are the nodes the
    parser made of the string, in order: new nodes, each with the subtree
    parsed for it; the loop needs one turn per parsed node and one to
    leave.  (3) [parseOne] returns the only child of the fragment [frag]
    builds when it has exactly one child, and the fragment otherwise. *)
Theorem frag_holds_the_parsed_nodes (h : heap) (cloneEls : bool) :
  (∀ fuel content_, content_truthy content_ = false →
     _frag parseHTML fuel h content_ cloneEls
     = Some (Ok (h ++ [empty_fragment], length h)))
  ∧ (∀ fuel s, s ≠ "" → length (parseHTML s) < fuel →
     ∃ h',
       _frag parseHTML fuel h (CStr s) cloneEls = Some (Ok (h', length h))
       ∧ (∀ i, i < length h → h' !! i = h !! i)
       ∧ kind_of h' (length h) = Some KFragment
       ∧ parent_of h' (length h) = None
       ∧ Forall2 (λ x t, length h < x
                         ∧ parent_of h' x = Some (length h)
                         ∧ laid h' x t
                         ∧ shape (depth t) h' x = Some t)
                 (children_of h' (length h)) (tree_of <$> parseHTML s))
  ∧ (∀ fuel content_ h' frag,
       _frag parseHTML fuel h content_ cloneEls = Some (Ok (h', frag)) →
       _parseOne parseHTML fuel h content_ cloneEls
       = Some (Ok (h', match children_of h' frag with
                       | [el] => el
                       | _ => frag
                       end))).
Proof.
  split; [intros; by apply frag_of_nothing|].
  split; [intros; by apply frag_of_string|].
  intros. by apply parseOne_of_frag.
Qed.

(** C7.  (1) For a template, [frag] returns a new fragment whose children
    are new nodes with the subtrees of the children of the template's
    content, in order, and no node that was there changes: neither the
    template nor what it holds.  (2) For another element with the clone
    flag, the fragment has one child, a new node with the subtree of the
    element, and no node that was there changes.  (3) For another element
    without the flag, the element itself is the one child of the fragment;
    it keeps its kind and its children, its parent is the fragment, its
    old parent has lost it, and the other nodes are as before. *)
Theorem frag_clones_or_adopts (h : heap) (n : nat) :
  (∀ fuel c cont kids cloneEls,
     kind_of h n = Some KTemplate →
     content_of h n = Some c →
     shape fuel h c = Some (Tree KFragment cont kids) →
     ∃ h',
       _frag parseHTML fuel h (CNode n) cloneEls = Some (Ok (h', length h))
       ∧ (∀ i, i < length h → h' !! i = h !! i)
       ∧ kind_of h' (length h) = Some KFragment
       ∧ parent_of h' (length h) = None
       ∧ Forall2 (λ x t, length h < x
                         ∧ parent_of h' x = Some (length h)
                         ∧ laid h' x t
                         ∧ shape fuel h' x = Some t)
                 (children_of h' (length h)) kids)
  ∧ (∀ fuel k t,
       kind_of h n = Some k → is_element k = true → k ≠ KTemplate →
       shape fuel h n = Some t →
       ∃ h',
         _frag parseHTML fuel h (CNode n) true = Some (Ok (h', length h))
         ∧ (∀ i, i < length h → h' !! i = h !! i)
         ∧ kind_of h' (length h) = Some KFragment
         ∧ parent_of h' (length h) = None
         ∧ children_of h' (length h) = [S (length h)]
         ∧ parent_of h' (S (length h)) = Some (length h)
         ∧ laid h' (S (length h)) t
         ∧ shape fuel h' (S (length h)) = Some t)
  ∧ (∀ fuel k,
       kind_of h n = Some k → is_element k = true → k ≠ KTemplate →
       (∀ q, parent_of h n = Some q → q < length h ∧ q ≠ n) →
       ∃ h',
         _frag parseHTML fuel h (CNode n) false = Some (Ok (h', length h))
         ∧ length h' = S (length h)
         ∧ kind_of h' (length h) = Some KFragment
         ∧ parent_of h' (length h) = None
         ∧ children_of h' (length h) = [n]
         ∧ parent_of h' n = Some (length h)
         ∧ skel <$> h' !! n = skel <$> h !! n
         ∧ (∀ q, parent_of h n = Some q →
              children_of h' q = filter (λ x, x ≠ n) (children_of h q)
              ∧ n ∉ children_of h' q)
         ∧ (∀ i, i < length h → i ≠ n → Some i ≠ parent_of h n →
              h' !! i = h !! i)).
Proof.
  split; [intros; by eapply frag_of_template|].
  split; [intros; by eapply frag_of_clone|].
  intros. by eapply frag_of_adopt.
Qed.

End frag_props.

(** * The document of the samples *)

Section dom_samples.
Import Dom DomSample.

(** The search at work: the nearest [div] above the [span], the [span]
    itself when it may be returned, nothing when no ancestor below the
    body matches. *)
Example parent_sample :
  _parent matches_tag 9 page_env page (Val 7) (Val "div") false = Some (Ok (Some 6))
  ∧ _parent matches_tag 9 page_env page (Val 7) (Val "span") true = Some (Ok (Some 7))
  ∧ _parent matches_tag 9 page_env page (Val 7) (Val "span") false = Some (Ok None)
  ∧ _parent matches_tag 9 page_env page (Val 7) (Val "body") false = Some (Ok None)
  ∧ _parent matches_tag 9 page_env page (Val 4) (Val "html") false = Some (Ok (Some 2)).
Proof. repeat split; reflexivity. Qed.

(** C3 fails above the head: from [<title>], with a selector that meets no
    ancestor, the walk passes [<head>] and [<html>], reaches the document,
    which has no [matches], and the call throws. *)
Theorem parent_throws_above_the_head (fuel : nat) :
  _parent matches_tag (3 + fuel) page_env page (Val 4) (Val "div") false
  = Some (Throw TypeError).
Proof. reflexivity. Qed.

(** C4 as stated fails twice: the empty string is a selector that is given,
    and the call throws the error for a missing argument; and from
    [<title>], which is none of the four nodes, with a selector that is
    given, the call throws all the same. *)
Lemma parent_throws_in_other_cases :
  _parent matches_tag 9 page_env page (Val 7) (Val "") false
  = Some (Throw (Error "node and selector must be given"))
  ∧ disallowed page_env 4 = false
  ∧ _parent matches_tag 9 page_env page (Val 4) (Val "div") false
    = Some (Throw TypeError).
Proof. repeat split; reflexivity. Qed.

Lemma upward_from_span :
  upward page_env page (parent_of page 7) [6] AtBody.
Proof.
  change (parent_of page 7) with (Some 6).
  apply upward_step; [done|].
  change (parent_of page 6) with (Some 5). by apply upward_body.
Qed.

Lemma parent_returns_the_nearest_match_witness :
  ("div" ≠ "" ∧ disallowed page_env 7 = false
   ∧ upward page_env page (parent_of page 7) [6] AtBody
   ∧ all_elements page [6] ∧ length [6] < 9)
  ∧ _parent matches_tag 9 page_env page (Val 7) (Val "div") false
    = Some (Ok (nearest (λ m, matches_tag page m "div") [6])).
Proof.
  assert (Hel : all_elements page [6]) by (by repeat constructor).
  split.
  - split; [done|]. split; [done|]. split; [exact upward_from_span|].
    split; [exact Hel|]. simpl. lia.
  - apply (parent_returns_the_nearest_match matches_tag 9 page_env page 7 "div"
             false [6] AtBody); try done.
    + exact upward_from_span.
    + simpl. lia.
Defined.

Lemma parent_never_returns_body_witness :
  _body page_env = Some 5
  ∧ matches_tag page 5 "body" = true
  ∧ _parent matches_tag 9 page_env page (Val 7) (Val "body") false
    ≠ Some (Ok (Some 5))
  ∧ _parent matches_tag 9 page_env page (Val 7) (Val "body") false
    = Some (Ok None).
Proof.
  split; [reflexivity|]. split; [reflexivity|].
  destruct (parent_never_returns_body matches_tag 9 page_env page
              (Val 7) (Val "body") false 5 eq_refl) as [Hne Hnone].
  split; [exact Hne|].
  apply (Hnone 7 "body" [6]); try done.
  - exact upward_from_span.
  - by repeat constructor.
  - by repeat constructor.
  - simpl. lia.
Defined.

(** C10 as stated fails when no body was cached: with the script run in
    [<head>], [_body] is [null]; the walk does not stop at [<body>], and a
    selector that [<body>] matches gets it back, from below and, since the
    guard of line 119 lets it pass, from [<body>] itself as the start. *)
Lemma parent_returns_body_when_none_was_cached :
  _body DomSample2.early_env = None
  ∧ kind_of page 5 = Some (KElement "body")
  ∧ _parent matches_tag 9 DomSample2.early_env page (Val 7) (Val "body") false
    = Some (Ok (Some 5))
  ∧ _parent matches_tag 9 DomSample2.early_env page (Val 5) (Val "body") true
    = Some (Ok (Some 5)).
Proof. repeat split; reflexivity. Qed.

Lemma frag_holds_the_parsed_nodes_witness :
  ("<i></i>tail<!--note-->" ≠ ""
   ∧ length (parse_sample "<i></i>tail<!--note-->") < 4)
  ∧ ∃ h',
      _frag parse_sample 4 page (CStr "<i></i>tail<!--note-->") false
      = Some (Ok (h', length page))
      ∧ (∀ i, i < length page → h' !! i = page !! i)
      ∧ kind_of h' (length page) = Some KFragment
      ∧ parent_of h' (length page) = None
      ∧ Forall2 (λ x t, length page < x
                        ∧ parent_of h' x = Some (length page)
                        ∧ laid h' x t
                        ∧ shape (depth t) h' x = Some t)
                (children_of h' (length page))
                (tree_of <$> parse_sample "<i></i>tail<!--note-->").
Proof.
  split; [split; [done|simpl; lia]|].
  apply (proj1 (proj2 (frag_holds_the_parsed_nodes parse_sample page false)));
    [done|simpl; lia].
Defined.

(** The runs of the witness and of [parseOne], in full: three parsed nodes
    under the fragment; one parsed node, returned itself. *)
Example frag_string_sample :
  (∃ h', _frag parse_sample 4 page (CStr "<i></i>tail<!--note-->") false
         = Some (Ok (h', 13))
         ∧ children_of h' 13 = [15; 16; 17]
         ∧ kind_of h' <$> [15; 16; 17]
           = [Some (KElement "i"); Some (KText "tail"); Some (KComment "note")]
         ∧ take 13 h' = page)
  ∧ (∃ h', _parseOne parse_sample 4 page (CStr "<b>x</b>") false
           = Some (Ok (h', 15))
           ∧ shape 2 h' 15
             = Some (Tree (KElement "b") None [Tree (KText "x") None []]))
  ∧ (∃ h', _parseOne parse_sample 4 page (CStr "<i></i>tail<!--note-->") false
           = Some (Ok (h', 13)))
  ∧ (∃ h', _parseOne parse_sample 4 page CUndefined false = Some (Ok (h', 13))
           ∧ children_of h' 13 = []).
Proof.
  split; [eexists; split; [reflexivity|done]|].
  split; [eexists; split; [reflexivity|done]|].
  split; [eexists; reflexivity|].
  eexists; split; [reflexivity|done].
Qed.

Lemma frag_clones_or_adopts_witness :
  (kind_of page 9 = Some KTemplate
   ∧ content_of page 9 = Some 10
   ∧ shape 4 page 10
     = Some (Tree KFragment None
               [Tree (KElement "p") None []; Tree (KText "over") None []]))
  ∧ ∃ h',
      _frag parse_sample 4 page (CNode 9) false = Some (Ok (h', length page))
      ∧ (∀ i, i < length page → h' !! i = page !! i)
      ∧ kind_of h' (length page) = Some KFragment
      ∧ parent_of h' (length page) = None
      ∧ Forall2 (λ x t, length page < x
                        ∧ parent_of h' x = Some (length page)
                        ∧ laid h' x t
                        ∧ shape 4 h' x = Some t)
                (children_of h' (length page))
                [Tree (KElement "p") None []; Tree (KText "over") None []].
Proof.
  split; [by repeat split|].
  apply (proj1 (frag_clones_or_adopts parse_sample page 9) 4 10 None); done.
Defined.

(** The three cases on the sample page: the template's content is copied
    and the template keeps it; the [div] is copied and stays under the
    body; the [span] is moved and leaves the [div]. *)
Example frag_node_sample :
  (∃ h', _frag parse_sample 4 page (CNode 9) false = Some (Ok (h', 13))
         ∧ children_of h' 13 = [15; 16]
         ∧ children_of h' 10 = [11; 12]
         ∧ take 13 h' = page)
  ∧ (∃ h', _frag parse_sample 4 page (CNode 6) true = Some (Ok (h', 13))
           ∧ children_of h' 13 = [14]
           ∧ shape 4 h' 14 = shape 4 page 6
           ∧ children_of h' 5 = [6; 9]
           ∧ take 13 h' = page)
  ∧ (∃ h', _frag parse_sample 4 page (CNode 7) false = Some (Ok (h', 13))
           ∧ children_of h' 13 = [7]
           ∧ parent_of h' 7 = Some 13
           ∧ children_of h' 6 = []
           ∧ children_of h' 7 = [8]).
Proof.
  split; [eexists; split; [reflexivity|done]|].
  split; eexists; (split; [reflexivity|done]).
Qed.

End dom_samples.

(** * More on the object helpers *)

Section addDefaults_more.
Import Js.

(** A property that is there stays there when another is created. *)
Lemma has_property_fuel_create_mono n (st : store) l k v l0 k0 :
  has_property_fuel n st l0 k0 = true →
  has_property_fuel n (create_property st l k v) l0 k0 = true.
Proof.
  revert l0. induction n as [|n IH]; intros l0; simpl; [done|].
  rewrite lookup_create_property. destruct (decide (l = l0)) as [->|Hl].
  - destruct (st !! l0) as [o|]; simpl; [|done].
    destruct (decide (k0 = k)) as [->|Hk]; [by rewrite lookup_insert_eq|].
    rewrite lookup_insert_ne by done.
    destruct (own o !! k0); [done|]. destruct (proto o); [apply IH|done].
  - destruct (st !! l0) as [o|]; [|done].
    destruct (own o !! k0); [done|]. destruct (proto o); [apply IH|done].
Qed.

Lemma addDefaults_loop_mono (d l : loc) (keys : list string) :
  ∀ (st st' : store) l0 k,
    addDefaults_loop d (VObj l) keys st = Ok st' →
    has_property st l0 k = true → has_property st' l0 k = true.
Proof.
  induction keys as [|k0 keys IH]; intros st st' l0 k; simpl.
  - by intros [= ->].
  - destruct (has_property st l k0); simpl; [apply IH|].
    intros Hrun Hk. apply (IH _ _ _ _ Hrun).
    unfold has_property. rewrite size_create_property.
    by apply has_property_fuel_create_mono.
Qed.

(** The loop changes nothing when the object has every key. *)
Lemma addDefaults_loop_nothing_missing (d l : loc) (keys : list string) (st : store) :
  (∀ k, k ∈ keys → has_property st l k = true) →
  addDefaults_loop d (VObj l) keys st = Ok st.
Proof.
  induction keys as [|k0 keys IH]; intros Hall; simpl; [done|].
  rewrite (Hall k0) by left. simpl. apply IH. intros k Hk. apply Hall. by right.
Qed.

Lemma has_property_own (st : store) l o k :
  st !! l = Some o → is_Some (own o !! k) → has_property st l k = true.
Proof.
  intros Ho [p Hp]. unfold has_property. simpl. by rewrite Ho, Hp.
Qed.

(** X2.  [addDefaults] with the same defaults a second time changes
    nothing: what the first call left is a fixed point of the second. *)
Theorem addDefaults_again_changes_nothing
    (R : realm) (st st' : store) (l d : loc) :
  is_Some (st !! l) →
  _addDefaults R st (VObj l) d = Ok (st', VObj l) →
  _addDefaults R st' (VObj l) d = Ok (st', VObj l).
Proof.
  intros [o Ho]. unfold _addDefaults. simpl.
  destruct (st !! d) as [dobj|] eqn:Hd; [|done].
  destruct (addDefaults_loop d (VObj l) (Object_keys dobj) st) as [st2|] eqn:Hrun;
    [|done].
  intros [= ->].
  destruct (addDefaults_loop_spec d l (Object_keys dobj) st o Ho)
    as (st2 & o' & Hrun' & Ho' & Hp & Hsz & Hfr & Hown).
  rewrite Hrun in Hrun'. injection Hrun' as <-.
  assert (Hd' : ∃ dobj', st' !! d = Some dobj'
                ∧ ∀ k, k ∈ Object_keys dobj' → has_property st' l k = true).
  { destruct (decide (d = l)) as [->|Hne].
    - exists o'. split; [done|]. intros k Hk.
      apply elem_of_Object_keys in Hk as (p & Hk & _).
      apply (has_property_own st' l o'); eauto.
    - exists dobj. split; [by rewrite Hfr|]. intros k Hk.
      destruct (has_property st l k) eqn:Hh.
      + by apply (addDefaults_loop_mono d l (Object_keys dobj) st).
      + apply (has_property_own st' l o'); [done|].
        rewrite Hown, Hh. simpl. by rewrite bool_decide_eq_true_2. }
  destruct Hd' as (dobj' & -> & Hall).
  by rewrite addDefaults_loop_nothing_missing.
Qed.

(** X3.  For a falsy [obj] ([undefined], [null], [0], the empty string,
    [false]) [addDefaults] makes a new object [{}] and returns it.  It gets
    the own enumerable keys of the defaults, except those [Object.prototype]
    has: [key in obj] finds them through the prototype of the new object.
    The objects that were there do not change. *)
Theorem addDefaults_makes_the_object_when_given_none
    (R : realm) (st : store) (obj : value) (d : loc) (dobj op : object) :
  truthy obj = false →
  st !! d = Some dobj →
  st !! ObjectPrototype R = Some op → proto op = None →
  ∃ st' l o',
    _addDefaults R st obj d = Ok (st', VObj l)
    ∧ st !! l = None
    ∧ st' !! l = Some o'
    ∧ proto o' = Some (ObjectPrototype R)
    ∧ (∀ l', l' ≠ l → st' !! l' = st !! l')
    ∧ (∀ k, own o' !! k =
            match own dobj !! k, own op !! k with
            | Some p, None => if enumerable p
                              then Some {| pvalue := pvalue p; enumerable := true |}
                              else None
            | _, _ => None
            end).
Proof.
  intros Hobj Hd Hop Hpp. unfold _addDefaults, new_object. rewrite Hobj.
  set (l := fresh (dom st)).
  set (o0 := {| own := ∅; proto := Some (ObjectPrototype R) |}).
  set (st1 := <[l := o0]> st).
  assert (Hl : st !! l = None).
  { apply not_elem_of_dom. apply is_fresh. }
  assert (Hdl : d ≠ l) by (intros ->; congruence).
  assert (Hol : ObjectPrototype R ≠ l) by (intros Heq; rewrite Heq in Hop; congruence).
  assert (Hd1 : st1 !! d = Some dobj) by (unfold st1; by rewrite lookup_insert_ne).
  assert (Ho1 : st1 !! l = Some o0) by (unfold st1; by rewrite lookup_insert_eq).
  assert (Hop1 : st1 !! ObjectPrototype R = Some op)
    by (unfold st1; by rewrite lookup_insert_ne).
  rewrite Hd1.
  destruct (addDefaults_loop_spec d l (Object_keys dobj) st1 o0 Ho1)
    as (st' & o' & -> & Ho' & Hp & Hsz & Hfr & Hown).
  exists st', l, o'. split; [done|]. split; [done|]. split; [done|].
  split; [done|]. split.
  { intros l' Hne. rewrite Hfr by done. unfold st1. by rewrite lookup_insert_ne. }
  intros k. rewrite Hown.
  assert (Hh : has_property st1 l k
               = match own op !! k with Some _ => true | None => false end).
  { unfold has_property. simpl. rewrite Ho1. simpl. rewrite lookup_empty.
    destruct (size st1) as [|n] eqn:Hn.
    { apply map_size_empty_inv in Hn. by rewrite Hn in Ho1. }
    simpl. rewrite Hop1, Hpp. by destruct (own op !! k). }
  rewrite Hh. simpl. rewrite lookup_empty.
  destruct (own dobj !! k) as [p|] eqn:Hk.
  - destruct (own op !! k) as [q|] eqn:Hq; simpl.
    + by rewrite andb_false_r.
    + rewrite andb_true_r. destruct (enumerable p) eqn:He.
      * rewrite bool_decide_eq_true_2 by (apply elem_of_Object_keys; eauto).
        by rewrite (get_own st1 d dobj k p).
      * rewrite bool_decide_eq_false_2; [done|].
        intros (p' & Hk' & He')%elem_of_Object_keys. congruence.
  - rewrite bool_decide_eq_false_2; [done|].
    intros (p' & Hk' & He')%elem_of_Object_keys. congruence.
Qed.

(** X4.  For a primitive that is truthy (a number but [0], a string but the
    empty one, [true]) [addDefaults] throws a [TypeError] at the first key:
    [in] takes no primitive on its right.  Only with defaults that have no
    own enumerable key does the call return, giving [obj] back. *)
Theorem addDefaults_throws_on_a_primitive
    (R : realm) (st : store) (obj : value) (d : loc) (dobj : object) :
  truthy obj = true → (∀ l, obj ≠ VObj l) →
  st !! d = Some dobj →
  _addDefaults R st obj d
  = match Object_keys dobj with
    | [] => Ok (st, obj)
    | _ :: _ => Throw TypeError
    end.
Proof.
  intros Ht Hnobj Hd. unfold _addDefaults. rewrite Ht, Hd.
  destruct (Object_keys dobj) as [|k keys]; [done|]. simpl.
  destruct obj; try done. by destruct (Hnobj l).
Qed.

(** What the object has after the loop: what it had, and the keys. *)
Lemma addDefaults_loop_has (d l : loc) (keys : list string) :
  ∀ (st st' : store) k,
    is_Some (st !! l) →
    addDefaults_loop d (VObj l) keys st = Ok st' →
    has_property st' l k = has_property st l k || bool_decide (k ∈ keys).
Proof.
  induction keys as [|k0 keys IH]; intros st st' k Hl; simpl.
  - intros [= ->]. by rewrite orb_false_r.
  - destruct (has_property st l k0) eqn:Hk0; simpl.
    + intros Hrun. rewrite (IH _ _ _ Hl Hrun).
      destruct (decide (k = k0)) as [->|Hne].
      * rewrite Hk0. done.
      * by rewrite (bool_decide_cons_ne k k0 keys).
    + intros Hrun.
      assert (Hl1 : is_Some (create_property st l k0 (get st d k0) !! l)).
      { destruct Hl as [o Ho]. rewrite lookup_create_property, decide_True, Ho by done.
        by eexists. }
      rewrite (IH _ _ _ Hl1 Hrun).
      destruct (decide (k = k0)) as [->|Hne].
      * rewrite has_property_create_eq by done.
        rewrite (bool_decide_eq_true_2 (k0 ∈ k0 :: keys)) by left.
        by rewrite orb_true_r.
      * rewrite has_property_create_ne by done.
        by rewrite (bool_decide_cons_ne k k0 keys).
Qed.

(** X24.  Defaults added one after the other: what the first defaults gave
    the second do not replace.  After [addDefaults(obj, d1)] and
    [addDefaults(obj, d2)] a key that [obj] had keeps its slot; a key it
    had not holds the value of [d1] if [d1] has it as an own enumerable
    key, else that of [d2] if [d2] has it so, and is absent else. *)
Theorem addDefaults_first_defaults_win
    (R : realm) (st : store) (l d1 d2 : loc) (o o1 o2 : object) :
  st !! l = Some o → st !! d1 = Some o1 → st !! d2 = Some o2 →
  d1 ≠ l → d2 ≠ l →
  ∃ st1 st2 o'',
    _addDefaults R st (VObj l) d1 = Ok (st1, VObj l)
    ∧ _addDefaults R st1 (VObj l) d2 = Ok (st2, VObj l)
    ∧ st2 !! l = Some o''
    ∧ (∀ l', l' ≠ l → st2 !! l' = st !! l')
    ∧ (∀ k, has_property st l k = true → own o'' !! k = own o !! k)
    ∧ (∀ k, has_property st l k = false →
         own o'' !! k =
         match own o1 !! k, own o2 !! k with
         | Some p, _ =>
             if enumerable p
             then Some {| pvalue := pvalue p; enumerable := true |}
             else match own o2 !! k with
                  | Some q => if enumerable q
                              then Some {| pvalue := pvalue q; enumerable := true |}
                              else None
                  | None => None
                  end
         | None, Some q =>
             if enumerable q
             then Some {| pvalue := pvalue q; enumerable := true |}
             else None
         | None, None => None
         end).
Proof.
  intros Ho Hd1 Hd2 Hn1 Hn2.
  destruct (addDefaults_loop_spec d1 l (Object_keys o1) st o Ho)
    as (st1 & o' & Hrun1 & Ho' & Hp1 & Hsz1 & Hfr1 & Hown1).
  destruct (addDefaults_loop_spec d2 l (Object_keys o2) st1 o' Ho')
    as (st2 & o'' & Hrun2 & Ho'' & Hp2 & Hsz2 & Hfr2 & Hown2).
  exists st1, st2, o''.
  split; [unfold _addDefaults; simpl; by rewrite Hd1, Hrun1|].
  split; [unfold _addDefaults; simpl; by rewrite (Hfr1 d2 Hn2), Hd2, Hrun2|].
  split; [done|].
  split; [intros l' Hl'; by rewrite Hfr2, Hfr1|].
  assert (Hhas : ∀ k, has_property st1 l k
                      = has_property st l k || bool_decide (k ∈ Object_keys o1)).
  { intros k. apply (addDefaults_loop_has d1 l (Object_keys o1) st st1 k); eauto. }
  assert (Hkeys : ∀ (ob : object) k,
            bool_decide (k ∈ Object_keys ob)
            = match own ob !! k with Some p => enumerable p | None => false end).
  { intros ob k. destruct (own ob !! k) as [p|] eqn:Hk.
    - destruct (enumerable p) eqn:He.
      + apply bool_decide_eq_true_2, elem_of_Object_keys. eauto.
      + apply bool_decide_eq_false_2.
        intros (p' & Hk' & He')%elem_of_Object_keys. congruence.
    - apply bool_decide_eq_false_2.
      intros (p' & Hk' & He')%elem_of_Object_keys. congruence. }
  assert (Hg1 : ∀ k p, own o1 !! k = Some p → get st d1 k = pvalue p)
    by (intros k p; by apply get_own).
  assert (Hg2 : ∀ k q, own o2 !! k = Some q → get st1 d2 k = pvalue q).
  { intros k q. apply get_own. by rewrite Hfr1. }
  split.
  - intros k Hk. rewrite Hown2, Hhas, Hk. simpl. rewrite andb_false_r.
    rewrite Hown1, Hk. simpl. by rewrite andb_false_r.
  - intros k Hk. rewrite Hown2, Hhas, Hk, Hown1, Hk, !Hkeys. simpl.
    rewrite andb_true_r.
    destruct (own o1 !! k) as [p|] eqn:Hk1.
    + destruct (enumerable p) eqn:He; simpl.
      * rewrite andb_false_r. by rewrite (Hg1 k p).
      * rewrite andb_true_r.
        destruct (own o2 !! k) as [q|] eqn:Hk2; [|by rewrite (has_property_false_own st l o k)].
        destruct (enumerable q); [by rewrite (Hg2 k q)|].
        by rewrite (has_property_false_own st l o k).
    + simpl. rewrite andb_true_r.
      destruct (own o2 !! k) as [q|] eqn:Hk2; [|by rewrite (has_property_false_own st l o k)].
      destruct (enumerable q); [by rewrite (Hg2 k q)|].
      by rewrite (has_property_false_own st l o k).
Qed.

End addDefaults_more.

(** * More on the global binding *)

Section load_more.
Import Js.

(** The members defined one after the other, on the object they are
    defined on. *)
Lemma define_members_lookup (inst : loc) (members : list (string * value)) :
  ∀ (st : store) o, st !! inst = Some o →
    foldl (λ s kv, define_property s inst kv.1 kv.2) st members !! inst
    = Some {| own := foldl (λ m kv, <[kv.1 := {| pvalue := kv.2; enumerable := true |}]> m)
                       (own o) members;
              proto := proto o |}.
Proof.
  induction members as [|[k v] ms IH]; intros st o Ho; simpl.
  - rewrite Ho. by destruct o.
  - rewrite (IH _ (add_own k v o)); [done|].
    unfold define_property. by rewrite lookup_alter_eq, Ho.
Qed.

Lemma define_members_own (members : list (string * value)) :
  ∀ (m : gmap string prop) k, NoDup members.*1 →
    foldl (λ m kv, <[kv.1 := {| pvalue := kv.2; enumerable := true |}]> m) m members !! k
    = match (list_to_map members : gmap string value) !! k with
      | Some v => Some {| pvalue := v; enumerable := true |}
      | None => m !! k
      end.
Proof.
  induction members as [|[k0 v0] ms IH]; intros m k Hnd; simpl; [done|].
  apply NoDup_cons in Hnd as [Hk0 Hnd]. rewrite IH by done.
  destruct (decide (k = k0)) as [->|Hne].
  - rewrite lookup_insert_eq.
    rewrite (not_elem_of_list_to_map_1 (M := gmap string) ms k0) by done.
    by rewrite lookup_insert_eq.
  - rewrite !(lookup_insert_ne _ k0 k) by done. done.
Qed.

Lemma Object_keys_of_members (members : list (string * value)) (o : object) :
  NoDup members.*1 →
  (∀ k, own o !! k = match (list_to_map members : gmap string value) !! k with
                     | Some v => Some {| pvalue := v; enumerable := true |}
                     | None => None
                     end) →
  Object_keys o ≡ₚ members.*1.
Proof.
  intros Hnd Hown.
  assert (Heq : own o = (λ v, {| pvalue := v; enumerable := true |})
                        <$> (list_to_map members : gmap string value)).
  { apply map_eq. intros k. rewrite Hown, lookup_fmap.
    by destruct (list_to_map members !! k). }
  unfold Object_keys. rewrite Heq.
  rewrite map_filter_id.
  - rewrite map_to_list_fmap. rewrite <- list_fmap_compose.
    rewrite (list_fmap_ext _ fst (map_to_list (list_to_map members)));
      [|by intros ? [??]].
    by rewrite map_to_list_to_map.
  - intros k p. rewrite lookup_fmap. destruct (list_to_map members !! k); [|done].
    simpl. by intros [= <-].
Qed.

Lemma load_instance (R : realm) (st : store) members env st1 inst :
  is_Some (st !! window R) → NoDup members.*1 →
  load R st members = (env, st1, inst) →
  st !! inst = None
  ∧ ∃ o, st1 !! inst = Some o ∧ proto o = Some (ObjectPrototype R)
       ∧ ∀ k, own o !! k
              = match (list_to_map members : gmap string value) !! k with
                | Some v => Some {| pvalue := v; enumerable := true |}
                | None => None
                end.
Proof.
  intros Hw Hnd. unfold load, new_object. intros [= <- <- <-].
  pose proof (fresh_not_allocated st _ Hw) as Hne.
  split; [apply not_elem_of_dom, is_fresh|].
  eexists. split.
  - apply define_members_lookup. unfold set_property.
    rewrite lookup_alter_ne by done. apply lookup_insert_eq.
  - split; [done|]. intros k. simpl. by rewrite define_members_own.
Qed.

(** X5.  What the load leaves in the store of objects.  The old binding
    is kept in [_oldΩ]; the global name is bound to a new object; the own
    keys of that object are the names of the members of the private
    literal, every one enumerable and holding the member's value, and its
    prototype is [Object.prototype].  No other object changes, and on the
    global object no property but the name. *)
Theorem load_publishes_the_members
    (R : realm) (st : store) (members : list (string * value)) :
  is_Some (st !! window R) → NoDup members.*1 →
  let '(env, st1, inst) := load R st members in
  st !! inst = None
  ∧ _oldΩ env = get st (window R) Ω_name
  ∧ get st1 (window R) Ω_name = VObj inst
  ∧ (∃ o, st1 !! inst = Some o
       ∧ proto o = Some (ObjectPrototype R)
       ∧ Object_keys o ≡ₚ members.*1
       ∧ (∀ k v, (k, v) ∈ members →
            own o !! k = Some {| pvalue := v; enumerable := true |})
       ∧ (∀ k, k ∉ members.*1 → own o !! k = None))
  ∧ (∀ l, l ≠ inst → l ≠ window R → st1 !! l = st !! l)
  ∧ (∀ k, k ≠ Ω_name →
       (own <$> st1 !! window R) ≫= (.!! k) = (own <$> st !! window R) ≫= (.!! k))
  ∧ proto <$> st1 !! window R = proto <$> st !! window R.
Proof.
  intros Hw Hnd. destruct (load R st members) as [[env st1] inst] eqn:Hload.
  destruct (load_instance R st members env st1 inst Hw Hnd Hload)
    as (Hfresh & o & Ho & Hp & Hown).
  destruct (load_binds_instance R st members env st1 inst Hw Hload)
    as (Hold & _ & Hbound).
  split; [done|]. split; [done|]. split; [done|]. split.
  { exists o. split; [done|]. split; [done|].
    split; [by apply Object_keys_of_members|]. split.
    - intros k v Hkv. rewrite Hown.
      by rewrite (elem_of_list_to_map_1 (M := gmap string) members k v).
    - intros k Hk. rewrite Hown.
      by rewrite (not_elem_of_list_to_map_1 (M := gmap string) members k). }
  revert Hload. unfold load, new_object. intros [= <- <- <-].
  pose proof (fresh_not_allocated st _ Hw) as Hne.
  split.
  { intros l Hl Hlw. rewrite define_members_other by done.
    unfold set_property. rewrite lookup_alter_ne by done.
    by rewrite lookup_insert_ne. }
  split.
  - intros k Hk. rewrite define_members_other by done.
    unfold set_property. rewrite lookup_alter_eq, lookup_insert_ne by done.
    destruct (st !! window R) as [w|]; simpl; [|done].
    by rewrite lookup_insert_ne.
  - rewrite define_members_other by done.
    unfold set_property. rewrite lookup_alter_eq, lookup_insert_ne by done.
    by destruct (st !! window R).
Qed.

Lemma load_allocates_the_instance (R : realm) (st : store) members env st1 inst :
  is_Some (st !! window R) →
  load R st members = (env, st1, inst) →
  is_Some (st1 !! inst) ∧ st !! inst = None.
Proof.
  intros Hw. unfold load, new_object. intros [= <- <- <-].
  pose proof (fresh_not_allocated st _ Hw) as Hne.
  split; [|apply not_elem_of_dom, is_fresh].
  erewrite define_members_lookup; [done|].
  unfold set_property. rewrite lookup_alter_ne by done. apply lookup_insert_eq.
Qed.

(** X6.  The script loaded twice: the second load keeps the first
    instance as the old binding, its [noConflict] returns the second
    instance and binds the name to the first again, and the [noConflict]
    of the first load then returns the first instance and restores what the
    name read as before either load. *)
Theorem noConflict_unwinds_a_second_load
    (R : realm) (st : store) (m1 m2 : list (string * value)) :
  is_Some (st !! window R) →
  let '(env1, st1, inst1) := load R st m1 in
  let '(env2, st2, inst2) := load R st1 m2 in
  inst1 ≠ inst2
  ∧ _oldΩ env2 = VObj inst1
  ∧ (_noConflict R env2 st2).2 = VObj inst2
  ∧ get (_noConflict R env2 st2).1 (window R) Ω_name = VObj inst1
  ∧ (_noConflict R env1 (_noConflict R env2 st2).1).2 = VObj inst1
  ∧ get (_noConflict R env1 (_noConflict R env2 st2).1).1 (window R) Ω_name
    = get st (window R) Ω_name.
Proof.
  intros Hw. destruct (load R st m1) as [[env1 st1] inst1] eqn:Hl1.
  destruct (load_binds_instance R st m1 env1 st1 inst1 Hw Hl1) as (Ho1 & Hw1 & Hi1).
  destruct (load_allocates_the_instance R st m1 env1 st1 inst1 Hw Hl1) as [Ha1 _].
  destruct (load R st1 m2) as [[env2 st2] inst2] eqn:Hl2.
  destruct (load_binds_instance R st1 m2 env2 st2 inst2 Hw1 Hl2) as (Ho2 & Hw2 & Hi2).
  destruct (load_allocates_the_instance R st1 m2 env2 st2 inst2 Hw1 Hl2) as [_ Hf2].
  split; [intros ->; rewrite Hf2 in Ha1; by destruct Ha1|].
  split; [by rewrite Ho2|].
  unfold _noConflict. simpl. split; [done|].
  rewrite !get_set_property_eq; try done.
  - by rewrite Ho2, Ho1.
  - unfold set_property. rewrite lookup_alter_eq. destruct Hw2 as [w ->]. by eexists.
Qed.

Lemma get_fuel_undefined n (st : store) l k :
  has_property_fuel n st l k = false → get_fuel n st l k = VUndefined.
Proof.
  revert l. induction n as [|n IH]; intros l; simpl; [done|].
  destruct (st !! l) as [o|]; [|done].
  destruct (own o !! k); [done|]. destruct (proto o); [apply IH|done].
Qed.

Lemma set_property_again (st : store) l k v :
  set_property (set_property st l k v) l k v = set_property st l k v.
Proof.
  unfold set_property. rewrite alter_alter_eq. apply alter_ext.
  intros o _. unfold write_own. simpl. rewrite lookup_insert_eq. simpl.
  by rewrite insert_insert_eq.
Qed.

(** X7.  After [noConflict] the global object has the name as a property
    of its own, also when it had none before the load: the name is then
    bound to [undefined], not removed.  A second [noConflict] returns the
    old value, not the library, and changes nothing. *)
Theorem noConflict_leaves_the_name_defined
    (R : realm) (st : store) (members : list (string * value)) :
  is_Some (st !! window R) →
  let '(env, st1, inst) := load R st members in
  has_property (_noConflict R env st1).1 (window R) Ω_name = true
  ∧ (has_property st (window R) Ω_name = false →
       get (_noConflict R env st1).1 (window R) Ω_name = VUndefined)
  ∧ (_noConflict R env (_noConflict R env st1).1).2 = get st (window R) Ω_name
  ∧ (_noConflict R env (_noConflict R env st1).1).1 = (_noConflict R env st1).1.
Proof.
  intros Hw. destruct (load R st members) as [[env st1] inst] eqn:Hl.
  destruct (load_binds_instance R st members env st1 inst Hw Hl) as (Ho & Hw1 & Hi).
  unfold _noConflict. simpl. split.
  { destruct Hw1 as [w Hw1].
    apply (has_property_own _ _ (write_own Ω_name (_oldΩ env) w)).
    - unfold set_property. by rewrite lookup_alter_eq, Hw1.
    - unfold write_own. simpl. rewrite lookup_insert_eq. by eexists. }
  split.
  { intros Hno. rewrite get_set_property_eq by done. rewrite Ho.
    by apply get_fuel_undefined. }
  split; [by rewrite get_set_property_eq, Ho|].
  apply set_property_again.
Qed.

End load_more.

(** * More on the readiness signal: a queued callback that throws *)

Section ready_more.
Import Ready.







End ready_more.

(** * More on the ancestor search and on [isString] *)

Section parent_more.
Import Dom Walk.

Variable matches : heap → nat → string → bool.

Lemma climb_throws_off_the_elements (E : env) (h : heap) (sel : string) p path d :
  leaves E h p path d →
  all_elements h path →
  Forall (λ m, matches h m sel = false) path →
  ∀ fuel, length path < fuel →
    climb matches fuel E h sel p = Some (Throw TypeError).
Proof.
  induction 1 as [d Hd Hk|n path d Hn Hup IH]; intros Hel Hno fuel Hfuel.
  - destruct fuel; [simpl in Hfuel; lia|]. simpl.
    rewrite bool_decide_eq_false_2 by done. by rewrite Hk.
  - destruct fuel; [simpl in Hfuel; lia|]. simpl.
    rewrite bool_decide_eq_false_2 by done.
    apply Forall_cons in Hel as [Hk Hel]. rewrite Hk. simpl.
    apply Forall_cons in Hno as [Hm Hno]. rewrite Hm.
    apply IH; [done|done|]. simpl in Hfuel. lia.
Qed.

(** X23.  When the walk of [parent] comes, without a match on the way and
    without passing the cached body, to a node that is no element, the
    call throws a [TypeError]: that node has no [matches].  So it is from
    every node of the head, where the walk reaches the document, and from
    every node held by a fragment, when no element on the way matches. *)
Theorem parent_throws_where_the_elements_end
    (fuel : nat) (E : env) (h : heap) (n : nat) (sel : string)
    (includeSelf : bool) (path : list nat) (d : nat) :
  sel ≠ "" → disallowed E n = false →
  leaves E h (if includeSelf then Some n else parent_of h n) path d →
  all_elements h path →
  Forall (λ m, matches h m sel = false) path →
  length path < fuel →
  _parent matches fuel E h (Val n) (Val sel) includeSelf = Some (Throw TypeError).
Proof.
  intros Hsel Hd Hl Hel Hno Hfuel. rewrite parent_past_guards by done.
  by apply (climb_throws_off_the_elements E h sel _ path d).
Qed.

End parent_more.

Section isString_more.
Import Js.

(** On a chain that visits no object twice the walk of [instanceof] finds
    every object above the start. *)
Lemma on_chain_fuel_finds (st : store) (target : loc) :
  ∀ l path, proto_chain st l path → target ∈ tail path →
    ∀ n, length path ≤ n → on_chain_fuel n st l target = true.
Proof.
  induction 1 as [l Hl|l o Hl Hp|l o p path Hl Hp Hc IH]; intros Hin n Hn;
    simpl in Hin.
  - by apply elem_of_nil in Hin.
  - by apply elem_of_nil in Hin.
  - destruct n as [|n]; [simpl in Hn; lia|]. simpl. rewrite Hl, Hp.
    destruct (decide (p = target)) as [->|Hne].
    + by rewrite bool_decide_eq_true_2.
    + rewrite bool_decide_eq_false_2 by done. simpl.
      simpl in Hn. apply IH; [|lia].
      inversion Hc as [l' Hd|l' o' Ho' Hp'|l' o' p' path' Ho' Hp' Hc']; subst.
      * by apply elem_of_nil in Hin.
      * apply list_elem_of_singleton in Hin. congruence.
      * apply elem_of_cons in Hin as [?|Hin]; [congruence|done].
Qed.

(** X8.  What [isString] takes for a string.  Every string primitive, the
    empty one too; not [undefined], [null], a boolean or a number.  An
    object exactly when its [constructor] property reads [String], its own
    or an inherited one, or [String.prototype] is on its prototype chain:
    so an object that has [String] as an own [constructor] property is
    taken for a string, whatever else it is, and so is an object with
    [String.prototype] anywhere above it, whatever its [constructor]. *)
Theorem isString_accepts_exactly (R : realm) (st : store) :
  (∀ s, _isString R st (VStr s) = true)
  ∧ _isString R st VUndefined = false
  ∧ _isString R st VNull = false
  ∧ (∀ b, _isString R st (VBool b) = false)
  ∧ (∀ z, _isString R st (VNum z) = false)
  ∧ (∀ l, _isString R st (VObj l) = true
          ↔ get st l "constructor" = VObj (StringCtor R)
            ∨ on_chain st l (StringPrototype R) = true)
  ∧ (∀ l o, st !! l = Some o →
       pvalue <$> own o !! "constructor" = Some (VObj (StringCtor R)) →
       _isString R st (VObj l) = true)
  ∧ (∀ l path, proto_chain st l path → NoDup path →
       StringPrototype R ∈ tail path →
       _isString R st (VObj l) = true).
Proof.
  split; [done|]. split; [done|]. split; [done|]. split; [done|].
  split; [done|].
  assert (Hiff : ∀ l, _isString R st (VObj l) = true
                      ↔ get st l "constructor" = VObj (StringCtor R)
                        ∨ on_chain st l (StringPrototype R) = true).
  { intros l. unfold _isString. simpl. rewrite orb_true_iff.
    unfold strict_eq. by rewrite bool_decide_eq_true. }
  split; [exact Hiff|]. split.
  - intros l o Ho Hc. apply Hiff. left.
    destruct (own o !! "constructor") as [p|] eqn:Hp; [|done].
    simpl in Hc. injection Hc as <-. by apply (get_own st l o).
  - intros l path Hc Hnd Hin. apply Hiff. right. unfold on_chain.
    apply (on_chain_fuel_finds st _ l path Hc Hin).
    pose proof (acyclic_chain_covered st l path Hc Hnd). lia.
Qed.

End isString_more.

(** * More on [frag] and [parseOne] *)

Section parse_more.
Import Dom.

Variable parseHTML : string → list markup.

(** X10.  A node that is no element (a text node, a comment, a fragment,
    the document) is not taken as content: [frag] returns a new, empty
    fragment and touches nothing, and so does [parseOne], which does not
    return the node. *)
Theorem frag_ignores_what_is_no_element
    (fuel : nat) (h : heap) (n : nat) (cloneEls : bool) :
  default false (is_element <$> kind_of h n) = false →
  _frag parseHTML fuel h (CNode n) cloneEls
  = Some (Ok (h ++ [empty_fragment], length h))
  ∧ _parseOne parseHTML fuel h (CNode n) cloneEls
    = Some (Ok (h ++ [empty_fragment], length h)).
Proof.
  intros Hk.
  assert (Hk1 : default false (is_element <$> kind_of (h ++ [empty_fragment]) n)
                = false).
  { unfold kind_of in *. destruct (decide (n < length h)) as [Hn|Hn].
    - by rewrite lookup_app_l.
    - rewrite lookup_app_r by lia. by destruct (n - length h) as [|[|?]]. }
  assert (Hfrag : _frag parseHTML fuel h (CNode n) cloneEls
                  = Some (Ok (h ++ [empty_fragment], length h))).
  { unfold _frag. rewrite createDocumentFragment_eq. cbn [content_truthy negb].
    rewrite Hk1. rewrite bool_decide_eq_false_2; [done|].
    intros Hkt. by rewrite Hkt in Hk1. }
  split; [done|].
  rewrite (parseOne_of_frag parseHTML fuel h _ _ _ _ Hfrag).
  unfold only_child_or_self, children_of.
  by rewrite lookup_app_r, Nat.sub_diag by done.
Qed.

(** X11.  For a string that the parser makes exactly one node of,
    [parseOne] returns that node: a new node with the parsed subtree,
    which is still the one child of the fragment made for it.  For a
    string parsed to several nodes or to none it returns the fragment,
    which holds them all. *)
Theorem parseOne_returns_the_only_parsed_node
    (fuel : nat) (h : heap) (s : string) (cloneEls : bool) :
  s ≠ "" → length (parseHTML s) < fuel →
  ∃ h' x,
    _parseOne parseHTML fuel h (CStr s) cloneEls = Some (Ok (h', x))
    ∧ (∀ i, i < length h → h' !! i = h !! i)
    ∧ kind_of h' (length h) = Some KFragment
    ∧ match parseHTML s with
      | [m] =>
          children_of h' (length h) = [x]
          ∧ length h < x
          ∧ parent_of h' x = Some (length h)
          ∧ shape (depth (tree_of m)) h' x = Some (tree_of m)
      | ms =>
          x = length h
          ∧ length (children_of h' (length h)) = length ms
      end.
Proof.
  intros Hs Hfuel.
  destruct (frag_of_string parseHTML fuel h s cloneEls Hs Hfuel)
    as (h' & Hfrag & Hold & Hk & Hp & Hall).
  exists h', (only_child_or_self h' (length h)).
  split; [by apply parseOne_of_frag|]. split; [done|]. split; [done|].
  pose proof (Forall2_length _ _ _ Hall) as Hlen. rewrite length_fmap in Hlen.
  unfold only_child_or_self.
  destruct (parseHTML s) as [|m [|m' ms]] eqn:Hms; simpl in *.
  - by destruct (children_of h' (length h)).
  - destruct (children_of h' (length h)) as [|x [|y cs]]; try done.
    apply Forall2_cons_1 in Hall as [(Hx1 & Hx2 & _ & Hx4) _]. done.
  - by destruct (children_of h' (length h)) as [|x [|y cs]].
Qed.

(** X12.  For an element that is no template, [parseOne] without the
    clone flag returns the element itself, which has left its parent and
    is now the one child of a new fragment; with the flag it returns a new
    node with the subtree of the element, and the element stays where it
    is. *)
Theorem parseOne_of_an_element
    (fuel : nat) (h : heap) (n : nat) (k : kind) :
  kind_of h n = Some k → is_element k = true → k ≠ KTemplate →
  ((∀ q, parent_of h n = Some q → q < length h ∧ q ≠ n) →
     ∃ h',
       _parseOne parseHTML fuel h (CNode n) false = Some (Ok (h', n))
       ∧ kind_of h' (length h) = Some KFragment
       ∧ children_of h' (length h) = [n]
       ∧ parent_of h' n = Some (length h)
       ∧ skel <$> h' !! n = skel <$> h !! n
       ∧ (∀ q, parent_of h n = Some q → n ∉ children_of h' q))
  ∧ (∀ t, shape fuel h n = Some t →
       ∃ h',
         _parseOne parseHTML fuel h (CNode n) true
         = Some (Ok (h', S (length h)))
         ∧ (∀ i, i < length h → h' !! i = h !! i)
         ∧ children_of h' (length h) = [S (length h)]
         ∧ parent_of h' (S (length h)) = Some (length h)
         ∧ shape fuel h' (S (length h)) = Some t).
Proof.
  intros Hk Hel Hnt. split.
  - intros Hwf.
    destruct (frag_of_adopt parseHTML fuel h n k Hk Hel Hnt Hwf)
      as (h' & Hfrag & _ & Hkf & _ & Hch & Hp & Hsk & Hq & _).
    exists h'. rewrite (parseOne_of_frag parseHTML fuel h _ _ _ _ Hfrag).
    unfold only_child_or_self. rewrite Hch.
    do 5 (split; [done|]). intros q Hpq. by destruct (Hq q Hpq).
  - intros t Hshape.
    destruct (frag_of_clone parseHTML fuel h n k t Hk Hel Hnt Hshape)
      as (h' & Hfrag & Hold & _ & _ & Hch & Hp & _ & Hsh).
    exists h'. rewrite (parseOne_of_frag parseHTML fuel h _ _ _ _ Hfrag).
    unfold only_child_or_self. by rewrite Hch.
Qed.

End parse_more.

(** * Editing the tree: lists of children *)

Section place_props.
Import Dom Edit.

Lemma elem_of_insert_before_in (c ref x : nat) (cs : list nat) :
  x ∈ insert_before_in c ref cs ↔ x = c ∨ x ∈ cs.
Proof.
  induction cs as [|y cs IH]; simpl.
  - rewrite list_elem_of_singleton. split; [by left|].
    intros [?|Hx]; [done|by apply elem_of_nil in Hx].
  - case_decide.
    + rewrite !elem_of_cons. tauto.
    + rewrite !elem_of_cons, IH. tauto.
Qed.

Lemma elem_of_place (c : nat) (ref : option nat) (x : nat) (cs : list nat) :
  x ∈ place c ref cs ↔ x = c ∨ x ∈ cs.
Proof.
  destruct ref as [r|]; simpl; [apply elem_of_insert_before_in|].
  rewrite elem_of_app, list_elem_of_singleton. tauto.
Qed.

Lemma NoDup_insert_before_in (c ref : nat) (cs : list nat) :
  c ∉ cs → NoDup cs → NoDup (insert_before_in c ref cs).
Proof.
  induction cs as [|y cs IH]; simpl; intros Hc Hnd.
  - apply NoDup_singleton.
  - apply not_elem_of_cons in Hc as [Hcy Hc].
    apply NoDup_cons in Hnd as [Hy Hnd]. case_decide.
    + apply NoDup_cons. split; [|by apply NoDup_cons].
      rewrite elem_of_cons. tauto.
    + apply NoDup_cons. split; [|by apply IH].
      rewrite elem_of_insert_before_in. intros [->|?]; done.
Qed.

Lemma NoDup_place (c : nat) (ref : option nat) (cs : list nat) :
  c ∉ cs → NoDup cs → NoDup (place c ref cs).
Proof.
  destruct ref as [r|]; simpl; [apply NoDup_insert_before_in|].
  intros Hc Hnd. apply NoDup_app. split; [done|]. split; [|apply NoDup_singleton].
  intros x Hx ->%list_elem_of_singleton. done.
Qed.

Lemma filter_ne_id (c : nat) (cs : list nat) :
  c ∉ cs → filter (λ x, x ≠ c) cs = cs.
Proof.
  induction cs as [|y cs IH]; [done|]. intros [Hy Hc]%not_elem_of_cons.
  rewrite filter_cons_True by done. by rewrite IH.
Qed.

Lemma not_elem_of_filter_ne (c : nat) (cs : list nat) :
  c ∉ filter (λ x, x ≠ c) cs.
Proof. rewrite list_elem_of_filter. tauto. Qed.

Lemma filter_ne_insert_before_in (c ref : nat) (cs : list nat) :
  c ∉ cs → filter (λ x, x ≠ c) (insert_before_in c ref cs) = cs.
Proof.
  induction cs as [|y cs IH]; simpl; intros Hc.
  - by rewrite filter_cons_False by (by intros ?).
  - apply not_elem_of_cons in Hc as [Hcy Hc]. case_decide.
    + rewrite filter_cons_False by (by intros ?).
      rewrite filter_cons_True by done. by rewrite filter_ne_id.
    + rewrite filter_cons_True by done. by rewrite IH.
Qed.

(** Taking out what was put in gives the list back. *)
Lemma filter_ne_place (c : nat) (ref : option nat) (cs : list nat) :
  c ∉ cs → filter (λ x, x ≠ c) (place c ref cs) = cs.
Proof.
  destruct ref as [r|]; simpl; [apply filter_ne_insert_before_in|].
  intros Hc. rewrite filter_app, filter_ne_id by done.
  rewrite filter_cons_False by (by intros ?). by rewrite app_nil_r.
Qed.

Lemma place_before_head (c : nat) (cs : list nat) :
  place c (head cs) cs = c :: cs.
Proof.
  destruct cs as [|x cs]; simpl; [done|]. by rewrite decide_True.
Qed.

(** Putting [c] where the second part of a list begins. *)
Lemma place_between (c : nat) (l1 l2 : list nat) :
  (∀ y, head l2 = Some y → y ∉ l1) →
  place c (head l2) (l1 ++ l2) = l1 ++ c :: l2.
Proof.
  intros Hy. destruct l2 as [|y l2]; simpl.
  - by rewrite app_nil_r.
  - specialize (Hy y eq_refl). induction l1 as [|x l1 IH]; simpl.
    + by rewrite decide_True.
    + apply not_elem_of_cons in Hy as [Hyx Hy].
      rewrite decide_False by done. by rewrite IH.
Qed.

Lemma next_in_middle (a : nat) (xs ys : list nat) :
  a ∉ xs → next_in a (xs ++ a :: ys) = head ys.
Proof.
  induction xs as [|x xs IH]; simpl; intros Ha.
  - by rewrite decide_True.
  - apply not_elem_of_cons in Ha as [Hax Ha].
    rewrite decide_False by done. by apply IH.
Qed.

Lemma head_filter_ne (c : nat) (ys : list nat) :
  NoDup ys → head (filter (λ x, x ≠ c) ys)
             = if decide (head ys = Some c) then head (tail ys) else head ys.
Proof.
  destruct ys as [|y ys]; simpl; [done|]. intros [Hy Hnd]%NoDup_cons.
  destruct (decide (y = c)) as [->|Hne].
  - rewrite decide_True by done. rewrite filter_cons_False by (by intros ?).
    by rewrite filter_ne_id.
  - rewrite decide_False by congruence. by rewrite filter_cons_True.
Qed.

End place_props.

(** * Editing the tree: the cells *)

Section put_props.
Import Dom Edit.

Lemma detach_lookup (c : nat) (h : heap) (i : nat) :
  detach h c !! i
  = (λ r, match parent_of h c with
          | Some q =>
              let r0 := if decide (c = i) then set_parent None r else r in
              if decide (q = i)
              then set_children (filter (λ x, x ≠ c) (childNodes r0)) r0
              else r0
          | None => r
          end) <$> h !! i.
Proof.
  unfold detach. destruct (parent_of h c) as [q|].
  - rewrite !lookup_alter_at. destruct (h !! i) as [r|]; simpl; [|done].
    repeat case_decide; done.
  - by destruct (h !! i).
Qed.

Lemma detach_length h c : length (detach h c) = length h.
Proof. unfold detach. destruct (parent_of h c); by rewrite ?length_alter. Qed.

Lemma detach_kind h c i : kind_of (detach h c) i = kind_of h i.
Proof.
  unfold kind_of. rewrite detach_lookup. destruct (h !! i) as [r|]; [|done].
  simpl. destruct (parent_of h c); repeat case_decide; done.
Qed.

Lemma detach_parent h c i :
  parent_of (detach h c) i = if decide (i = c) then None else parent_of h i.
Proof.
  unfold parent_of at 1. rewrite detach_lookup.
  destruct (parent_of h c) as [q|] eqn:Hq.
  - unfold parent_of. destruct (h !! i) as [r|]; simpl.
    + repeat case_decide; subst; done.
    + by case_decide.
  - case_decide as Hi; [subst i|]; [|by unfold parent_of; destruct (h !! i)].
    unfold parent_of in *. by destruct (h !! c).
Qed.

Lemma detach_children h c i :
  children_of (detach h c) i
  = if decide (parent_of h c = Some i)
    then filter (λ x, x ≠ c) (children_of h i) else children_of h i.
Proof.
  unfold children_of at 1. rewrite detach_lookup.
  destruct (parent_of h c) as [q|] eqn:Hq.
  - unfold children_of. destruct (h !! i) as [r|]; simpl.
    + repeat case_decide; subst; try done; congruence.
    + by case_decide.
  - rewrite decide_False by done. unfold children_of. by destruct (h !! i).
Qed.

Lemma detach_content h c i : content_of (detach h c) i = content_of h i.
Proof.
  unfold content_of. rewrite detach_lookup. destruct (h !! i) as [r|]; [|done].
  simpl. destruct (parent_of h c); repeat case_decide; done.
Qed.

Lemma put_length p ref h c : length (put p ref h c) = length h.
Proof. unfold put. by rewrite !length_alter, detach_length. Qed.

Lemma put_kind p ref h c i : kind_of (put p ref h c) i = kind_of h i.
Proof.
  rewrite <- (detach_kind h c i). unfold put, kind_of.
  rewrite !lookup_alter_at. destruct (detach h c !! i) as [r|]; [|done].
  simpl. repeat case_decide; done.
Qed.

Lemma put_content p ref h c i : content_of (put p ref h c) i = content_of h i.
Proof.
  rewrite <- (detach_content h c i). unfold put, content_of.
  rewrite !lookup_alter_at. destruct (detach h c !! i) as [r|]; [|done].
  simpl. repeat case_decide; done.
Qed.

Lemma put_parent p ref h c i :
  is_Some (h !! c) →
  parent_of (put p ref h c) i = if decide (i = c) then Some p else parent_of h i.
Proof.
  intros [rc Hc]. pose proof (detach_parent h c i) as Hd.
  unfold put. unfold parent_of at 1. rewrite !lookup_alter_at.
  unfold parent_of at 1 in Hd.
  destruct (detach h c !! i) as [r|] eqn:Hr; simpl in *.
  - repeat case_decide; subst; try done.
  - case_decide as Hi; [|done]. subst i.
    apply lookup_ge_None in Hr. rewrite detach_length in Hr.
    apply lookup_lt_Some in Hc. lia.
Qed.

Lemma put_children p ref h c i :
  is_Some (h !! p) →
  children_of (put p ref h c) i
  = if decide (i = p) then place c ref (children_of (detach h c) p)
    else children_of (detach h c) i.
Proof.
  intros [rp Hp]. unfold put. unfold children_of at 1. rewrite !lookup_alter_at.
  destruct (decide (i = p)) as [->|Hi].
  - unfold children_of.
    destruct (detach h c !! p) as [r|] eqn:Hr; simpl.
    + rewrite decide_True by done. simpl. by case_decide.
    + apply lookup_ge_None in Hr. rewrite detach_length in Hr.
      apply lookup_lt_Some in Hp. lia.
  - unfold children_of. destruct (detach h c !! i) as [r|]; simpl; [|done].
    rewrite decide_False by done. simpl. by case_decide.
Qed.

End put_props.

(** * Editing the tree: the links stay in order *)

Section consistent_props.
Import Dom Edit.

Lemma consistent_all (h : heap) : consistent h ↔ ∀ p, linked h p.
Proof.
  unfold consistent. rewrite Forall_forall. split.
  - intros Hall p. destruct (decide (p < length h)) as [Hp|Hp].
    + apply Hall, elem_of_seq. lia.
    + assert (Hn : h !! p = None) by (apply lookup_ge_None; lia).
      unfold linked, children_of, parent_of. rewrite Hn. simpl.
      split; [apply NoDup_nil_2|]. split; [done|]. split; [by left|done].
  - intros Hall p _. apply Hall.
Qed.

Lemma consistent_NoDup h p : consistent h → NoDup (children_of h p).
Proof. intros Hc. by destruct (proj1 (consistent_all h) Hc p). Qed.

Lemma consistent_child h p c :
  consistent h → c ∈ children_of h p → parent_of h c = Some p ∧ c ≠ p.
Proof.
  intros Hc Hin. destruct (proj1 (consistent_all h) Hc p) as (_ & Hall & _).
  rewrite Forall_forall in Hall. by apply Hall.
Qed.

Lemma consistent_parent h c p :
  consistent h → parent_of h c = Some p →
  c ∈ children_of h p ∧ may_be_child <$> kind_of h c = Some true
  ∧ kind_of h c ≠ Some KFragment.
Proof.
  intros Hc Hp. destruct (proj1 (consistent_all h) Hc c) as (_ & _ & _ & Hpar).
  by rewrite Hp in Hpar.
Qed.

Lemma consistent_has_children h p c :
  consistent h → c ∈ children_of h p →
  may_have_children <$> kind_of h p = Some true.
Proof.
  intros Hc Hin. destruct (proj1 (consistent_all h) Hc p) as (_ & _ & [He|Hk] & _);
    [|done].
  rewrite He in Hin. by apply elem_of_nil in Hin.
Qed.

Lemma consistent_not_child h p c :
  consistent h → parent_of h c ≠ Some p → c ∉ children_of h p.
Proof. intros Hc Hp Hin. by destruct (consistent_child h p c Hc Hin). Qed.

(** How a heap is consistent depends on its links and kinds only. *)
Lemma detach_consistent h c : consistent h → consistent (detach h c).
Proof.
  intros Hc. apply consistent_all. intros i.
  unfold linked. rewrite detach_children, detach_parent, detach_kind.
  destruct (proj1 (consistent_all h) Hc i) as (Hnd & Hall & Hk & Hpar).
  assert (Hsub : ∀ x, x ∈ (if decide (parent_of h c = Some i)
                           then filter (λ x, x ≠ c) (children_of h i)
                           else children_of h i) →
                      x ∈ children_of h i ∧ x ≠ c).
  { intros x. case_decide as Hci.
    - rewrite list_elem_of_filter. tauto.
    - intros Hx. split; [done|]. intros ->.
      by destruct (consistent_child h i c Hc Hx). }
  split; [destruct (decide (parent_of h c = Some i)); [by apply NoDup_filter|done]|].
  split.
  { apply Forall_forall. intros x Hx. destruct (Hsub x Hx) as [Hx' Hxc].
    rewrite detach_parent, decide_False by done.
    by apply (consistent_child h i x). }
  split.
  { destruct Hk as [He|Hk]; [left|by right].
    destruct (decide (parent_of h c = Some i)); by rewrite He. }
  destruct (decide (i = c)) as [->|Hic]; [done|].
  destruct (parent_of h i) as [q|] eqn:Hq; [|done].
  destruct Hpar as (Hin & Hk1 & Hk2). rewrite detach_children.
  split; [|done]. destruct (decide (parent_of h c = Some q)); [|done].
  rewrite list_elem_of_filter. done.
Qed.

Lemma detach_no_parent h c : parent_of (detach h c) c = None.
Proof. by rewrite detach_parent, decide_True. Qed.

Lemma put_consistent h p ref c :
  consistent h → p ≠ c →
  may_have_children <$> kind_of h p = Some true →
  may_be_child <$> kind_of h c = Some true →
  kind_of h c ≠ Some KFragment →
  consistent (put p ref h c).
Proof.
  intros Hc Hpc Hkp Hkc Hfr.
  pose proof (detach_consistent h c Hc) as Hd.
  assert (Hap : is_Some (h !! p)).
  { unfold kind_of in Hkp. destruct (h !! p); [by eexists|done]. }
  assert (Hac : is_Some (h !! c)).
  { unfold kind_of in Hkc. destruct (h !! c); [by eexists|done]. }
  assert (Hno : ∀ i, c ∉ children_of (detach h c) i).
  { intros i. apply consistent_not_child; [done|].
    by rewrite detach_no_parent. }
  assert (Hpar : ∀ i, parent_of (put p ref h c) i
                      = if decide (i = c) then Some p
                        else parent_of (detach h c) i).
  { intros i. rewrite put_parent, detach_parent by done. by case_decide. }
  apply consistent_all. intros i. unfold linked.
  rewrite put_children, Hpar, put_kind by done.
  destruct (proj1 (consistent_all _) Hd i) as (Hnd & Hall & Hk & Hpi).
  rewrite detach_kind in Hk, Hpi.
  split; [destruct (decide (i = p)); [subst; by apply NoDup_place|done]|].
  split.
  { apply Forall_forall. intros x Hx. rewrite Hpar.
    destruct (decide (i = p)) as [->|Hip].
    - apply elem_of_place in Hx as [->|Hx].
      + by rewrite decide_True.
      + rewrite decide_False by (intros ->; by apply (Hno p)).
        by apply (consistent_child _ p x Hd).
    - rewrite decide_False by (intros ->; by apply (Hno i)).
      by apply (consistent_child _ i x Hd). }
  split; [destruct (decide (i = p)); [subst; by right|done]|].
  destruct (decide (i = c)) as [->|Hic].
  - rewrite put_children, decide_True by done.
    split; [apply elem_of_place; by left|done].
  - destruct (parent_of (detach h c) i) as [q|]; [|done].
    destruct Hpi as (Hin & Hk1 & Hk2). split; [|done].
    rewrite put_children by done. destruct (decide (q = p)) as [->|]; [|done].
    apply elem_of_place. by right.
Qed.

(** A run of insertions, one child after the other. *)
Lemma puts_consistent p ref (xs : list nat) :
  ∀ h, consistent h → p ∉ xs →
    may_have_children <$> kind_of h p = Some true →
    Forall (λ x, may_be_child <$> kind_of h x = Some true
                 ∧ kind_of h x ≠ Some KFragment) xs →
    consistent (foldl (put p ref) h xs).
Proof.
  induction xs as [|x xs IH]; intros h Hc Hp Hkp Hxs; simpl; [done|].
  apply not_elem_of_cons in Hp as [Hpx Hp].
  apply Forall_cons in Hxs as [[Hx1 Hx2] Hxs].
  apply IH; [by apply put_consistent|done|by rewrite put_kind|].
  eapply Forall_impl; [exact Hxs|]. intros y. by rewrite put_kind.
Qed.

End consistent_props.

(** * [remove] and [clear] *)

Section remove_props.
Import Dom Edit.

Lemma child_kind_is_node (k : kind) : may_be_child k = true → is_node k = true.
Proof. by destruct k. Qed.

Lemma parent_kind_is_node (k : kind) : may_have_children k = true → is_node k = true.
Proof. by destruct k. Qed.

Lemma detach_skel h c i :
  parent_of h c ≠ Some i → skel <$> detach h c !! i = skel <$> h !! i.
Proof.
  intros Hq. rewrite detach_lookup. destruct (h !! i) as [r|]; [|done]. simpl.
  destruct (parent_of h c) as [q|]; [|done].
  rewrite (decide_False (P := (q = i))) by congruence. by case_decide.
Qed.

(** In a consistent tree [removeChild] finds the child where its parent
    link says. *)
Lemma removeChild_of_parent h p c :
  consistent h → parent_of h c = Some p →
  removeChild h p c = Done (detach h c, c).
Proof.
  intros Hc Hp. destruct (consistent_parent h c p Hc Hp) as (Hin & Hkc & _).
  pose proof (consistent_has_children h p c Hc Hin) as Hkp.
  unfold removeChild.
  destruct (kind_of h p) as [kp|]; [|done]. destruct (kind_of h c) as [kc|]; [|done].
  simpl in Hkp, Hkc. injection Hkp as Hkp. injection Hkc as Hkc.
  rewrite (parent_kind_is_node kp Hkp), (child_kind_is_node kc Hkc). simpl.
  by rewrite bool_decide_eq_true_2.
Qed.

(** X13.  [remove] on a node without a parent is a [TypeError].
    Otherwise the node is returned; it has no parent any more, and its
    parent has lost it and nothing else; the node keeps its kind and its
    own children; the tree stays consistent. *)
Theorem remove_takes_the_node_out (h : heap) (n : nat) :
  consistent h →
  match parent_of h n with
  | None => _remove h n = Fail (Raised TypeError)
  | Some p =>
      ∃ h',
        _remove h n = Done (h', n)
        ∧ length h' = length h
        ∧ parent_of h' n = None
        ∧ children_of h' p = filter (λ x, x ≠ n) (children_of h p)
        ∧ (n ∉ children_of h' p)
        ∧ (∀ i, i ≠ n → parent_of h' i = parent_of h i)
        ∧ (∀ i, i ≠ p → skel <$> h' !! i = skel <$> h !! i)
        ∧ kind_of h' p = kind_of h p
        ∧ content_of h' p = content_of h p
        ∧ consistent h'
  end.
Proof.
  intros Hc. unfold _remove. destruct (parent_of h n) as [p|] eqn:Hp; [|done].
  exists (detach h n). split; [by apply removeChild_of_parent|].
  split; [apply detach_length|]. split; [apply detach_no_parent|].
  split; [by rewrite detach_children, decide_True|].
  split.
  { rewrite detach_children, decide_True by done. apply not_elem_of_filter_ne. }
  split; [intros i Hi; by rewrite detach_parent, decide_False|].
  split; [intros i Hi; apply detach_skel; congruence|].
  split; [apply detach_kind|]. split; [apply detach_content|].
  by apply detach_consistent.
Qed.

(** The loop of [clear], with the children still there. *)
Lemma clear_loop (n : nat) (xs : list nat) :
  ∀ fuel h,
    consistent h → children_of h n = xs → length xs < fuel →
    ∃ h',
      _clear fuel h n = Some (Done h')
      ∧ children_of h' n = []
      ∧ (∀ c, c ∈ xs → parent_of h' c = None)
      ∧ (∀ i, i ∉ xs → parent_of h' i = parent_of h i)
      ∧ (∀ i, i ≠ n → skel <$> h' !! i = skel <$> h !! i)
      ∧ kind_of h' n = kind_of h n
      ∧ content_of h' n = content_of h n
      ∧ length h' = length h
      ∧ consistent h'.
Proof.
  induction xs as [|c ys IH] using rev_ind; intros fuel h Hc Hxs Hfuel.
  - destruct fuel as [|fuel]; [simpl in Hfuel; lia|].
    exists h. simpl. unfold lastChild. rewrite Hxs. simpl.
    do 2 (split; [done|]). split; [|done].
    intros c Hin. by apply elem_of_nil in Hin.
  - rewrite length_app in Hfuel. simpl in Hfuel.
    destruct fuel as [|fuel]; [lia|]. simpl. unfold lastChild.
    rewrite Hxs, last_snoc.
    assert (Hin : c ∈ children_of h n).
    { rewrite Hxs, elem_of_app, list_elem_of_singleton. by right. }
    destruct (consistent_child h n c Hc Hin) as [Hp Hcn].
    rewrite (removeChild_of_parent h n c Hc Hp).
    pose proof (consistent_NoDup h n Hc) as Hnd. rewrite Hxs in Hnd.
    apply NoDup_app in Hnd as (Hndy & Hdis & _).
    assert (Hcy : c ∉ ys).
    { intros Hy. apply (Hdis c Hy). by apply list_elem_of_singleton. }
    assert (Hys : children_of (detach h c) n = ys).
    { rewrite detach_children, decide_True, Hxs by done.
      rewrite filter_app, filter_ne_id by done.
      rewrite filter_cons_False by (by intros ?). by rewrite app_nil_r. }
    destruct (IH fuel (detach h c)) as (h' & Hrun & K1 & K2 & K3 & K4 & K5 & K6 & K7 & K8);
      [by apply detach_consistent|done|lia|].
    exists h'. split; [done|]. split; [done|]. split.
    { intros x [Hx|Hx%list_elem_of_singleton]%elem_of_app; [by apply K2|].
      subst x. rewrite K3 by done. apply detach_no_parent. }
    split.
    { intros i Hi. rewrite elem_of_app, list_elem_of_singleton in Hi.
      rewrite K3 by tauto. rewrite detach_parent, decide_False; [done|].
      intros ->. tauto. }
    split.
    { intros i Hi. rewrite K4 by done. apply detach_skel. congruence. }
    split; [by rewrite K5, detach_kind|].
    split; [by rewrite K6, detach_content|].
    split; [by rewrite K7, detach_length|done].
Qed.

(** X14.  [clear] ends, within one turn of its loop per child and one to
    leave, and throws nothing.  Afterwards the node has no children; every
    child it had is without a parent and keeps its own kind and children;
    no other link changes, and the tree stays consistent. *)
Theorem clear_removes_every_child (fuel : nat) (h : heap) (n : nat) :
  consistent h → length (children_of h n) < fuel →
  ∃ h',
    _clear fuel h n = Some (Done h')
    ∧ children_of h' n = []
    ∧ (∀ c, c ∈ children_of h n → parent_of h' c = None)
    ∧ (∀ i, i ∉ children_of h n → parent_of h' i = parent_of h i)
    ∧ (∀ i, i ≠ n → skel <$> h' !! i = skel <$> h !! i)
    ∧ kind_of h' n = kind_of h n
    ∧ content_of h' n = content_of h n
    ∧ length h' = length h
    ∧ consistent h'.
Proof. intros Hc Hfuel. by apply (clear_loop n (children_of h n)). Qed.

End remove_props.

(** * The four insertions *)

Section insert_props.
Import Dom Edit.

(** With fuel for the lineage, the walk of [is_ancestor] tells whether the
    node is on it. *)
Lemma is_ancestor_lineage (h : heap) (a : nat) :
  ∀ n path, lineage h n path →
    ∀ fuel, length path ≤ fuel →
      is_ancestor fuel h a n = Some (bool_decide (a ∈ path)).
Proof.
  induction 1 as [n Hp Hh|n p path Hp _ IH|n t path Hp Hh _ IH];
    intros fuel Hfuel; simpl in Hfuel; (destruct fuel as [|fuel]; [lia|]); simpl.
  - destruct (decide (a = n)) as [->|Hne].
    + rewrite bool_decide_eq_true_2; [done|]. left.
    + rewrite Hp, Hh. rewrite bool_decide_eq_false_2; [done|].
      by intros ?%list_elem_of_singleton.
  - destruct (decide (a = n)) as [->|Hne].
    + rewrite bool_decide_eq_true_2; [done|]. left.
    + rewrite Hp, IH by lia. f_equal. apply bool_decide_ext.
      rewrite elem_of_cons. tauto.
  - destruct (decide (a = n)) as [->|Hne].
    + rewrite bool_decide_eq_true_2; [done|]. left.
    + rewrite Hp, Hh, IH by lia. f_equal. apply bool_decide_ext.
      rewrite elem_of_cons. tauto.
Qed.

Lemma lineage_starts (h : heap) n path : lineage h n path → n ∈ path.
Proof. destruct 1; left. Qed.

Lemma detach_children_consistent h c i :
  consistent h →
  children_of (detach h c) i = filter (λ x, x ≠ c) (children_of h i).
Proof.
  intros Hc. rewrite detach_children.
  destruct (decide (parent_of h c = Some i)) as [|Hne]; [done|].
  symmetry. apply filter_ne_id. by apply consistent_not_child.
Qed.

Lemma put_put_into h p ref c :
  consistent h → is_Some (h !! p) → is_Some (h !! c) →
  put_into h (put p ref h c) p c
           (place c ref (filter (λ x, x ≠ c) (children_of h p))).
Proof.
  intros Hc Hp Hcc. unfold put_into.
  split; [apply put_length|].
  split; [intros i; by rewrite put_kind, put_content|].
  split; [intros i; by apply put_parent|].
  intros i. rewrite put_children by done.
  destruct (decide (i = p)); by rewrite detach_children_consistent.
Qed.

(** The checks of [insertBefore] pass for a node that is insertable. *)
Lemma insertBefore_insertable fuel h p c child path :
  insertable h p c path → length path ≤ fuel →
  (∀ x, child = Some x → parent_of h x = Some p) →
  insertBefore fuel h p c child
  = Some (Done (put p (if decide (child = Some c)
                       then nextSibling h c else child) h c, c)).
Proof.
  intros ((kp & Hkp & Hp) & (kc & Hkc & Hc1 & Hc2) & Hl & Hcp) Hfuel Hchild.
  unfold insertBefore. rewrite Hkp, Hkc.
  assert (Hmp : may_have_children kp = true) by (by destruct kp).
  rewrite (parent_kind_is_node kp Hmp), (child_kind_is_node kc Hc1), Hmp. simpl.
  rewrite (is_ancestor_lineage h c p path Hl) by done.
  rewrite bool_decide_eq_false_2 by done.
  assert (Hch : match child with
                | Some c0 => negb (bool_decide (parent_of h c0 = Some p))
                | None => false
                end = false).
  { destruct child as [x|]; [|done].
    by rewrite bool_decide_eq_true_2 by (by apply Hchild). }
  rewrite Hch, Hc1. simpl.
  rewrite (bool_decide_eq_false_2 (kp = KDocument)) by (by destruct kp).
  simpl. by rewrite Hc2.
Qed.

Lemma insertable_allocated h p c path :
  insertable h p c path → is_Some (h !! p) ∧ is_Some (h !! c) ∧ p ≠ c.
Proof.
  intros ((kp & Hkp & _) & (kc & Hkc & _) & Hl & Hcp).
  unfold kind_of in Hkp, Hkc.
  split; [destruct (h !! p); [by eexists|done]|].
  split; [destruct (h !! c); [by eexists|done]|].
  intros ->. by apply Hcp, (lineage_starts h).
Qed.

Lemma insertable_consistent h p ref c path :
  consistent h → insertable h p c path → consistent (put p ref h c).
Proof.
  intros Hc Hins. destruct (insertable_allocated h p c path Hins) as (_ & _ & Hne).
  destruct Hins as ((kp & Hkp & Hp) & (kc & Hkc & Hc1 & Hc2) & _).
  apply put_consistent; try done.
  - rewrite Hkp. simpl. f_equal. by destruct kp.
  - rewrite Hkc. simpl. by f_equal.
  - rewrite Hkc. intros [= ->]. done.
Qed.

(** The reference of [prependChild], once the node itself is set aside. *)
Lemma prepend_reference h p c :
  consistent h →
  (if decide (firstChild h p = Some c) then nextSibling h c else firstChild h p)
  = head (filter (λ x, x ≠ c) (children_of h p)).
Proof.
  intros Hc. unfold firstChild.
  rewrite head_filter_ne by (by apply consistent_NoDup).
  destruct (decide (head (children_of h p) = Some c)) as [Hh|]; [|done].
  destruct (children_of h p) as [|x cs] eqn:Hcs; [done|].
  injection Hh as ->. unfold nextSibling.
  assert (Hin : c ∈ children_of h p) by (rewrite Hcs; left).
  destruct (consistent_child h p c Hc Hin) as [-> _]. simpl.
  rewrite Hcs. simpl. by rewrite decide_True.
Qed.

(** X15.  [prependChild] makes the node the first child of the parent: it
    is taken from where it was, also from among the children of the parent
    itself, and stands before the children that remain; on a parent
    without children it is the only child.  The node is returned, no other
    link changes, and the tree stays consistent. *)
Theorem prependChild_makes_the_first_child
    (fuel : nat) (h : heap) (p c : nat) (path : list nat) :
  consistent h → insertable h p c path → length path ≤ fuel →
  ∃ h',
    _prependChild fuel h p c = Some (Done (h', c))
    ∧ put_into h h' p c (c :: filter (λ x, x ≠ c) (children_of h p))
    ∧ firstChild h' p = Some c
    ∧ consistent h'.
Proof.
  intros Hc Hins Hfuel.
  destruct (insertable_allocated h p c path Hins) as (Hp & Hcc & Hne).
  unfold _prependChild.
  rewrite (insertBefore_insertable fuel h p c _ path Hins Hfuel).
  2:{ intros x Hx. apply (consistent_child h p x Hc).
      unfold firstChild in Hx. by apply head_Some_elem_of. }
  rewrite prepend_reference by done.
  eexists. split; [done|].
  pose proof (put_put_into h p (head (filter (λ x, x ≠ c) (children_of h p))) c
                Hc Hp Hcc) as Hput.
  rewrite place_before_head in Hput.
  split; [done|]. split.
  - unfold firstChild. destruct Hput as (_ & _ & _ & Hch).
    by rewrite Hch, decide_True.
  - by apply (insertable_consistent h p _ c path).
Qed.

(** X16.  [appendChild] makes the node the last child of the parent: it is
    taken from where it was, also from among the children of the parent
    itself, and stands behind the children that remain.  The node is
    returned, no other link changes, and the tree stays consistent. *)
Theorem appendChild_makes_the_last_child
    (fuel : nat) (h : heap) (p c : nat) (path : list nat) :
  consistent h → insertable h p c path → length path ≤ fuel →
  ∃ h',
    _appendChild fuel h p c = Some (Done (h', c))
    ∧ put_into h h' p c (filter (λ x, x ≠ c) (children_of h p) ++ [c])
    ∧ lastChild h' p = Some c
    ∧ consistent h'.
Proof.
  intros Hc Hins Hfuel.
  destruct (insertable_allocated h p c path Hins) as (Hp & Hcc & Hne).
  unfold _appendChild, appendChild.
  rewrite (insertBefore_insertable fuel h p c None path Hins Hfuel) by done.
  rewrite decide_False by done.
  eexists. split; [done|].
  pose proof (put_put_into h p None c Hc Hp Hcc) as Hput.
  split; [done|]. split.
  - unfold lastChild. destruct Hput as (_ & _ & _ & Hch).
    rewrite Hch, decide_True by done. apply last_snoc.
  - by apply (insertable_consistent h p _ c path).
Qed.

(** X17.  [prependSibling] on an anchor without a parent is a
    [TypeError].  Otherwise the node is taken from where it was, also from
    among the siblings of the anchor, and stands right before the anchor
    among the children of the anchor's parent. *)
Theorem prependSibling_puts_the_node_before_the_anchor
    (fuel : nat) (h : heap) (a c : nat) :
  consistent h →
  match parent_of h a with
  | None => _prependSibling fuel h a c = Some (Fail (Raised TypeError))
  | Some p =>
      ∀ path xs ys,
        insertable h p c path → length path ≤ fuel → c ≠ a →
        children_of h p = xs ++ a :: ys →
        ∃ h',
          _prependSibling fuel h a c = Some (Done (h', c))
          ∧ put_into h h' p c
              (filter (λ x, x ≠ c) xs ++ c :: a :: filter (λ x, x ≠ c) ys)
          ∧ consistent h'
  end.
Proof.
  intros Hc. unfold _prependSibling.
  destruct (parent_of h a) as [p|] eqn:Hpa; [|done].
  intros path xs ys Hins Hfuel Hca Hcs.
  destruct (insertable_allocated h p c path Hins) as (Hp & Hcc & Hne).
  rewrite (insertBefore_insertable fuel h p c (Some a) path Hins Hfuel)
    by (by intros x [= <-]).
  rewrite decide_False by congruence.
  eexists. split; [done|].
  split; [|by apply (insertable_consistent h p _ c path)].
  pose proof (put_put_into h p (Some a) c Hc Hp Hcc) as Hput.
  rewrite Hcs in Hput. rewrite filter_app, filter_cons_True in Hput by done.
  rewrite (place_between c _ (a :: _)) in Hput; [done|].
  intros y [= <-]. rewrite list_elem_of_filter. intros [_ Hax].
  pose proof (consistent_NoDup h p Hc) as Hnd. rewrite Hcs in Hnd.
  apply NoDup_app in Hnd as (_ & Hdis & _). apply (Hdis a Hax). left.
Qed.

(** The reference of [appendSibling], once the node itself is set aside. *)
Lemma append_reference h p a c xs ys :
  consistent h → children_of h p = xs ++ a :: ys → c ≠ a →
  nextSibling h a = head ys
  ∧ (if decide (head ys = Some c) then nextSibling h c else head ys)
    = head (filter (λ x, x ≠ c) ys).
Proof.
  intros Hc Hcs Hca.
  pose proof (consistent_NoDup h p Hc) as Hnd. rewrite Hcs in Hnd.
  assert (Hin : ∀ x, x ∈ xs ++ a :: ys → parent_of h x = Some p).
  { intros x Hx. rewrite <- Hcs in Hx. by apply (consistent_child h p x Hc). }
  apply NoDup_app in Hnd as (Hndx & Hdis & Hnd).
  apply NoDup_cons in Hnd as [Hay Hndy].
  assert (Hax : a ∉ xs) by (intros Hx; apply (Hdis a Hx); left).
  split.
  { unfold nextSibling. rewrite (Hin a) by (apply elem_of_app; right; left).
    simpl. rewrite Hcs. by apply next_in_middle. }
  rewrite head_filter_ne by done.
  destruct (decide (head ys = Some c)) as [Hh|]; [|done].
  destruct ys as [|y ys']; [done|]. injection Hh as ->. simpl.
  unfold nextSibling.
  rewrite (Hin c) by (apply elem_of_app; right; right; left). simpl.
  rewrite Hcs. change (xs ++ a :: c :: ys') with (xs ++ [a] ++ c :: ys').
  rewrite app_assoc. apply next_in_middle.
  rewrite elem_of_app, list_elem_of_singleton. intros [Hx|?]; [|done].
  apply (Hdis c Hx). right; left.
Qed.

(** X18.  [appendSibling] on an anchor without a parent is a [TypeError].
    Otherwise the node is taken from where it was, also from among the
    siblings of the anchor, and stands right behind the anchor among the
    children of the anchor's parent; behind the last child it is the last
    child. *)
Theorem appendSibling_puts_the_node_behind_the_anchor
    (fuel : nat) (h : heap) (a c : nat) :
  consistent h →
  match parent_of h a with
  | None => _appendSibling fuel h a c = Some (Fail (Raised TypeError))
  | Some p =>
      ∀ path xs ys,
        insertable h p c path → length path ≤ fuel → c ≠ a →
        children_of h p = xs ++ a :: ys →
        ∃ h',
          _appendSibling fuel h a c = Some (Done (h', c))
          ∧ put_into h h' p c
              (filter (λ x, x ≠ c) xs ++ a :: c :: filter (λ x, x ≠ c) ys)
          ∧ consistent h'
  end.
Proof.
  intros Hc. unfold _appendSibling.
  destruct (parent_of h a) as [p|] eqn:Hpa; [|done].
  intros path xs ys Hins Hfuel Hca Hcs.
  destruct (insertable_allocated h p c path Hins) as (Hp & Hcc & Hne).
  destruct (append_reference h p a c xs ys Hc Hcs Hca) as [Hnext Href].
  rewrite (insertBefore_insertable fuel h p c _ path Hins Hfuel).
  2:{ intros x Hx. apply (consistent_child h p x Hc). rewrite Hcs.
      rewrite Hnext in Hx. apply head_Some_elem_of in Hx.
      apply elem_of_app. right. by right. }
  rewrite Hnext, Href.
  eexists. split; [done|].
  split; [|by apply (insertable_consistent h p _ c path)].
  pose proof (put_put_into h p (head (filter (λ x, x ≠ c) ys)) c Hc Hp Hcc) as Hput.
  rewrite Hcs in Hput. rewrite filter_app, filter_cons_True in Hput by done.
  change (filter (λ x, x ≠ c) xs ++ a :: filter (λ x, x ≠ c) ys)
    with (filter (λ x, x ≠ c) xs ++ [a] ++ filter (λ x, x ≠ c) ys) in Hput.
  rewrite app_assoc in Hput. rewrite place_between in Hput.
  { by rewrite <- app_assoc in Hput. }
  intros y Hy%head_Some_elem_of. apply list_elem_of_filter in Hy as [_ Hy].
  pose proof (consistent_NoDup h p Hc) as Hnd. rewrite Hcs in Hnd.
  apply NoDup_app in Hnd as (_ & Hdis & Hnd).
  apply NoDup_cons in Hnd as [Hay _].
  rewrite elem_of_app, list_elem_of_singleton.
  intros [[_ Hx]%list_elem_of_filter| ->]; [|done].
  apply (Hdis y Hx). by right.
Qed.

End insert_props.

(** * The insertions: round trips, refusals, fragments *)

Section insert_more.
Import Dom Edit.

(** Taking out a node that had no parent before it was put in gives the
    tree back, cell by cell. *)
Lemma detach_put h p ref c :
  consistent h → p ≠ c → is_Some (h !! c) → parent_of h c = None →
  detach (put p ref h c) c = h.
Proof.
  intros Hc Hne [rc Hrc] Hpar.
  assert (Hd : detach h c = h) by (unfold detach; by rewrite Hpar).
  assert (Hp1 : parent_of (put p ref h c) c = Some p).
  { rewrite put_parent by eauto. by rewrite decide_True. }
  apply list_eq. intros i. rewrite detach_lookup, Hp1.
  unfold put. rewrite Hd, !lookup_alter_at.
  destruct (h !! i) as [r|] eqn:Hr; [|done]. simpl. f_equal.
  destruct (decide (c = i)) as [->|Hci].
  - rewrite (decide_False (P := (p = i))) by done. simpl.
    rewrite Hrc in Hr. injection Hr as <-.
    unfold parent_of in Hpar. rewrite Hrc in Hpar. simpl in Hpar.
    destruct (decide (p = i)); [done|].
    destruct rc as [k par cs co]. simpl in *. subst par. done.
  - simpl. destruct (decide (p = i)) as [->|Hpi]; [|done].
    assert (Hcs : c ∉ childNodes r).
    { replace (childNodes r) with (children_of h i)
        by (unfold children_of; by rewrite Hr).
      apply consistent_not_child; [done|]. by rewrite Hpar. }
    destruct r as [k par cs co]. unfold set_children. simpl in *. f_equal.
    by apply filter_ne_place.
Qed.

Lemma remove_after_put h p ref c path :
  consistent h → insertable h p c path → parent_of h c = None →
  _remove (put p ref h c) c = Done (h, c).
Proof.
  intros Hc Hins Hpar.
  destruct (insertable_allocated h p c path Hins) as (Hp & Hcc & Hne).
  assert (Hp1 : parent_of (put p ref h c) c = Some p).
  { rewrite put_parent by done. by rewrite decide_True. }
  unfold _remove. rewrite Hp1.
  rewrite removeChild_of_parent;
    [|by apply (insertable_consistent h p ref c path)|done].
  by rewrite detach_put.
Qed.

(** X19.  A node without a parent that is put into the tree by one of the
    four insertions and then removed with [remove] leaves the tree as it
    was, cell by cell. *)
Theorem insert_then_remove_restores_the_tree
    (fuel : nat) (h : heap) (p c : nat) (path : list nat) :
  consistent h → insertable h p c path → length path ≤ fuel →
  parent_of h c = None →
  (∃ h1, _appendChild fuel h p c = Some (Done (h1, c))
         ∧ _remove h1 c = Done (h, c))
  ∧ (∃ h1, _prependChild fuel h p c = Some (Done (h1, c))
           ∧ _remove h1 c = Done (h, c))
  ∧ (∀ a, parent_of h a = Some p →
       (∃ h1, _prependSibling fuel h a c = Some (Done (h1, c))
              ∧ _remove h1 c = Done (h, c))
       ∧ (∃ h1, _appendSibling fuel h a c = Some (Done (h1, c))
                ∧ _remove h1 c = Done (h, c))).
Proof.
  intros Hc Hins Hfuel Hpar.
  assert (Hchild : ∀ x, x ∈ children_of h p → parent_of h x = Some p).
  { intros x Hx. by apply (consistent_child h p x Hc). }
  split.
  { unfold _appendChild, appendChild.
    rewrite (insertBefore_insertable fuel h p c None path Hins Hfuel) by done.
    eexists. split; [done|]. by apply (remove_after_put h p _ c path). }
  split.
  { unfold _prependChild.
    rewrite (insertBefore_insertable fuel h p c _ path Hins Hfuel).
    - eexists. split; [done|]. by apply (remove_after_put h p _ c path).
    - intros x Hx. apply Hchild. by apply head_Some_elem_of. }
  intros a Hpa. split.
  - unfold _prependSibling. rewrite Hpa.
    rewrite (insertBefore_insertable fuel h p c (Some a) path Hins Hfuel)
      by (by intros x [= <-]).
    eexists. split; [done|]. by apply (remove_after_put h p _ c path).
  - unfold _appendSibling. rewrite Hpa.
    rewrite (insertBefore_insertable fuel h p c _ path Hins Hfuel).
    + eexists. split; [done|]. by apply (remove_after_put h p _ c path).
    + intros x Hx. unfold nextSibling in Hx. rewrite Hpa in Hx. simpl in Hx.
      apply Hchild. clear -Hx. induction (children_of h p) as [|y cs IH]; [done|].
      simpl in Hx. destruct (decide (y = a)).
      * right. by apply head_Some_elem_of.
      * right. by apply IH.
Qed.

(** X20.  No insertion makes a node a child of itself or of a node below
    it: when the node to insert is the parent or above the parent, each of
    the four helpers throws a [HierarchyRequestError], whatever the
    position asked for. *)
Theorem insertion_refuses_an_ancestor
    (fuel : nat) (h : heap) (p c : nat) (path : list nat) :
  lineage h p path → c ∈ path → length path ≤ fuel →
  (∃ kp, kind_of h p = Some kp ∧ may_have_children kp = true) →
  (∃ kc, kind_of h c = Some kc ∧ is_node kc = true) →
  _appendChild fuel h p c = Some (Fail (Raised HierarchyRequestError))
  ∧ _prependChild fuel h p c = Some (Fail (Raised HierarchyRequestError))
  ∧ (∀ a, parent_of h a = Some p →
       _prependSibling fuel h a c = Some (Fail (Raised HierarchyRequestError))
       ∧ _appendSibling fuel h a c = Some (Fail (Raised HierarchyRequestError))).
Proof.
  intros Hl Hin Hfuel (kp & Hkp & Hmp) (kc & Hkc & Hnc).
  assert (Hall : ∀ child, insertBefore fuel h p c child
                          = Some (Fail (Raised HierarchyRequestError))).
  { intros child. unfold insertBefore. rewrite Hkp, Hkc.
    rewrite (parent_kind_is_node kp Hmp), Hnc, Hmp. simpl.
    rewrite (is_ancestor_lineage h c p path Hl) by done.
    by rewrite bool_decide_eq_true_2. }
  split; [apply Hall|]. split; [apply Hall|].
  intros a Hpa. unfold _prependSibling, _appendSibling. rewrite Hpa.
  split; apply Hall.
Qed.

Lemma is_ancestor_false_ne fuel h c p :
  is_ancestor fuel h c p = Some false →
  c ≠ p ∧ parent_of h p ≠ Some c.
Proof.
  destruct fuel as [|fuel]; [done|]. simpl.
  destruct (decide (c = p)) as [|Hne]; [done|]. intros Ha. split; [done|].
  intros Hp. rewrite Hp in Ha. destruct fuel as [|fuel]; [done|].
  simpl in Ha. by rewrite decide_True in Ha.
Qed.

Lemma insertBefore_consistent fuel h p c child h' x :
  consistent h →
  insertBefore fuel h p c child = Some (Done (h', x)) →
  consistent h' ∧ x = c.
Proof.
  intros Hc. unfold insertBefore.
  destruct (kind_of h p) as [kp|] eqn:Hkp; [|done].
  destruct (kind_of h c) as [kc|] eqn:Hkc; [|done].
  destruct (negb (is_node kp) || negb (is_node kc)); [done|].
  destruct (may_have_children kp) eqn:Hmp; [|done]. simpl.
  destruct (is_ancestor fuel h c p) as [[|]|] eqn:Ha; try done.
  destruct (is_ancestor_false_ne fuel h c p Ha) as [Hne Hnp].
  destruct (match child with Some _ => _ | None => _ end); [done|].
  destruct (may_be_child kc) eqn:Hmc; [|done]. simpl.
  destruct (bool_decide (kp = KDocument) && negb (document_takes h p c kc)); [done|].
  intros [= <- <-]. split; [|done].
  destruct (is_fragment kc) eqn:Hf.
  - apply puts_consistent; [done| |by rewrite Hkp; simpl; f_equal|].
    + intros Hin. by destruct (consistent_child h c p Hc Hin).
    + apply Forall_forall. intros y Hy.
      destruct (consistent_child h c y Hc Hy) as [Hpy _].
      by destruct (consistent_parent h y c Hc Hpy) as (_ & ? & ?).
  - apply put_consistent; try done.
    + by rewrite Hkp; simpl; f_equal.
    + by rewrite Hkc; simpl; f_equal.
    + rewrite Hkc. intros [= ->]. done.
Qed.

(** X21.  Whatever the arguments, a call of one of the four insertions that
    returns has returned the node it was given and leaves a consistent
    tree: a fragment as the node, a document as the parent, a node that
    was a child of the parent already. *)
Theorem insertions_keep_the_tree_consistent
    (fuel : nat) (h : heap) (n c : nat) (h' : heap) (x : nat) :
  consistent h →
  _appendChild fuel h n c = Some (Done (h', x))
  ∨ _prependChild fuel h n c = Some (Done (h', x))
  ∨ _prependSibling fuel h n c = Some (Done (h', x))
  ∨ _appendSibling fuel h n c = Some (Done (h', x)) →
  consistent h' ∧ x = c.
Proof.
  intros Hc [Hr|[Hr|[Hr|Hr]]].
  - by apply (insertBefore_consistent fuel h n c None).
  - by apply (insertBefore_consistent fuel h n c (firstChild h n)).
  - unfold _prependSibling in Hr. destruct (parent_of h n) as [p|]; [|done].
    by apply (insertBefore_consistent fuel h p c (Some n)).
  - unfold _appendSibling in Hr. destruct (parent_of h n) as [p|]; [|done].
    by apply (insertBefore_consistent fuel h p c (nextSibling h n)).
Qed.

(** On a fragment that stands alone, as [frag] makes them, the insertion
    before [null] is the [appendChild] that the steps of [frag] use. *)
Lemma appendChild_on_a_new_fragment fuel h p c kc :
  kind_of h p = Some KFragment → parent_of h p = None → host_of h p = None →
  kind_of h c = Some kc → is_node kc = true → c ≠ p → 0 < fuel →
  appendChild fuel h p c
  = Some (match Dom.appendChild h p c with
          | Ok h' => Done (h', c)
          | Throw e => Fail (Raised e)
          end).
Proof.
  intros Hkp Hpp Hhp Hkc Hn Hne Hfuel.
  unfold appendChild, insertBefore, Dom.appendChild. rewrite Hkp, Hkc, Hn. simpl.
  destruct fuel as [|fuel]; [lia|]. simpl.
  rewrite decide_False, Hpp, Hhp by done.
  destruct (may_be_child kc); [|done]. simpl. by destruct (is_fragment kc).
Qed.

(** X22.  [appendChild] with a fragment as the node hands the children of
    the fragment over to the parent: they stand behind the children the
    parent had, in their order, the fragment is left without children, and
    it is the fragment that is returned.  No node changes its kind, and no
    other node its links. *)
Theorem appendChild_empties_a_fragment
    (fuel : nat) (h : heap) (p f : nat) (path : list nat) :
  consistent h →
  (∃ kp, kind_of h p = Some kp ∧ is_element kp || is_fragment kp = true) →
  kind_of h f = Some KFragment →
  lineage h p path → f ∉ path → length path ≤ fuel →
  ∃ h',
    _appendChild fuel h p f = Some (Done (h', f))
    ∧ length h' = length h
    ∧ children_of h' p = children_of h p ++ children_of h f
    ∧ children_of h' f = []
    ∧ (∀ x, x ∈ children_of h f → parent_of h' x = Some p)
    ∧ (∀ i, i ∉ children_of h f → parent_of h' i = parent_of h i)
    ∧ (∀ i, i ≠ p → i ≠ f → skel <$> h' !! i = skel <$> h !! i)
    ∧ (∀ i, kind_of h' i = kind_of h i)
    ∧ consistent h'.
Proof.
  intros Hc (kp & Hkp & Hp) Hkf Hl Hfp Hfuel.
  assert (Hmp : may_have_children kp = true) by (by destruct kp).
  assert (Hrun : _appendChild fuel h p f
                 = Some (Done (foldl (put p None) h (children_of h f), f))).
  { unfold _appendChild, appendChild, insertBefore. rewrite Hkp, Hkf.
    rewrite (parent_kind_is_node kp Hmp), Hmp. simpl.
    rewrite (is_ancestor_lineage h f p path Hl) by done.
    rewrite bool_decide_eq_false_2 by done.
    rewrite (bool_decide_eq_false_2 (kp = KDocument)) by (by destruct kp).
    done. }
  destruct (insertBefore_consistent fuel h p f None _ f Hc Hrun) as [Hc' _].
  rewrite Hrun. eexists. split; [done|].
  assert (Hpf : p ≠ f) by (intros ->; by apply Hfp, (lineage_starts h)).
  assert (Hnp : parent_of h p ≠ Some f).
  { intros Hpp. apply Hfp. inversion Hl as [n Hn|n q path' Hq Hl'|n t path' Hn]; subst.
    - congruence.
    - rewrite Hpp in Hq. injection Hq as <-. right. by apply (lineage_starts h).
    - congruence. }
  assert (Hm : moving p f h (children_of h f)).
  { split.
    - unfold kind_of in Hkp. destruct (h !! p); [by eexists|done].
    - done.
    - intros x Hx. by apply (consistent_child h f x Hc).
    - by apply consistent_NoDup.
    - done.
    - by apply consistent_not_child.
    - intros Hin. by destruct (consistent_child h f f Hc Hin). }
  destruct (moves_done p f (children_of h f) h (children_of h p) Hm eq_refl)
    as (K1 & K2 & K3 & K4 & K5 & K6 & K7 & K8).
  change (foldl (put p None) h (children_of h f))
    with (foldl (move p) h (children_of h f)).
  do 7 (split; [done|]). exact Hc'.
Qed.

End insert_more.

(** * The further properties at work *)

Section js_more_samples.
Import Js JsSample JsSample2.

Lemma addDefaults_again_changes_nothing_witness :
  ∃ st',
    (is_Some (sample_store !! 6)
     ∧ _addDefaults sample_realm sample_store (VObj 6) 7 = Ok (st', VObj 6))
    ∧ _addDefaults sample_realm st' (VObj 6) 7 = Ok (st', VObj 6).
Proof.
  eexists. split; [split; [eexists; reflexivity|vm_compute; reflexivity]|].
  apply (addDefaults_again_changes_nothing sample_realm sample_store _ 6 7);
    [eexists; reflexivity|vm_compute; reflexivity].
Defined.

Lemma addDefaults_makes_the_object_when_given_none_witness :
  ∃ op,
    (truthy VUndefined = false
     ∧ sample_store !! 7 = Some defaults
     ∧ sample_store !! ObjectPrototype sample_realm = Some op
     ∧ proto op = None)
    ∧ ∃ st' l o',
        _addDefaults sample_realm sample_store VUndefined 7 = Ok (st', VObj l)
        ∧ sample_store !! l = None
        ∧ st' !! l = Some o'
        ∧ proto o' = Some (ObjectPrototype sample_realm)
        ∧ (∀ l', l' ≠ l → st' !! l' = sample_store !! l')
        ∧ (∀ k, own o' !! k =
                match own defaults !! k, own op !! k with
                | Some p, None =>
                    if enumerable p
                    then Some {| pvalue := pvalue p; enumerable := true |}
                    else None
                | _, _ => None
                end).
Proof.
  eexists. split; [repeat split; reflexivity|].
  apply (addDefaults_makes_the_object_when_given_none
           sample_realm sample_store VUndefined 7 defaults); reflexivity.
Defined.

(** The new object gets [a] and [b]; [toString], which the defaults hold
    too, is found on [Object.prototype] and left out. *)
Example addDefaults_of_nothing_sample :
  ∃ st' l,
    _addDefaults sample_realm sample_store VNull 7 = Ok (st', VObj l)
    ∧ own <$> st' !! l
      = Some {[ "a" := shown (VNum 5); "b" := shown (VNum 2) ]}.
Proof. do 2 eexists. split; [vm_compute; reflexivity|]. vm_compute. reflexivity. Qed.

Lemma addDefaults_throws_on_a_primitive_witness :
  (truthy (VNum 5) = true ∧ (∀ l, VNum 5 ≠ VObj l)
   ∧ sample_store !! 7 = Some defaults)
  ∧ _addDefaults sample_realm sample_store (VNum 5) 7
    = match Object_keys defaults with
      | [] => Ok (sample_store, VNum 5)
      | _ :: _ => Throw TypeError
      end.
Proof.
  split; [repeat split; done|].
  apply (addDefaults_throws_on_a_primitive sample_realm sample_store (VNum 5) 7
           defaults); done.
Defined.

Lemma addDefaults_first_defaults_win_witness :
  (store_with_fallback !! 6 = Some options
   ∧ store_with_fallback !! 7 = Some defaults
   ∧ store_with_fallback !! 8 = Some fallback
   ∧ 7 ≠ 6 ∧ 8 ≠ 6)
  ∧ ∃ st1 st2 o'',
      _addDefaults sample_realm store_with_fallback (VObj 6) 7 = Ok (st1, VObj 6)
      ∧ _addDefaults sample_realm st1 (VObj 6) 8 = Ok (st2, VObj 6)
      ∧ st2 !! 6 = Some o''
      ∧ (∀ l', l' ≠ 6 → st2 !! l' = store_with_fallback !! l')
      ∧ (∀ k, has_property store_with_fallback 6 k = true →
           own o'' !! k = own options !! k)
      ∧ (∀ k, has_property store_with_fallback 6 k = false →
           own o'' !! k =
           match own defaults !! k, own fallback !! k with
           | Some p, _ =>
               if enumerable p
               then Some {| pvalue := pvalue p; enumerable := true |}
               else match own fallback !! k with
                    | Some q => if enumerable q
                                then Some {| pvalue := pvalue q; enumerable := true |}
                                else None
                    | None => None
                    end
           | None, Some q =>
               if enumerable q
               then Some {| pvalue := pvalue q; enumerable := true |}
               else None
           | None, None => None
           end).
Proof.
  split; [repeat split; done|].
  apply (addDefaults_first_defaults_win sample_realm store_with_fallback 6 7 8
           options defaults fallback); done.
Defined.

(** [{a: 1}] with [{a: 5, b: 2, ...}] and then [{b: 7, c: 8}]: [b] is the
    one of the first. *)
Example addDefaults_twice_sample :
  ∃ st1 st2,
    _addDefaults sample_realm store_with_fallback (VObj 6) 7 = Ok (st1, VObj 6)
    ∧ _addDefaults sample_realm st1 (VObj 6) 8 = Ok (st2, VObj 6)
    ∧ own <$> st2 !! 6
      = Some {[ "a" := shown (VNum 1); "b" := shown (VNum 2);
                "c" := shown (VNum 8) ]}.
Proof.
  do 2 eexists. split; [vm_compute; reflexivity|].
  split; [vm_compute; reflexivity|]. vm_compute. reflexivity.
Qed.

Lemma members_distinct : NoDup members.*1.
Proof. apply (bool_decide_unpack _). vm_compute. exact I. Qed.

Lemma load_publishes_the_members_witness :
  (is_Some (sample_store !! window sample_realm) ∧ NoDup members.*1)
  ∧ let '(env, st1, inst) := load sample_realm sample_store members in
    sample_store !! inst = None
    ∧ _oldΩ env = get sample_store (window sample_realm) Ω_name
    ∧ get st1 (window sample_realm) Ω_name = VObj inst
    ∧ (∃ o, st1 !! inst = Some o
         ∧ proto o = Some (ObjectPrototype sample_realm)
         ∧ Object_keys o ≡ₚ members.*1
         ∧ (∀ k v, (k, v) ∈ members →
              own o !! k = Some {| pvalue := v; enumerable := true |})
         ∧ (∀ k, k ∉ members.*1 → own o !! k = None))
    ∧ (∀ l, l ≠ inst → l ≠ window sample_realm → st1 !! l = sample_store !! l)
    ∧ (∀ k, k ≠ Ω_name →
         (own <$> st1 !! window sample_realm) ≫= (.!! k)
         = (own <$> sample_store !! window sample_realm) ≫= (.!! k))
    ∧ proto <$> st1 !! window sample_realm
      = proto <$> sample_store !! window sample_realm.
Proof.
  split; [split; [eexists; reflexivity|exact members_distinct]|].
  apply (load_publishes_the_members sample_realm sample_store members);
    [eexists; reflexivity|exact members_distinct].
Defined.

Lemma noConflict_unwinds_a_second_load_witness :
  is_Some (sample_store !! window sample_realm)
  ∧ let '(env1, st1, inst1) := load sample_realm sample_store members in
    let '(env2, st2, inst2) := load sample_realm st1 members in
    inst1 ≠ inst2
    ∧ _oldΩ env2 = VObj inst1
    ∧ (_noConflict sample_realm env2 st2).2 = VObj inst2
    ∧ get (_noConflict sample_realm env2 st2).1 (window sample_realm) Ω_name
      = VObj inst1
    ∧ (_noConflict sample_realm env1 (_noConflict sample_realm env2 st2).1).2
      = VObj inst1
    ∧ get (_noConflict sample_realm env1 (_noConflict sample_realm env2 st2).1).1
          (window sample_realm) Ω_name
      = get sample_store (window sample_realm) Ω_name.
Proof.
  split; [eexists; reflexivity|].
  apply (noConflict_unwinds_a_second_load sample_realm sample_store members members).
  eexists; reflexivity.
Defined.

Lemma noConflict_leaves_the_name_defined_witness :
  is_Some (bare_store !! window sample_realm)
  ∧ let '(env, st1, inst) := load sample_realm bare_store members in
    has_property (_noConflict sample_realm env st1).1 (window sample_realm) Ω_name
    = true
    ∧ (has_property bare_store (window sample_realm) Ω_name = false →
         get (_noConflict sample_realm env st1).1 (window sample_realm) Ω_name
         = VUndefined)
    ∧ (_noConflict sample_realm env (_noConflict sample_realm env st1).1).2
      = get bare_store (window sample_realm) Ω_name
    ∧ (_noConflict sample_realm env (_noConflict sample_realm env st1).1).1
      = (_noConflict sample_realm env st1).1.
Proof.
  split; [eexists; reflexivity|].
  apply (noConflict_leaves_the_name_defined sample_realm bare_store members).
  eexists; reflexivity.
Defined.

(** The name was not defined before the load; after [noConflict] it is,
    and holds [undefined]. *)
Example noConflict_on_a_bare_window_sample :
  has_property bare_store (window sample_realm) Ω_name = false
  ∧ let '(env, st1, inst) := load sample_realm bare_store members in
    has_property (_noConflict sample_realm env st1).1 (window sample_realm) Ω_name
    = true
    ∧ get (_noConflict sample_realm env st1).1 (window sample_realm) Ω_name
      = VUndefined.
Proof. vm_compute. done. Qed.

(** [{constructor: String}] is taken for a string; [{a: 1}] is not. *)
Lemma isString_accepts_exactly_witness :
  (store_with_impostor !! 8 = Some impostor
   ∧ pvalue <$> own impostor !! "constructor" = Some (VObj (StringCtor sample_realm)))
  ∧ _isString sample_realm store_with_impostor (VObj 8) = true
  ∧ _isString sample_realm store_with_impostor (VObj 6) = false
  ∧ _isString sample_realm store_with_impostor (VStr "") = true.
Proof.
  destruct (isString_accepts_exactly sample_realm store_with_impostor)
    as (Hstr & _ & _ & _ & _ & _ & Hown & _).
  split; [split; reflexivity|].
  split; [apply (Hown 8 impostor); reflexivity|].
  split; [reflexivity|apply Hstr].
Defined.

End js_more_samples.

Section ready_more_samples.
Import Ready ReadySample.


End ready_more_samples.

Section dom_more_samples.
Import Dom Walk Edit DomSample DomSample2.

Lemma parent_throws_where_the_elements_end_witness :
  ("div" ≠ "" ∧ disallowed page_env 4 = false
   ∧ leaves page_env page (parent_of page 4) [3; 2] 1
   ∧ all_elements page [3; 2]
   ∧ Forall (λ m, matches_tag page m "div" = false) [3; 2]
   ∧ length [3; 2] < 9)
  ∧ _parent matches_tag 9 page_env page (Val 4) (Val "div") false
    = Some (Throw TypeError).
Proof.
  assert (Hl : leaves page_env page (parent_of page 4) [3; 2] 1).
  { change (parent_of page 4) with (Some 3).
    apply leaves_step; [done|]. change (parent_of page 3) with (Some 2).
    apply leaves_step; [done|]. change (parent_of page 2) with (Some 1).
    by apply leaves_here. }
  assert (Hel : all_elements page [3; 2]) by (by repeat constructor).
  assert (Hno : Forall (λ m, matches_tag page m "div" = false) [3; 2])
    by (by repeat constructor).
  split; [repeat split; try done; simpl; lia|].
  apply (parent_throws_where_the_elements_end matches_tag 9 page_env page 4 "div"
           false [3; 2] 1); try done. simpl. lia.
Defined.

(** From a node that a fragment holds the walk comes to the fragment at
    once. *)
Example parent_throws_inside_a_fragment_sample :
  _parent matches_tag 9 page_env page (Val 11) (Val "div") false
  = Some (Throw TypeError).
Proof. reflexivity. Qed.

Lemma frag_ignores_what_is_no_element_witness :
  default false (is_element <$> kind_of page 8) = false
  ∧ _frag parse_sample 9 page (CNode 8) false
    = Some (Ok (page ++ [empty_fragment], length page))
  ∧ _parseOne parse_sample 9 page (CNode 8) false
    = Some (Ok (page ++ [empty_fragment], length page)).
Proof.
  split; [reflexivity|].
  apply (frag_ignores_what_is_no_element parse_sample 9 page 8 false). reflexivity.
Defined.

Lemma parseOne_returns_the_only_parsed_node_witness :
  ("<b>x</b>" ≠ "" ∧ length (parse_sample "<b>x</b>") < 9)
  ∧ ∃ h' x,
      _parseOne parse_sample 9 page (CStr "<b>x</b>") false = Some (Ok (h', x))
      ∧ (∀ i, i < length page → h' !! i = page !! i)
      ∧ kind_of h' (length page) = Some KFragment
      ∧ children_of h' (length page) = [x]
      ∧ length page < x
      ∧ parent_of h' x = Some (length page)
      ∧ shape (depth (tree_of (MElement "b" [MText "x"]))) h' x
        = Some (tree_of (MElement "b" [MText "x"])).
Proof.
  split; [split; [done|simpl; lia]|].
  apply (parseOne_returns_the_only_parsed_node parse_sample 9 page "<b>x</b>" false);
    [done|simpl; lia].
Defined.

Lemma parseOne_of_an_element_witness :
  (kind_of page 7 = Some (KElement "span")
   ∧ is_element (KElement "span") = true
   ∧ KElement "span" ≠ KTemplate)
  ∧ ((∀ q, parent_of page 7 = Some q → q < length page ∧ q ≠ 7) →
       ∃ h',
         _parseOne parse_sample 9 page (CNode 7) false = Some (Ok (h', 7))
         ∧ kind_of h' (length page) = Some KFragment
         ∧ children_of h' (length page) = [7]
         ∧ parent_of h' 7 = Some (length page)
         ∧ skel <$> h' !! 7 = skel <$> page !! 7
         ∧ (∀ q, parent_of page 7 = Some q → 7 ∉ children_of h' q))
  ∧ (∀ t, shape 9 page 7 = Some t →
       ∃ h',
         _parseOne parse_sample 9 page (CNode 7) true
         = Some (Ok (h', S (length page)))
         ∧ (∀ i, i < length page → h' !! i = page !! i)
         ∧ children_of h' (length page) = [S (length page)]
         ∧ parent_of h' (S (length page)) = Some (length page)
         ∧ shape 9 h' (S (length page)) = Some t).
Proof.
  split; [repeat split; done|].
  apply (parseOne_of_an_element parse_sample 9 page 7 (KElement "span")); done.
Defined.

(** The element comes back, and it has left the [div]. *)
Example parseOne_moves_the_element_sample :
  ∃ h', _parseOne parse_sample 9 page (CNode 7) false = Some (Ok (h', 7))
        ∧ children_of h' 6 = []
        ∧ parent_of h' 7 = Some 13.
Proof. eexists. split; [reflexivity|]. done. Qed.

(** The name of a new element is taken in lowercase, so that [TEMPLATE]
    makes a template. *)
Example makeEl_lowercases_sample :
  _makeEl "TEMPLATE" [] = _makeEl "template" []
  ∧ kind_of (_makeEl "TEMPLATE" []).1 0 = Some KTemplate
  ∧ kind_of (_makeEl "Div" []).1 0 = Some (KElement "div").
Proof. repeat split; reflexivity. Qed.

Lemma page_consistent : consistent page.
Proof. apply (bool_decide_unpack _). vm_compute. exact I. Qed.

Lemma spare_consistent : consistent page_with_spare.
Proof. apply (bool_decide_unpack _). vm_compute. exact I. Qed.

Lemma lineage_of_body : lineage page 5 [5; 2; 1].
Proof.
  apply (lineage_parent page 5 2); [done|].
  apply (lineage_parent page 2 1); [done|].
  by apply lineage_top.
Qed.

Lemma lineage_of_div : lineage page 6 [6; 5; 2; 1].
Proof. apply (lineage_parent page 6 5); [done|]. exact lineage_of_body. Qed.

Lemma lineage_of_span : lineage page 7 [7; 6; 5; 2; 1].
Proof. apply (lineage_parent page 7 6); [done|]. exact lineage_of_div. Qed.

Lemma lineage_of_spare_body : lineage page_with_spare 5 [5; 2; 1].
Proof.
  apply (lineage_parent _ 5 2); [done|].
  apply (lineage_parent _ 2 1); [done|].
  by apply lineage_top.
Qed.

Lemma not_in_lineage (c : nat) (path : list nat) :
  bool_decide (c ∈ path) = false → c ∉ path.
Proof. by intros H%bool_decide_eq_false. Qed.

Lemma remove_takes_the_node_out_witness :
  consistent page
  ∧ ∃ h',
      _remove page 7 = Done (h', 7)
      ∧ length h' = length page
      ∧ parent_of h' 7 = None
      ∧ children_of h' 6 = filter (λ x, x ≠ 7) (children_of page 6)
      ∧ (7 ∉ children_of h' 6)
      ∧ (∀ i, i ≠ 7 → parent_of h' i = parent_of page i)
      ∧ (∀ i, i ≠ 6 → skel <$> h' !! i = skel <$> page !! i)
      ∧ kind_of h' 6 = kind_of page 6
      ∧ content_of h' 6 = content_of page 6
      ∧ consistent h'.
Proof.
  split; [exact page_consistent|].
  exact (remove_takes_the_node_out page 7 page_consistent).
Defined.

(** A node without a parent: the document, and the window, which is no
    node at all. *)
Example remove_without_a_parent_sample :
  _remove page 1 = Fail (Raised TypeError)
  ∧ _remove page 0 = Fail (Raised TypeError).
Proof. split; reflexivity. Qed.

Lemma clear_removes_every_child_witness :
  (consistent page ∧ length (children_of page 5) < 3)
  ∧ ∃ h',
      _clear 3 page 5 = Some (Done h')
      ∧ children_of h' 5 = []
      ∧ (∀ c, c ∈ children_of page 5 → parent_of h' c = None)
      ∧ (∀ i, i ∉ children_of page 5 → parent_of h' i = parent_of page i)
      ∧ (∀ i, i ≠ 5 → skel <$> h' !! i = skel <$> page !! i)
      ∧ kind_of h' 5 = kind_of page 5
      ∧ content_of h' 5 = content_of page 5
      ∧ length h' = length page
      ∧ consistent h'.
Proof.
  split; [split; [exact page_consistent|simpl; lia]|].
  apply (clear_removes_every_child 3 page 5 page_consistent). simpl. lia.
Defined.

Lemma text_insertable_in_body : insertable page 5 8 [5; 2; 1].
Proof.
  split; [by exists (KElement "body")|]. split; [by exists (KText "hi")|].
  split; [exact lineage_of_body|]. by apply not_in_lineage.
Qed.

Lemma prependChild_makes_the_first_child_witness :
  (consistent page ∧ insertable page 5 8 [5; 2; 1] ∧ length [5; 2; 1] ≤ 3)
  ∧ ∃ h',
      _prependChild 3 page 5 8 = Some (Done (h', 8))
      ∧ put_into page h' 5 8 (8 :: filter (λ x, x ≠ 8) (children_of page 5))
      ∧ firstChild h' 5 = Some 8
      ∧ consistent h'.
Proof.
  split; [split; [exact page_consistent|split; [exact text_insertable_in_body|done]]|].
  apply (prependChild_makes_the_first_child 3 page 5 8 [5; 2; 1]);
    [exact page_consistent|exact text_insertable_in_body|done].
Defined.

Lemma paragraph_insertable_in_div : insertable page 6 11 [6; 5; 2; 1].
Proof.
  split; [by exists (KElement "div")|]. split; [by exists (KElement "p")|].
  split; [exact lineage_of_div|]. by apply not_in_lineage.
Qed.

Lemma appendChild_makes_the_last_child_witness :
  (consistent page ∧ insertable page 6 11 [6; 5; 2; 1] ∧ length [6; 5; 2; 1] ≤ 4)
  ∧ ∃ h',
      _appendChild 4 page 6 11 = Some (Done (h', 11))
      ∧ put_into page h' 6 11 (filter (λ x, x ≠ 11) (children_of page 6) ++ [11])
      ∧ lastChild h' 6 = Some 11
      ∧ consistent h'.
Proof.
  split; [split; [exact page_consistent|split; [exact paragraph_insertable_in_div|done]]|].
  apply (appendChild_makes_the_last_child 4 page 6 11 [6; 5; 2; 1]);
    [exact page_consistent|exact paragraph_insertable_in_div|done].
Defined.

Lemma span_insertable_in_body : insertable page 5 7 [5; 2; 1].
Proof.
  split; [by exists (KElement "body")|]. split; [by exists (KElement "span")|].
  split; [exact lineage_of_body|]. by apply not_in_lineage.
Qed.

Lemma prependSibling_puts_the_node_before_the_anchor_witness :
  (consistent page ∧ insertable page 5 7 [5; 2; 1] ∧ length [5; 2; 1] ≤ 3
   ∧ 7 ≠ 9 ∧ children_of page 5 = [6] ++ 9 :: [])
  ∧ ∃ h',
      _prependSibling 3 page 9 7 = Some (Done (h', 7))
      ∧ put_into page h' 5 7
          (filter (λ x, x ≠ 7) [6] ++ 7 :: 9 :: filter (λ x, x ≠ 7) [])
      ∧ consistent h'.
Proof.
  split.
  { split; [exact page_consistent|]. split; [exact span_insertable_in_body|].
    by repeat split. }
  apply (prependSibling_puts_the_node_before_the_anchor 3 page 9 7 page_consistent
           [5; 2; 1] [6] []); try done. exact span_insertable_in_body.
Defined.

Lemma title_insertable_in_body : insertable page 5 4 [5; 2; 1].
Proof.
  split; [by exists (KElement "body")|]. split; [by exists (KElement "title")|].
  split; [exact lineage_of_body|]. by apply not_in_lineage.
Qed.

Lemma appendSibling_puts_the_node_behind_the_anchor_witness :
  (consistent page ∧ insertable page 5 4 [5; 2; 1] ∧ length [5; 2; 1] ≤ 3
   ∧ 4 ≠ 6 ∧ children_of page 5 = [] ++ 6 :: [9])
  ∧ ∃ h',
      _appendSibling 3 page 6 4 = Some (Done (h', 4))
      ∧ put_into page h' 5 4
          (filter (λ x, x ≠ 4) [] ++ 6 :: 4 :: filter (λ x, x ≠ 4) [9])
      ∧ consistent h'.
Proof.
  split.
  { split; [exact page_consistent|]. split; [exact title_insertable_in_body|].
    by repeat split. }
  apply (appendSibling_puts_the_node_behind_the_anchor 3 page 6 4 page_consistent
           [5; 2; 1] [] [9]); try done. exact title_insertable_in_body.
Defined.

(** The four insertions on the page: the children of the body afterwards. *)
Example insertions_sample :
  (∃ h', _prependChild 3 page 5 8 = Some (Done (h', 8)) ∧ children_of h' 5 = [8; 6; 9])
  ∧ (∃ h', _prependChild 3 page 5 9 = Some (Done (h', 9)) ∧ children_of h' 5 = [9; 6])
  ∧ (∃ h', _prependSibling 3 page 9 7 = Some (Done (h', 7)) ∧ children_of h' 5 = [6; 7; 9])
  ∧ (∃ h', _appendSibling 3 page 6 4 = Some (Done (h', 4)) ∧ children_of h' 5 = [6; 4; 9])
  ∧ (∃ h', _appendSibling 3 page 9 6 = Some (Done (h', 6)) ∧ children_of h' 5 = [9; 6])
  ∧ (∃ h', _appendSibling 3 page 6 6 = Some (Done (h', 6)) ∧ children_of h' 5 = [6; 9]).
Proof. repeat split; eexists; (split; [reflexivity|done]). Qed.

Lemma spare_insertable_in_body : insertable page_with_spare 5 13 [5; 2; 1].
Proof.
  split; [by exists (KElement "body")|]. split; [by exists (KElement "em")|].
  split; [exact lineage_of_spare_body|]. by apply not_in_lineage.
Qed.

Lemma insert_then_remove_restores_the_tree_witness :
  (consistent page_with_spare ∧ insertable page_with_spare 5 13 [5; 2; 1]
   ∧ length [5; 2; 1] ≤ 3 ∧ parent_of page_with_spare 13 = None)
  ∧ (∃ h1, _appendChild 3 page_with_spare 5 13 = Some (Done (h1, 13))
           ∧ _remove h1 13 = Done (page_with_spare, 13))
  ∧ (∃ h1, _prependChild 3 page_with_spare 5 13 = Some (Done (h1, 13))
           ∧ _remove h1 13 = Done (page_with_spare, 13))
  ∧ (∀ a, parent_of page_with_spare a = Some 5 →
       (∃ h1, _prependSibling 3 page_with_spare a 13 = Some (Done (h1, 13))
              ∧ _remove h1 13 = Done (page_with_spare, 13))
       ∧ (∃ h1, _appendSibling 3 page_with_spare a 13 = Some (Done (h1, 13))
                ∧ _remove h1 13 = Done (page_with_spare, 13))).
Proof.
  split.
  { split; [exact spare_consistent|]. split; [exact spare_insertable_in_body|].
    by split. }
  apply (insert_then_remove_restores_the_tree 3 page_with_spare 5 13 [5; 2; 1]);
    try done; [exact spare_consistent|exact spare_insertable_in_body].
Defined.

Lemma insertion_refuses_an_ancestor_witness :
  (lineage page 7 [7; 6; 5; 2; 1] ∧ 5 ∈ [7; 6; 5; 2; 1]
   ∧ length [7; 6; 5; 2; 1] ≤ 5
   ∧ (∃ kp, kind_of page 7 = Some kp ∧ may_have_children kp = true)
   ∧ (∃ kc, kind_of page 5 = Some kc ∧ is_node kc = true))
  ∧ _appendChild 5 page 7 5 = Some (Fail (Raised HierarchyRequestError))
  ∧ _prependChild 5 page 7 5 = Some (Fail (Raised HierarchyRequestError))
  ∧ (∀ a, parent_of page a = Some 7 →
       _prependSibling 5 page a 5 = Some (Fail (Raised HierarchyRequestError))
       ∧ _appendSibling 5 page a 5 = Some (Fail (Raised HierarchyRequestError))).
Proof.
  assert (Hin : 5 ∈ [7; 6; 5; 2; 1]) by (do 2 right; left).
  assert (Hkp : ∃ kp, kind_of page 7 = Some kp ∧ may_have_children kp = true)
    by (by exists (KElement "span")).
  assert (Hkc : ∃ kc, kind_of page 5 = Some kc ∧ is_node kc = true)
    by (by exists (KElement "body")).
  split; [repeat split; try done; exact lineage_of_span|].
  apply (insertion_refuses_an_ancestor 5 page 7 5 [7; 6; 5; 2; 1]);
    try done. exact lineage_of_span.
Defined.

(** A template is not put into its own content. *)
Example insertion_refuses_the_host_sample :
  _appendChild 9 page 11 9 = Some (Fail (Raised HierarchyRequestError))
  ∧ _appendChild 9 page 10 9 = Some (Fail (Raised HierarchyRequestError)).
Proof. split; reflexivity. Qed.

Lemma insertions_keep_the_tree_consistent_witness :
  ∃ h',
    (consistent page
     ∧ (_appendChild 4 page 6 10 = Some (Done (h', 10))
        ∨ _prependChild 4 page 6 10 = Some (Done (h', 10))
        ∨ _prependSibling 4 page 6 10 = Some (Done (h', 10))
        ∨ _appendSibling 4 page 6 10 = Some (Done (h', 10))))
    ∧ consistent h' ∧ 10 = 10.
Proof.
  eexists. split.
  - split; [exact page_consistent|]. right. left. reflexivity.
  - apply (insertions_keep_the_tree_consistent 4 page 6 10 _ 10 page_consistent).
    right. left. reflexivity.
Defined.

Lemma appendChild_empties_a_fragment_witness :
  (consistent page
   ∧ (∃ kp, kind_of page 6 = Some kp ∧ is_element kp || is_fragment kp = true)
   ∧ kind_of page 10 = Some KFragment
   ∧ lineage page 6 [6; 5; 2; 1] ∧ (10 ∉ [6; 5; 2; 1]) ∧ length [6; 5; 2; 1] ≤ 4)
  ∧ ∃ h',
      _appendChild 4 page 6 10 = Some (Done (h', 10))
      ∧ length h' = length page
      ∧ children_of h' 6 = children_of page 6 ++ children_of page 10
      ∧ children_of h' 10 = []
      ∧ (∀ x, x ∈ children_of page 10 → parent_of h' x = Some 6)
      ∧ (∀ i, i ∉ children_of page 10 → parent_of h' i = parent_of page i)
      ∧ (∀ i, i ≠ 6 → i ≠ 10 → skel <$> h' !! i = skel <$> page !! i)
      ∧ (∀ i, kind_of h' i = kind_of page i)
      ∧ consistent h'.
Proof.
  assert (Hkp : ∃ kp, kind_of page 6 = Some kp ∧ is_element kp || is_fragment kp = true)
    by (by exists (KElement "div")).
  assert (Hno : 10 ∉ [6; 5; 2; 1]) by (by apply not_in_lineage).
  split; [repeat split; try done; [exact page_consistent|exact lineage_of_div]|].
  apply (appendChild_empties_a_fragment 4 page 6 10 [6; 5; 2; 1]); try done;
    [exact page_consistent|exact lineage_of_div].
Defined.

End dom_more_samples.
